(** * sql_firewall: a shallow embedding of [sql_firewall.c]

    The development follows the layout of the C file: machine integers,
    the shared data structures, the external query-text file, the rule
    table, the normaliser, the rule engine, statement evaluation
    ([pgss_store]) and the administrative entry points.  Definitions keep
    the names of the C functions they embed. *)

From Stdlib Require Import ZArith List Lia Bool.
From Stdlib Require Import Strings.Byte.
From stdpp Require Import base gmap list.

Open Scope Z_scope.

#[global] Instance byte_eq_decision : EqDecision byte := byte_eq_dec.

(** ** Machine integers

    The C types are kept as [Z] with the wrap-around written out:
    [Size] is the 64-bit unsigned [size_t], [int] is 32-bit signed,
    [int64] is 64-bit signed (PostgreSQL is built with [-fwrapv]),
    [uint32] is 32-bit unsigned and [char] is the signed 8-bit type. *)

Definition Size_max : Z := 2 ^ 64.
Definition to_Size (x : Z) : Z := x mod Size_max.
Definition to_uint32 (x : Z) : Z := x mod 2 ^ 32.
Definition to_int (x : Z) : Z := (x + 2 ^ 31) mod 2 ^ 32 - 2 ^ 31.
Definition to_int64 (x : Z) : Z := (x + 2 ^ 63) mod 2 ^ 64 - 2 ^ 63.
Definition to_char (x : Z) : Z := (x + 2 ^ 7) mod 2 ^ 8 - 2 ^ 7.

Definition INT_MAX : Z := 2 ^ 31 - 1.
Definition InvalidOid : Z := 0.

Definition is_Size (x : Z) : Prop := 0 <= x < Size_max.
Definition is_int (x : Z) : Prop := - 2 ^ 31 <= x <= INT_MAX.

(** ** Enumerations *)

Inductive PGFWMode :=
| PGFW_MODE_DISABLED
| PGFW_MODE_LEARNING
| PGFW_MODE_PERMISSIVE
| PGFW_MODE_ENFORCING.

Inductive PGFWEngineType :=
| PGFW_ENGINE_NONE
| PGFW_ENGINE_WHITELIST
| PGFW_ENGINE_BLACKLIST
| PGFW_ENGINE_HYBRID.

(** [PGFWEntryType]: the enumerators are character codes. *)
Definition PGFW_DUMMY_ENTRY : Z := 100.      (* 'd' *)
Definition PGFW_WHITELIST_ENTRY : Z := 119.  (* 'w' *)
Definition PGFW_BLACKLIST_ENTRY : Z := 98.   (* 'b' *)

#[global] Instance PGFWMode_eq_dec : EqDecision PGFWMode.
Proof. solve_decision. Defined.

#[global] Instance PGFWEngineType_eq_dec : EqDecision PGFWEngineType.
Proof. solve_decision. Defined.

(** ** Data structures *)

(** [pgssHashKey]: identity of a rule.  [type] is the C [char] field. *)
Record pgssHashKey := mkKey {
  userid : Z;
  queryid : Z;
  type : Z
}.

#[global] Instance pgssHashKey_eq_dec : EqDecision pgssHashKey.
Proof. solve_decision. Defined.

#[global] Instance pgssHashKey_countable : Countable pgssHashKey.
Proof.
  refine (inj_countable' (fun k => (userid k, queryid k, type k))
                         (fun t => mkKey t.1.1 t.1.2 t.2) _).
  intros []; reflexivity.
Defined.

Record Counters := mkCounters {
  calls : Z;
  banned : Z
}.

(** [pgssEntry].  The key is the map key of [pgss_hash]; [entry_type] is
    the [uint32 type] field of the entry, which is distinct from
    [key.type] and is assigned by the callers of [entry_alloc]. *)
Record pgssEntry := mkEntry {
  counters : Counters;
  query_offset : Z;
  query_len : Z;
  encoding : Z;
  entry_type : Z
}.

Record pgssSharedState := mkShared {
  mean_query_len : Z;
  extent : Z;
  n_writers : Z;
  gc_count : Z;
  error_count : Z;
  warning_count : Z
}.

Record pgssLocationLen := mkLoc {
  location : Z;
  tok_length : Z
}.

(** Messages sent with [ereport]/[elog] at LOG or WARNING level. *)
Inductive log_event :=
| WARNING_max_exceeded
| WARNING_prohibited (query : list byte)
| LOG_could_not_write_qtexts
| LOG_could_not_read_qtexts
| LOG_could_not_create_qtexts
| LOG_could_not_truncate_qtexts
| LOG_out_of_memory
| LOG_could_not_write_stat_file
| LOG_could_not_rename_stat_file
| LOG_could_not_read_stat_file
| LOG_invalid_stat_file
| LOG_could_not_write_counter_file
| LOG_could_not_rename_counter_file
| LOG_stat_file_updated.

(** Errors raised with [ereport(ERROR, ...)]/[elog(ERROR, ...)]. *)
Inductive pg_error :=
| ERR_prohibited_sql_statement (query : list byte)
| ERR_no_rule_engine
| ERR_not_loaded
| ERR_must_be_superuser
| ERR_only_under_disable_mode
| ERR_bad_rule_type
| ERR_could_not_store_query_text
| ERR_could_not_allocate_entry
| ERR_could_not_open_file
| ERR_could_not_close_file
| ERR_could_not_stat_file
| ERR_not_a_regular_file
| ERR_parse (query : list byte)
| ERR_encoding_conversion.

(** How a C function ends: it returns, it leaves through [ereport(ERROR)],
    it dereferences a null pointer, or it reads or copies outside the
    object it was given. *)
Inductive outcome (A : Type) :=
| Return (a : A)
| Ereport (e : pg_error)
| NullDeref
| OutOfBounds.
Arguments Return {A} a.
Arguments Ereport {A} e.
Arguments NullDeref {A}.
Arguments OutOfBounds {A}.

(** One record of the persisted rule file: the entry image and its text. *)
Record stat_record := mkStatRecord {
  temp_key : pgssHashKey;
  temp : pgssEntry;
  temp_text : list byte
}.

Record stat_file := mkStatFile {
  header : Z;
  pgver : Z;
  num : Z;
  records : list stat_record
}.

(** One line of an exported rule file, before [fprintf] formats it. *)
Record csv_row := mkCsvRow {
  csv_userid : Z;
  csv_queryid : Z;
  csv_query : list byte;
  csv_calls : Z;
  csv_banned : Z;
  csv_type : Z
}.

(** The process-wide state: shared memory ([pgss], [pgss_hash]), the
    external query-text file, the persisted rule and counter files, the
    file written by an export, and the server log.  A file is [None] when
    it does not exist. *)
Record world := mkWorld {
  pgss : pgssSharedState;
  pgss_hash : gmap pgssHashKey pgssEntry;
  qtext_file : option (list byte);
  rule_file : option stat_file;
  counter_file : option (Z * Z);
  export_file : option (list csv_row);
  server_log : list log_event
}.

(** Settings and per-call context: the GUCs, whether the module was
    loaded through shared_preload_libraries ([pgss && pgss_hash]), and
    what the host reports about the session. *)
Record config := mkConfig {
  loaded : bool;
  pgfw_mode : PGFWMode;
  pgfw_rule_engine : PGFWEngineType;
  pgss_max : Z;
  superuser : bool;
  GetUserId : Z;
  GetDatabaseEncoding : Z
}.

Definition set_pgss (w : world) (s : pgssSharedState) : world :=
  mkWorld s (pgss_hash w) (qtext_file w) (rule_file w) (counter_file w)
          (export_file w) (server_log w).
Definition set_hash (w : world) (h : gmap pgssHashKey pgssEntry) : world :=
  mkWorld (pgss w) h (qtext_file w) (rule_file w) (counter_file w)
          (export_file w) (server_log w).
Definition set_qtext_file (w : world) (f : option (list byte)) : world :=
  mkWorld (pgss w) (pgss_hash w) f (rule_file w) (counter_file w)
          (export_file w) (server_log w).
Definition set_rule_file (w : world) (f : option stat_file) : world :=
  mkWorld (pgss w) (pgss_hash w) (qtext_file w) f (counter_file w)
          (export_file w) (server_log w).
Definition set_counter_file (w : world) (f : option (Z * Z)) : world :=
  mkWorld (pgss w) (pgss_hash w) (qtext_file w) (rule_file w) f
          (export_file w) (server_log w).
Definition set_export_file (w : world) (f : option (list csv_row)) : world :=
  mkWorld (pgss w) (pgss_hash w) (qtext_file w) (rule_file w) (counter_file w)
          f (server_log w).
Definition ereport_log (w : world) (ev : log_event) : world :=
  mkWorld (pgss w) (pgss_hash w) (qtext_file w) (rule_file w) (counter_file w)
          (export_file w) (server_log w ++ [ev]).

(** Sequencing of calls that may not return: the state goes on from the
    first call, and the rest runs only when that call returned. *)
Definition bind {A B : Type} (m : outcome A * world)
    (k : A -> world -> outcome B * world) : outcome B * world :=
  match m with
  | (Return a, w) => k a w
  | (Ereport e, w) => (Ereport e, w)
  | (NullDeref, w) => (NullDeref, w)
  | (OutOfBounds, w) => (OutOfBounds, w)
  end.

Notation "'call' x / w := m 'in' k" := (bind m (fun x w => k))
  (at level 10, x pattern at level 0, w name, m at level 200, k at level 200).

(** ** Query texts: [qtext_fetch] *)

(** What a call that yields a [char *] into a buffer can do: return NULL,
    return [buffer + off], or read outside the buffer it was given. *)
Inductive fetch_result :=
| FetchNull
| FetchPtr (off : Z)
| FetchOutOfBounds.

Definition qtext_fetch (query_offset query_len : Z)
    (buffer : option (list byte)) (buffer_size : Z) : fetch_result :=
  match buffer with
  | None => FetchNull
  | Some buf =>
      if (query_len <? 0) ||
         (buffer_size <=? to_Size (query_offset + query_len))
      then FetchNull
      else
        match buf !! Z.to_nat (to_Size (query_offset + query_len)) with
        | None => FetchOutOfBounds
        | Some c => if Byte.eqb c x00 then FetchPtr query_offset
                    else FetchNull
        end
  end.

(** The C string that starts at [buf + off]: the bytes up to the first
    NUL, or [None] when the scan runs off the buffer. *)
Fixpoint c_string (l : list byte) : option (list byte) :=
  match l with
  | [] => None
  | c :: l' => if Byte.eqb c x00 then Some []
               else option_map (cons c) (c_string l')
  end.

Definition c_string_at (buf : list byte) (off : Z) : option (list byte) :=
  if (0 <=? off) && (off <? Z.of_nat (length buf))
  then c_string (drop (Z.to_nat off) buf)
  else None.

(** The [len] bytes at [buf + off]: what a function reads that is given
    the pointer and the length. *)
Definition bytes_at (buf : list byte) (off len : Z) : list byte :=
  take (Z.to_nat len) (drop (Z.to_nat off) buf).

(** ** The host

    What the C file takes from PostgreSQL and libc and that is not part of
    the repository: the core scanner (the tokens of a query text, each
    with the location [yylloc] where it starts and the position [yyend]
    where flex has put a NUL in [scanbuf]), parsing, analysis and
    jumbling of a query text (the value of [hash_any] over the jumble and
    the constant locations recorded on the way, or the error raised),
    role lookup, [atoi]/[atol], two constants of the headers, the
    conversion [pg_any_to_server] and [hash_any] on a string. *)

Record token := mkToken {
  yylloc : Z;
  yyend : Z
}.

(** What [pg_any_to_server(s, len, encoding)] does with the [len] bytes
    at [s]: it raises an error (a text that is not valid in its encoding,
    or has no equivalent in the encoding of the server), returns [s]
    itself, or returns a converted copy. *)
Inductive conversion :=
| ConvError
| ConvSame
| ConvCopy (enc : list byte).

Record host := mkHost {
  core_yylex : list byte -> list token;
  parse_analyze_jumble : list byte -> outcome (Z * list pgssLocationLen);
  get_role_oid : list byte -> Z;
  atol : list byte -> Z;
  PG_VERSION_NUM : Z;
  PG_VALID_BE_ENCODING : Z -> bool;
  pg_any_to_server : list byte -> Z -> Z -> conversion;
  hash_any : list byte -> Z
}.

Definition PGSS_FILE_HEADER : Z := 538181925.  (* 0x20140125 *)
Definition PGSS_PG_MAJOR_VERSION (h : host) : Z := PG_VERSION_NUM h / 100.
Definition ASSUMED_LENGTH_INIT : Z := 1024.

(** ** Normalisation: [fill_in_constant_lengths], [generate_normalized_query] *)

Fixpoint strlen (l : list byte) : Z :=
  match l with
  | [] => 0
  | c :: l' => if Byte.eqb c x00 then 0 else 1 + strlen l'
  end.

(** [query[i]] on the NUL-terminated text. *)
Definition char_at (query : list byte) (i : Z) : byte :=
  nth (Z.to_nat i) (query ++ [x00]) x00.

(** [yyextra.scanbuf] once the scanner has returned token [t]. *)
Definition scanbuf (query : list byte) (t : token) : list byte :=
  <[Z.to_nat (yyend t) := x00]> (query ++ [x00]).

(** [comp_location] and the [qsort] call, as an insertion sort. *)
Definition comp_location (a b : pgssLocationLen) : Z :=
  if location a <? location b then -1
  else if location b <? location a then 1
  else 0.

Fixpoint qsort_insert (a : pgssLocationLen) (l : list pgssLocationLen)
    : list pgssLocationLen :=
  match l with
  | [] => [a]
  | b :: l' => if comp_location a b <=? 0 then a :: b :: l'
               else b :: qsort_insert a l'
  end.

Fixpoint qsort_locations (l : list pgssLocationLen) : list pgssLocationLen :=
  match l with
  | [] => []
  | a :: l' => qsort_insert a (qsort_locations l')
  end.

(** The inner [for (;;)]: lex until a token starts at or after [loc];
    [None] is [tok == 0]. *)
Fixpoint lex_until (toks : list token) (loc : Z) : option (token * list token) :=
  match toks with
  | [] => None
  | t :: rest => if loc <=? yylloc t then Some (t, rest)
                 else lex_until rest loc
  end.

Definition token_length (query : list byte) (t : token) (loc : Z) : Z :=
  to_int (strlen (drop (Z.to_nat loc) (scanbuf query t))).

(** The outer loop over the sorted locations. *)
Fixpoint fill_lengths (query : list byte) (locs : list pgssLocationLen)
    (toks : list token) (last_loc : Z) : list pgssLocationLen :=
  match locs with
  | [] => []
  | l :: locs' =>
      let loc := location l in
      if loc <=? last_loc then l :: fill_lengths query locs' toks last_loc
      else
        match lex_until toks loc with
        | None => l :: locs'
        | Some (t, rest) =>
            if Byte.eqb (char_at query loc) "-"%byte then
              match rest with
              | [] => l :: locs'
              | t' :: rest' =>
                  mkLoc loc (token_length query t' loc)
                  :: fill_lengths query locs' rest' loc
              end
            else
              mkLoc loc (token_length query t loc)
              :: fill_lengths query locs' rest loc
        end
  end.

Definition fill_in_constant_lengths (h : host)
    (clocations : list pgssLocationLen) (query : list byte)
    : list pgssLocationLen :=
  let locs := match clocations with
              | _ :: _ :: _ => qsort_locations clocations
              | _ => clocations
              end in
  fill_lengths query locs (core_yylex h query) (-1).

(** The loop state of [generate_normalized_query].  [norm_query] is
    written left to right at [n_quer_loc] only, so the buffer is kept as
    the bytes written so far; it was allocated with [query_len + 1]
    bytes. *)
Record norm_state := mkNorm {
  norm_query : list byte;
  quer_loc : Z;
  n_quer_loc : Z;
  last_off : Z;
  last_tok_len : Z
}.

(** [memcpy(dst, query + from, n)]: the bytes copied, or [None] when the
    count is negative or the source range leaves the text and its NUL.
    The destination is checked where the copy is made. *)
Definition memcpy_query (query : list byte) (from n : Z) : option (list byte) :=
  if (0 <=? from) && (0 <=? n) && (from + n <=? Z.of_nat (length query) + 1)
  then Some (take (Z.to_nat n) (drop (Z.to_nat from) (query ++ [x00])))
  else None.

(** The bytes [norm_query[n_quer_loc]] to
    [norm_query[n_quer_loc + len_to_wrt]], the copied chunk and the byte
    stored after it, are inside the [query_len + 1] bytes of the
    buffer. *)
Definition norm_room (query_len n_quer_loc len_to_wrt : Z) : bool :=
  (0 <=? n_quer_loc) && (n_quer_loc + len_to_wrt <? query_len + 1).

Definition norm_step (query : list byte) (query_len : Z) (st : norm_state)
    (l : pgssLocationLen) : option norm_state :=
  let off := location l in
  let tok_len := tok_length l in
  if tok_len <? 0 then Some st
  else
    let len_to_wrt := to_int (to_int (off - last_off st) - last_tok_len st) in
    match memcpy_query query (quer_loc st) len_to_wrt with
    | None => None
    | Some chunk =>
        if norm_room query_len (n_quer_loc st) len_to_wrt
        then Some (mkNorm (norm_query st ++ chunk ++ ["?"%byte])
                          (to_int (off + tok_len))
                          (to_int (to_int (n_quer_loc st + len_to_wrt) + 1))
                          off tok_len)
        else None
    end.

Fixpoint norm_loop (query : list byte) (query_len : Z) (st : norm_state)
    (locs : list pgssLocationLen) : option norm_state :=
  match locs with
  | [] => Some st
  | l :: locs' =>
      match norm_step query query_len st l with
      | None => None
      | Some st' => norm_loop query query_len st' locs'
      end
  end.

(** [generate_normalized_query] after its call of
    [fill_in_constant_lengths]: the loop over the locations, the copy of
    the rest of the text and the terminator.  Returns the normalised text
    and the new [*query_len_p], or [None] when a copy or a store leaves
    the text or the buffer. *)
Definition substitute_constants (query : list byte) (query_len : Z)
    (locs : list pgssLocationLen) : option (list byte * Z) :=
  match norm_loop query query_len (mkNorm [] 0 0 0 0) locs with
  | None => None
  | Some st =>
      let len_to_wrt := to_int (query_len - quer_loc st) in
      match memcpy_query query (quer_loc st) len_to_wrt with
      | None => None
      | Some chunk =>
          if norm_room query_len (n_quer_loc st) len_to_wrt
          then Some (norm_query st ++ chunk,
                     to_int (n_quer_loc st + len_to_wrt))
          else None
      end
  end.

Definition generate_normalized_query (h : host)
    (clocations : list pgssLocationLen) (query : list byte) (query_len : Z)
    : option (list byte * Z) :=
  substitute_constants query query_len
    (fill_in_constant_lengths h clocations query).

(** ** System calls

    The result of the system calls a function makes is an argument of its
    model: whether the write of [qtext_store] succeeds (and what is left
    of the file when it does not), whether [qtext_load_file] can read the
    file (and the LOG message when it cannot), and the calls of
    [gc_qtexts] one by one. *)

Inductive write_io :=
| WriteOk
| WriteFails (left_behind : option (list byte)).

Inductive load_io :=
| LoadOk
| LoadFails (ev : option log_event).

Record gc_io := mkGcIo {
  gc_load : load_io;
  gc_open_ok : bool;
  gc_fwrite_fail : option Z;   (* the value of [nentries] at which fwrite fails *)
  gc_ftruncate_ok : bool;
  gc_close_ok : bool;
  gc_left_behind : option (list byte)  (* the file after a failed rewrite *)
}.

(** [lseek] to [off] and [write]: a gap after the end of file reads as NULs. *)
Definition pwrite (f : list byte) (off : Z) (data : list byte) : list byte :=
  let n := Z.to_nat off in
  take n (f ++ replicate (n - length f)%nat x00) ++ data
  ++ drop (n + length data)%nat f.

(** ** The external query-text file *)

(** Returns [(stored, *query_offset, *gc_count)]. *)
Definition qtext_store (query : list byte) (query_len : Z) (wr : write_io)
    (w : world) : (bool * Z * Z) * world :=
  let s := pgss w in
  let off := extent s in
  let gcc := gc_count s in
  let w1 := set_pgss w (mkShared (mean_query_len s)
                                 (to_Size (off + to_int (query_len + 1)))
                                 (to_int (n_writers s + 1))
                                 (gc_count s) (error_count s) (warning_count s)) in
  let done (w' : world) : world :=
    let s' := pgss w' in
    set_pgss w' (mkShared (mean_query_len s') (extent s')
                          (to_int (n_writers s' - 1))
                          (gc_count s') (error_count s') (warning_count s')) in
  match wr with
  | WriteOk =>
      let data := take (Z.to_nat (query_len + 1)) (query ++ [x00]) in
      let f := match qtext_file w1 with Some f => f | None => [] end in
      ((true, off, gcc), done (set_qtext_file w1 (Some (pwrite f off data))))
  | WriteFails left_behind =>
      ((false, off, gcc),
       done (set_qtext_file (ereport_log w1 LOG_could_not_write_qtexts)
                            left_behind))
  end.

(** Returns the buffer; its size is the length of the list. *)
Definition qtext_load_file (ld : load_io) (w : world)
    : option (list byte) * world :=
  match qtext_file w with
  | None => (None, w)
  | Some f =>
      match ld with
      | LoadOk => (Some f, w)
      | LoadFails None => (None, w)
      | LoadFails (Some ev) => (None, ereport_log w ev)
      end
  end.

Definition need_gc_qtexts (cfg : config) (w : world) : bool :=
  let extent := extent (pgss w) in
  if extent <? to_Size (to_int (512 * pgss_max cfg)) then false
  else if extent
          <? to_Size (to_Size (mean_query_len (pgss w) * to_Size (pgss_max cfg)) * 2)
  then false
  else true.

Definition set_text (e : pgssEntry) (off len : Z) : pgssEntry :=
  mkEntry (counters e) off len (encoding e) (entry_type e).
Definition set_counters (e : pgssEntry) (c : Counters) : pgssEntry :=
  mkEntry c (query_offset e) (query_len e) (encoding e) (entry_type e).
Definition set_entry_type (e : pgssEntry) (t : Z) : pgssEntry :=
  mkEntry (counters e) (query_offset e) (query_len e) (encoding e) t.

(** The entries in the order of [hash_seq_search]; the program does not
    depend on the order and the model takes the one of [map_to_list]. *)
Definition hash_seq (h : gmap pgssHashKey pgssEntry)
    : list (pgssHashKey * pgssEntry) :=
  map_to_list h.

Record gc_state := mkGc {
  gc_hash : gmap pgssHashKey pgssEntry;
  gc_extent : Z;
  gc_nentries : Z;
  gc_written : list byte
}.

(** The rewriting loop of [gc_qtexts]; the flag is false when an [fwrite]
    failed and the loop was left through [gc_fail]. *)
Fixpoint gc_loop (g : gc_io) (qbuffer : list byte) (st : gc_state)
    (l : list (pgssHashKey * pgssEntry)) : gc_state * bool :=
  match l with
  | [] => (st, true)
  | (k, e) :: l' =>
      let query_len := query_len e in
      match qtext_fetch (query_offset e) query_len (Some qbuffer)
                        (Z.of_nat (length qbuffer)) with
      | FetchPtr qry =>
          if decide (gc_fwrite_fail g = Some (gc_nentries st))
          then (st, false)
          else
            gc_loop g qbuffer
              (mkGc (<[k := set_text e (gc_extent st) query_len]> (gc_hash st))
                    (to_Size (gc_extent st + to_int (query_len + 1)))
                    (to_int (gc_nentries st + 1))
                    (gc_written st
                     ++ take (Z.to_nat (query_len + 1))
                             (drop (Z.to_nat qry) qbuffer)))
              l'
      | _ =>
          gc_loop g qbuffer
            (mkGc (<[k := set_text e 0 (-1)]> (gc_hash st))
                  (gc_extent st) (gc_nentries st) (gc_written st))
            l'
      end
  end.

Definition record_gc_qtexts (w : world) : world :=
  let s := pgss w in
  set_pgss w (mkShared (mean_query_len s) (extent s) (n_writers s)
                       (to_int (gc_count s + 1))
                       (error_count s) (warning_count s)).

(** The [gc_fail] exit: every entry loses its text.  [file] is what the
    query-text file holds by then. *)
Definition gc_fail (file : option (list byte))
    (h : gmap pgssHashKey pgssEntry) (w : world) : world :=
  record_gc_qtexts
    (set_qtext_file (set_hash w ((fun e => set_text e 0 (-1)) <$> h)) file).

Definition gc_qtexts (cfg : config) (g : gc_io) (w : world) : world :=
  if negb (need_gc_qtexts cfg w) then w
  else
    match qtext_load_file (gc_load g) w with
    | (None, w1) => w1
    | (Some qbuffer, w1) =>
        if negb (gc_open_ok g)
        then gc_fail (qtext_file w1) (pgss_hash w1)
                     (ereport_log w1 LOG_could_not_write_qtexts)
        else
          match gc_loop g qbuffer (mkGc (pgss_hash w1) 0 0 [])
                        (hash_seq (pgss_hash w1)) with
          | (st, false) =>
              gc_fail (gc_left_behind g) (gc_hash st)
                      (ereport_log w1 LOG_could_not_write_qtexts)
          | (st, true) =>
              let w2 := if gc_ftruncate_ok g then w1
                        else ereport_log w1 LOG_could_not_truncate_qtexts in
              if negb (gc_close_ok g)
              then gc_fail (gc_left_behind g) (gc_hash st)
                           (ereport_log w2 LOG_could_not_write_qtexts)
              else
                let s := pgss w2 in
                let extent := gc_extent st in
                let mean := if 0 <? gc_nentries st
                            then extent / gc_nentries st
                            else ASSUMED_LENGTH_INIT in
                record_gc_qtexts
                  (set_pgss
                     (set_qtext_file (set_hash w2 (gc_hash st))
                                     (Some (gc_written st)))
                     (mkShared mean extent (n_writers s) (gc_count s)
                               (error_count s) (warning_count s)))
          end
    end.

(** [entry_reset]: the two flags are the results of [AllocateFile] and
    [ftruncate]. *)
Definition entry_reset (open_ok truncate_ok : bool) (w : world) : world :=
  let w1 := set_hash w ∅ in
  let w2 :=
    if open_ok
    then let w' := set_qtext_file w1 (Some []) in
         if truncate_ok then w'
         else ereport_log w' LOG_could_not_truncate_qtexts
    else ereport_log w1 LOG_could_not_create_qtexts in
  let s := pgss w2 in
  record_gc_qtexts
    (set_pgss w2 (mkShared (mean_query_len s) 0 (n_writers s) (gc_count s)
                           (error_count s) (warning_count s))).

(** ** The rule table *)

(** [entry_alloc] returns a pointer to the entry, that is its key, or
    NULL.  A new entry has its counters, text reference and encoding set;
    the rest of the element is whatever the shared memory held, given as
    [uninit]. *)
Definition entry_alloc (cfg : config) (uninit : Z) (key : pgssHashKey)
    (query_offset query_len encoding : Z) (sticky : bool) (w : world)
    : option pgssHashKey * world :=
  if pgss_max cfg <=? Z.of_nat (size (pgss_hash w))
  then (None, ereport_log w WARNING_max_exceeded)
  else
    match pgss_hash w !! key with
    | Some _ => (Some key, w)
    | None =>
        (Some key,
         set_hash w (<[key := mkEntry (mkCounters 0 0) query_offset query_len
                                      encoding uninit]> (pgss_hash w)))
    end.

Definition entry_delete (userid queryid rule_type : Z) (w : world) : world :=
  set_hash w (delete (mkKey userid queryid (to_char rule_type)) (pgss_hash w)).

Definition __lookup_rule (key : pgssHashKey) (w : world) : option pgssHashKey :=
  match pgss_hash w !! key with
  | Some _ => Some key
  | None => None
  end.

Definition lookup_rule (userid queryid rule_type : Z) (w : world)
    : option pgssHashKey :=
  let wildcard := __lookup_rule (mkKey InvalidOid queryid (to_char rule_type)) w in
  if negb (userid =? InvalidOid) then
    match __lookup_rule (mkKey userid queryid (to_char rule_type)) w with
    | Some entry => Some entry
    | None => wildcard
    end
  else wildcard.

Definition lookup_whitelist (userid queryid : Z) (w : world) :=
  lookup_rule userid queryid PGFW_WHITELIST_ENTRY w.

Definition lookup_blacklist (userid queryid : Z) (w : world) :=
  lookup_rule userid queryid PGFW_BLACKLIST_ENTRY w.

(** ** The rule engine *)

Definition stat_warning_increment (w : world) : world :=
  let s := pgss w in
  set_pgss w (mkShared (mean_query_len s) (extent s) (n_writers s) (gc_count s)
                       (error_count s) (to_int64 (warning_count s + 1))).

Definition stat_error_increment (w : world) : world :=
  let s := pgss w in
  set_pgss w (mkShared (mean_query_len s) (extent s) (n_writers s) (gc_count s)
                       (to_int64 (error_count s + 1)) (warning_count s)).

Definition count_entry (e : pgssEntry) : pgssEntry :=
  if entry_type e =? PGFW_WHITELIST_ENTRY
  then set_counters e (mkCounters (to_int64 (calls (counters e) + 1))
                                  (banned (counters e)))
  else if entry_type e =? PGFW_BLACKLIST_ENTRY
  then set_counters e (mkCounters (calls (counters e))
                                  (to_int64 (banned (counters e) + 1)))
  else e.

Definition collect_entry_statistics (entry : option pgssHashKey) (w : world)
    : world :=
  match entry with
  | None => w
  | Some k => set_hash w (alter count_entry k (pgss_hash w))
  end.

Definition __to_be_prohibited (cfg : config)
    (whitelist_entry blacklist_entry : option pgssHashKey) (w : world)
    : outcome bool * world :=
  let whitelist_hit := bool_decide (whitelist_entry <> None) in
  let blacklist_hit := bool_decide (blacklist_entry <> None) in
  match pgfw_rule_engine cfg with
  | PGFW_ENGINE_WHITELIST =>
      (Return (negb whitelist_hit), collect_entry_statistics whitelist_entry w)
  | PGFW_ENGINE_BLACKLIST =>
      (Return blacklist_hit, collect_entry_statistics blacklist_entry w)
  | PGFW_ENGINE_HYBRID =>
      (Return (negb whitelist_hit || blacklist_hit),
       if whitelist_hit && negb blacklist_hit
       then collect_entry_statistics whitelist_entry w
       else if blacklist_hit
       then collect_entry_statistics blacklist_entry w
       else w)
  | PGFW_ENGINE_NONE => (Ereport ERR_no_rule_engine, w)
  end.

Definition to_be_prohibited (cfg : config) (userid queryid : Z) (w : world)
    : outcome bool * world :=
  let blacklist_entry :=
    match pgfw_rule_engine cfg with
    | PGFW_ENGINE_BLACKLIST | PGFW_ENGINE_HYBRID =>
        lookup_blacklist userid queryid w
    | _ => None
    end in
  let whitelist_entry :=
    match blacklist_entry with
    | None =>
        match pgfw_rule_engine cfg with
        | PGFW_ENGINE_WHITELIST | PGFW_ENGINE_HYBRID =>
            lookup_whitelist userid queryid w
        | _ => None
        end
    | Some _ => None
    end in
  __to_be_prohibited cfg whitelist_entry blacklist_entry w.

(** ** Statement evaluation: [pgss_store] *)

(** The system calls of one [pgss_store] or [pgss_restore]: the first and
    the repeated [qtext_store], the garbage collection, and the content of
    the shared-memory element handed out by [hash_search(HASH_ENTER)]. *)
Record store_io := mkStoreIo {
  io_write1 : write_io;
  io_write2 : write_io;
  io_gc : gc_io;
  io_uninit : Z
}.

(** A C string is the list of its bytes before the terminator, so
    [strlen(query)] is the length of the list.  [jstate] is [None] for a
    NULL pointer and the recorded constant locations otherwise. *)
Definition pgss_store (h : host) (cfg : config) (io : store_io)
    (query : list byte) (queryId : Z)
    (jstate : option (list pgssLocationLen)) (w : world)
    : outcome unit * world :=
  if negb (loaded cfg) then (Return tt, w)
  else
    let encoding := GetDatabaseEncoding cfg in
    let query_len := to_int (Z.of_nat (length query)) in
    let key_userid := GetUserId cfg in
    let key_queryid := queryId in
    match pgfw_mode cfg with
    | PGFW_MODE_ENFORCING =>
        call prohibited / w1 :=
          to_be_prohibited cfg key_userid key_queryid w in
        if prohibited
        then (Ereport (ERR_prohibited_sql_statement query),
              stat_error_increment w1)
        else (Return tt, w1)
    | PGFW_MODE_PERMISSIVE =>
        call prohibited / w1 :=
          to_be_prohibited cfg key_userid key_queryid w in
        if prohibited
        then (Return tt,
              stat_warning_increment
                (ereport_log w1 (WARNING_prohibited query)))
        else (Return tt, w1)
    | PGFW_MODE_LEARNING =>
        match lookup_whitelist key_userid key_queryid w with
        | Some _ => (Return tt, w)
        | None =>
            let norm :=
              match jstate with
              | Some clocations =>
                  generate_normalized_query h clocations query query_len
              | None => Some (query, query_len)
              end in
            match norm with
            | None => (OutOfBounds, w)
            | Some (text, query_len) =>
                let '(stored, query_offset, gc_count0, w1) :=
                  qtext_store text query_len (io_write1 io) w in
                let do_gc := need_gc_qtexts cfg w1 in
                let '(stored, query_offset, w2) :=
                  if negb stored || negb (gc_count (pgss w1) =? gc_count0)
                  then let '(stored', query_offset', _, w') :=
                         qtext_store text query_len (io_write2 io) w1 in
                       (stored', query_offset', w')
                  else (stored, query_offset, w1) in
                if negb stored then (Return tt, w2)
                else
                  let key := mkKey key_userid key_queryid
                                   (to_char PGFW_WHITELIST_ENTRY) in
                  match entry_alloc cfg (io_uninit io) key query_offset
                                    query_len encoding
                                    (bool_decide (jstate <> None)) w2 with
                  | (None, w3) => (NullDeref, w3)
                  | (Some entry, w3) =>
                      let w4 :=
                        set_hash w3
                          (alter (fun e => set_entry_type e PGFW_WHITELIST_ENTRY)
                                 entry (pgss_hash w3)) in
                      (Return tt,
                       if do_gc then gc_qtexts cfg (io_gc io) w4 else w4)
                  end
            end
        end
    | PGFW_MODE_DISABLED => (Return tt, w)
    end.

(** ** The utility hook: [pgss_ProcessUtility] *)

Inductive PGSSTrackLevel :=
| PGSS_TRACK_NONE
| PGSS_TRACK_TOP
| PGSS_TRACK_ALL.

(** [_PG_init] sets the level; there is no setting for it. *)
Definition pgss_track : PGSSTrackLevel := PGSS_TRACK_TOP.

Definition pgss_enabled (nested_level : Z) : bool :=
  match pgss_track with
  | PGSS_TRACK_ALL => true
  | PGSS_TRACK_TOP => nested_level =? 0
  | PGSS_TRACK_NONE => false
  end.

Definition pgss_hash_string (h : host) (str : list byte) : Z :=
  to_uint32 (hash_any h str).

(** The node tag of the parse tree, as far as the hook looks at it. *)
Inductive utility_tag :=
| T_ExecuteStmt
| T_PrepareStmt
| T_DeallocateStmt
| T_OtherUtilityStmt.

Definition tracked_utility (parsetree : utility_tag) : bool :=
  match parsetree with
  | T_OtherUtilityStmt => true
  | _ => false
  end.

(** [pgss_ProcessUtility].  [S] is the state of the host, and [next] is
    [prev_ProcessUtility] or [standard_ProcessUtility]: it carries the
    statement out.  It is given the value of [nested_level] it runs at
    and, since it may run statements of its own, the state of the module
    as well.  An error of [next] is thrown again once [nested_level] is
    put back, so the level after the hook is the one before it.  The
    duration, the buffer usage and the row count that the hook works out
    go to parameters that [pgss_store] does not read. *)
Definition pgss_ProcessUtility {S : Type} (h : host) (cfg : config)
    (io : store_io)
    (next : Z -> S * world -> outcome unit * (S * world))
    (parsetree : utility_tag) (queryString : list byte) (nested_level : Z)
    (sw : S * world) : outcome unit * (S * world) :=
  if pgss_enabled nested_level && tracked_utility parsetree
  then
    match next (to_int (nested_level + 1)) sw with
    | (Return _, (s1, w1)) =>
        let queryId := pgss_hash_string h queryString in
        let '(r, w2) := pgss_store h cfg io queryString queryId None w1 in
        (r, (s1, w2))
    | r => r
    end
  else next nested_level sw.

(** ** Adding and deleting rules *)

Definition pgss_restore (cfg : config) (io : store_io)
    (userid queryid : Z) (query : list byte) (calls banned rule_type : Z)
    (w : world) : outcome bool * world :=
  let encoding := GetDatabaseEncoding cfg in
  let key := mkKey userid queryid (to_char rule_type) in
  match pgss_hash w !! key with
  | Some _ => (Return true, w)
  | None =>
      let query_len := to_int (Z.of_nat (length query)) in
      let '(stored, query_offset, _, w1) :=
        qtext_store query query_len (io_write1 io) w in
      if negb stored then (Ereport ERR_could_not_store_query_text, w1)
      else
        match entry_alloc cfg (io_uninit io) key query_offset query_len
                          encoding false w1 with
        | (None, w2) => (Ereport ERR_could_not_allocate_entry, w2)
        | (Some entry, w2) =>
            let w3 :=
              set_hash w2
                (alter (fun e => set_counters (set_entry_type e rule_type)
                                              (mkCounters calls banned))
                       entry (pgss_hash w2)) in
            (Return true,
             if need_gc_qtexts cfg w3 then gc_qtexts cfg (io_gc io) w3 else w3)
        end
  end.

Definition __add_rule (cfg : config) (io : store_io) (user queryid : Z)
    (query_string : list byte) (rule_type : Z) (w : world)
    : outcome Z * world :=
  call ret / w1 :=
    pgss_restore cfg io user queryid query_string 0 0 rule_type w in
  (Return 0, w1).

(** Returns the query id and, when [normalized_query] is not NULL, the
    normalised text. *)
Definition sql_firewall_queryid (h : host) (query_string : list byte)
    (normalized_query : bool) : outcome (Z * option (list byte)) :=
  match parse_analyze_jumble h query_string with
  | Return (hash, clocations) =>
      let queryid := if hash =? 0 then 1 else hash in
      if normalized_query then
        match generate_normalized_query h clocations query_string
                (to_int (Z.of_nat (length query_string))) with
        | Some (norm, _) => Return (queryid, Some norm)
        | None => OutOfBounds
        end
      else Return (queryid, None)
  | Ereport e => Ereport e
  | NullDeref => NullDeref
  | OutOfBounds => OutOfBounds
  end.

Definition add_rule (h : host) (cfg : config) (io : store_io)
    (user query_string : list byte) (rule_type : Z) (w : world)
    : outcome Z * world :=
  let userid := get_role_oid h user in
  call (queryid, normalized_query) / w1 :=
    (sql_firewall_queryid h query_string true, w) in
  let query := match normalized_query with
               | Some n => n
               | None => query_string
               end in
  __add_rule cfg io userid queryid query rule_type w1.

Definition __del_rule (userid queryid : Z) (query_string : list byte)
    (rule_type : Z) (w : world) : Z * world :=
  (0, entry_delete userid queryid rule_type w).

Definition del_rule (h : host) (user query_string : list byte)
    (rule_type : Z) (w : world) : outcome Z * world :=
  let userid := get_role_oid h user in
  call (queryid, _) / w1 :=
    (sql_firewall_queryid h query_string false, w) in
  let '(ret, w2) := __del_rule userid queryid query_string rule_type w1 in
  (Return ret, w2).

(** [rule_type_options] and [rule_typeid]; the names are byte strings. *)
Definition rule_type_options : list (list byte * Z) :=
  [ (["d"; "u"; "m"; "m"; "y"]%byte, PGFW_DUMMY_ENTRY);
    (["w"; "h"; "i"; "t"; "e"; "l"; "i"; "s"; "t"]%byte, PGFW_WHITELIST_ENTRY);
    (["b"; "l"; "a"; "c"; "k"; "l"; "i"; "s"; "t"]%byte, PGFW_BLACKLIST_ENTRY) ].

Fixpoint rule_typeid_from (options : list (list byte * Z))
    (rule_type_name : list byte) : Z :=
  match options with
  | [] => PGFW_DUMMY_ENTRY
  | (name, val) :: options' =>
      if decide (rule_type_name = name) then val
      else rule_typeid_from options' rule_type_name
  end.

Definition rule_typeid (rule_type_name : list byte) : Z :=
  rule_typeid_from rule_type_options rule_type_name.

(** ** Persisting the rules: [update_firewall_rule_file], [pgss_shmem_startup] *)

Record dump_io := mkDumpIo {
  d_open_ok : bool;
  d_header_ok : bool;
  d_load : load_io;
  d_fwrite_fail : option Z;   (* the number of records written when fwrite fails *)
  d_close_ok : bool;
  d_rename_ok : bool
}.

(** The text of an entry as [len + 1] bytes starting at [buffer + off]. *)
Definition text_bytes (qbuffer : list byte) (off len : Z) : list byte :=
  take (Z.to_nat (len + 1)) (drop (Z.to_nat off) qbuffer).

(** The serialising loop; [None] is the [goto error] after a failed
    [fwrite]. *)
Fixpoint dump_loop (d : dump_io) (qbuffer : list byte) (written : Z)
    (l : list (pgssHashKey * pgssEntry)) : option (list stat_record) :=
  match l with
  | [] => Some []
  | (k, e) :: l' =>
      let len := query_len e in
      match qtext_fetch (query_offset e) len (Some qbuffer)
                        (Z.of_nat (length qbuffer)) with
      | FetchPtr qstr =>
          if decide (d_fwrite_fail d = Some written) then None
          else
            match dump_loop d qbuffer (written + 1) l' with
            | Some rs => Some (mkStatRecord k e (text_bytes qbuffer qstr len) :: rs)
            | None => None
            end
      | _ => dump_loop d qbuffer written l'
      end
  end.

Definition update_firewall_rule_file (h : host) (d : dump_io) (w : world)
    : world :=
  let error (w' : world) := ereport_log w' LOG_could_not_write_stat_file in
  if negb (d_open_ok d) then error w
  else if negb (d_header_ok d) then error w
  else
    let num_entries := to_int (Z.of_nat (size (pgss_hash w))) in
    match qtext_load_file (d_load d) w with
    | (None, w1) => error w1
    | (Some qbuffer, w1) =>
        match dump_loop d qbuffer 0 (hash_seq (pgss_hash w1)) with
        | None => error w1
        | Some rs =>
            if negb (d_close_ok d) then error w1
            else if negb (d_rename_ok d)
            then ereport_log w1 LOG_could_not_rename_stat_file
            else set_rule_file w1
                   (Some (mkStatFile PGSS_FILE_HEADER (PGSS_PG_MAJOR_VERSION h)
                                     num_entries rs))
        end
    end.

Record startup_io := mkStartupIo {
  s_found : bool;            (* ShmemInitStruct found the segment *)
  s_qfile_open_ok : bool;
  s_file_open_ok : bool;     (* opening an existing rule file works *)
  s_fwrite_fail : option Z;  (* the index of the record whose fwrite fails *)
  s_counter_open_ok : bool;
  s_counter_scan_ok : bool;
  s_uninit : Z               (* content of fresh shared-memory elements *)
}.

Definition pgss_save : bool := true.

(** How the loop over the records is left: at its end or by its [break],
    through one of the three labels, or with a store outside [buffer],
    after which nothing is defined. *)
Inductive load_exit :=
| load_done
| load_read_error
| load_data_error
| load_write_error
| load_out_of_bounds.

(** How [pgss_shmem_startup] ends: it returns; or it has stored outside
    [buffer]; or it has reached [fail:] after [buffer], [file] and [qfile]
    were released, and releases [buffer] and [qfile] a second time. *)
Inductive startup_end :=
| startup_returns
| startup_out_of_bounds
| startup_double_free.

(** [buffer_size] after the "resize buffer as needed" of the loop. *)
Definition resize_buffer (buffer_size query_len : Z) : Z :=
  if buffer_size <=? query_len
  then Z.max (to_int (buffer_size * 2)) (to_int (query_len + 1))
  else buffer_size.

(** The loop over the records of the rule file; a file that ends before
    [num] records were read is a read error.  [temp_text r] is what the
    file holds for the read of the text of [r].  That read asks for
    [(size_t) (query_len + 1)] bytes: for a length below -1 this is more
    than a file holds, [fread] stores what the file still has, behind the
    end of [buffer] when that is more than [buffer_size] bytes, and
    returns less than was asked for.  For the length -1 nothing is read
    and the terminator is stored at [buffer[-1]]. *)
Fixpoint startup_loop (h : host) (cfg : config) (io : startup_io)
    (i n buffer_size : Z) (rs : list stat_record) (w : world)
    : load_exit * world :=
  match rs with
  | [] => if i <? n then (load_read_error, w) else (load_done, w)
  | r :: rs' =>
      if negb (i <? n) then (load_done, w)
      else
        let temp := temp r in
        if negb (PG_VALID_BE_ENCODING h (encoding temp))
        then (load_data_error, w)
        else
          let buffer_size := resize_buffer buffer_size (query_len temp) in
          let count := to_int (query_len temp + 1) in
          if count <? 0 then
            if buffer_size <? Z.of_nat (length (temp_text r))
            then (load_out_of_bounds, w)
            else (load_read_error, w)
          else if Z.of_nat (length (temp_text r)) <? count
          then (load_read_error, w)
          else if query_len temp <? 0 then (load_out_of_bounds, w)
          else
            let buffer := take (Z.to_nat (query_len temp)) (temp_text r)
                          ++ [x00] in
            let query_offset := extent (pgss w) in
            if decide (s_fwrite_fail io = Some i) then (load_write_error, w)
            else
              let f := match qtext_file w with Some f => f | None => [] end in
              let s := pgss w in
              let w1 :=
                set_pgss
                  (set_qtext_file w
                     (Some (f ++ take (Z.to_nat (query_len temp + 1)) buffer)))
                  (mkShared (mean_query_len s)
                            (to_Size (extent s + to_int (query_len temp + 1)))
                            (n_writers s) (gc_count s) (error_count s)
                            (warning_count s)) in
              match entry_alloc cfg (s_uninit io) (temp_key r) query_offset
                                (query_len temp) (encoding temp) false w1 with
              | (None, w2) => (load_done, w2)
              | (Some entry, w2) =>
                  startup_loop h cfg io (to_int (i + 1)) n buffer_size rs'
                    (set_hash w2
                       (alter (fun e => set_counters e (counters temp))
                              entry (pgss_hash w2)))
              end
  end.

(** The message of a label; [fail:] itself leaves the state as it is. *)
Definition startup_fail (ex : load_exit) (w : world) : world :=
  match ex with
  | load_done => w
  | load_read_error => ereport_log w LOG_could_not_read_stat_file
  | load_data_error => ereport_log w LOG_invalid_stat_file
  | load_write_error => ereport_log w LOG_could_not_write_qtexts
  | load_out_of_bounds => w
  end.

(** [pgss_shmem_startup].  Allocations are taken to succeed.  After the
    loop the function releases [buffer], [file] and [qfile] and turns to
    the counter file; a failure there goes to [read_error] or
    [data_error] and so to [fail:], which releases [buffer] and [qfile]
    again. *)
Definition pgss_shmem_startup (h : host) (cfg : config) (io : startup_io)
    (w : world) : startup_end * world :=
  if s_found io then (startup_returns, w)
  else
    (* first time through: fresh shared state and an empty hash table *)
    let w0 := set_hash (set_pgss w (mkShared ASSUMED_LENGTH_INIT 0 0 0 0 0)) ∅ in
    (* unlink and re-create the query-text file *)
    let w1 := set_qtext_file w0 None in
    if negb (s_qfile_open_ok io)
    then (startup_returns, startup_fail load_write_error w1)
    else
      let w2 := set_qtext_file w1 (Some []) in
      if negb pgss_save then (startup_returns, w2)
      else
        match rule_file w2 with
        | None => (startup_returns, w2)
        | Some file =>
            if negb (s_file_open_ok io)
            then (startup_returns, startup_fail load_read_error w2)
            else if negb (header file =? PGSS_FILE_HEADER)
                    || negb (pgver file =? PGSS_PG_MAJOR_VERSION h)
            then (startup_returns, startup_fail load_data_error w2)
            else
              match startup_loop h cfg io 0 (num file) 2048 (records file)
                                 w2 with
              | (load_done, w3) =>
                  match counter_file w3 with
                  | Some (warnings, errors) =>
                      if negb (s_counter_open_ok io)
                      then (startup_double_free,
                            startup_fail load_read_error w3)
                      else if negb (s_counter_scan_ok io)
                      then (startup_double_free,
                            startup_fail load_data_error w3)
                      else
                        let s := pgss w3 in
                        (startup_returns,
                         set_counter_file
                           (set_pgss w3
                              (mkShared (mean_query_len s) (extent s)
                                        (n_writers s) (gc_count s)
                                        errors warnings))
                           None)
                  | None =>
                      let s := pgss w3 in
                      (startup_returns,
                       set_pgss w3
                         (mkShared (mean_query_len s) (extent s) (n_writers s)
                                   (gc_count s) 0 0))
                  end
              | (load_out_of_bounds, w3) => (startup_out_of_bounds, w3)
              | (ex, w3) => (startup_returns, startup_fail ex w3)
              end
        end.

(** [update_firewall_counter_file]; the flags are the results of
    [AllocateFile] and [rename]. *)
Definition update_firewall_counter_file (open_ok rename_ok : bool)
    (w : world) : world :=
  if negb open_ok then ereport_log w LOG_could_not_write_counter_file
  else
    let warnings := warning_count (pgss w) in
    let errors := error_count (pgss w) in
    if negb rename_ok then ereport_log w LOG_could_not_rename_counter_file
    else set_counter_file w (Some (warnings, errors)).

Definition pgss_shmem_shutdown (h : host) (cfg : config) (code : Z)
    (d : dump_io) (open_ok rename_ok : bool) (w : world) : world :=
  if negb (code =? 0) then w
  else if negb (loaded cfg) then w
  else if negb pgss_save then w
  else
    let w1 := update_firewall_rule_file h d w in
    let w2 := update_firewall_counter_file open_ok rename_ok w1 in
    ereport_log (set_qtext_file w2 None) LOG_stat_file_updated.

(** ** The SQL-callable functions *)

Definition sql_firewall_reset (h : host) (cfg : config)
    (open_ok truncate_ok : bool) (d : dump_io) (w : world)
    : outcome unit * world :=
  if negb (superuser cfg) then (Ereport ERR_must_be_superuser, w)
  else if negb (bool_decide (pgfw_mode cfg = PGFW_MODE_DISABLED))
  then (Ereport ERR_only_under_disable_mode, w)
  else if negb (loaded cfg) then (Ereport ERR_not_loaded, w)
  else
    (Return tt,
     update_firewall_rule_file h d (entry_reset open_ok truncate_ok w)).

Definition sql_firewall_add_rule (h : host) (cfg : config) (io : store_io)
    (username query_string rule_type_name : list byte) (w : world)
    : outcome bool * world :=
  let rule_type := rule_typeid rule_type_name in
  if negb (loaded cfg) then (Ereport ERR_not_loaded, w)
  else if negb (superuser cfg) then (Ereport ERR_must_be_superuser, w)
  else if negb (bool_decide (pgfw_mode cfg = PGFW_MODE_DISABLED))
  then (Ereport ERR_only_under_disable_mode, w)
  else if rule_type =? PGFW_DUMMY_ENTRY then (Ereport ERR_bad_rule_type, w)
  else
    call ret / w1 :=
      add_rule h cfg io username query_string rule_type w in
    (Return true, w1).

Definition sql_firewall_del_rule (h : host) (cfg : config)
    (username query_string rule_type_name : list byte) (w : world)
    : outcome bool * world :=
  let rule_type := rule_typeid rule_type_name in
  if negb (loaded cfg) then (Ereport ERR_not_loaded, w)
  else if negb (superuser cfg) then (Ereport ERR_must_be_superuser, w)
  else if negb (bool_decide (pgfw_mode cfg = PGFW_MODE_DISABLED))
  then (Ereport ERR_only_under_disable_mode, w)
  else
    call ret / w1 :=
      del_rule h username query_string rule_type w in
    (Return true, w1).

(** *** Export *)

Record export_io := mkExportIo {
  x_load : load_io;
  x_open_ok : bool;
  x_close_ok : bool
}.

Definition strchr (s : list byte) (c : byte) : bool :=
  bool_decide (c ∈ s).

(** The query text as it is written between the commas. *)
Definition csv_quote (qstr : list byte) : list byte :=
  let need_quote :=
    strchr qstr x0a || strchr qstr x0d || strchr qstr ","%byte
    || strchr qstr x22 in
  let quote := if need_quote then [x22] else [] in
  quote
  ++ flat_map (fun c => if decide (c = x22) then [x22; c] else [c]) qstr
  ++ quote.

(** The loop over the entries: the rows written, and how the loop ended.
    A text that was found is passed to [pg_any_to_server], whose result
    is dropped and whose error ends the export. *)
Fixpoint export_loop (h : host) (qbuffer : option (list byte))
    (qbuffer_size : Z) (l : list (pgssHashKey * pgssEntry))
    : list csv_row * outcome unit :=
  match l with
  | [] => ([], Return tt)
  | (k, e) :: l' =>
      let tmp := counters e in
      match qtext_fetch (query_offset e) (query_len e) qbuffer qbuffer_size with
      | FetchNull => ([], NullDeref)           (* strchr(NULL, ...) *)
      | FetchOutOfBounds => ([], OutOfBounds)
      | FetchPtr off =>
          match pg_any_to_server h
                  (bytes_at (default [] qbuffer) off (query_len e))
                  (query_len e) (encoding e) with
          | ConvError => ([], Ereport ERR_encoding_conversion)
          | _ =>
              match c_string_at (default [] qbuffer) off with
              | None => ([], OutOfBounds)
              | Some qstr =>
                  let row := mkCsvRow (to_int (userid k)) (queryid k)
                                      (csv_quote qstr) (calls tmp) (banned tmp)
                                      (entry_type e mod 256) in
                  let '(rows, r) := export_loop h qbuffer qbuffer_size l' in
                  (row :: rows, r)
              end
          end
      end
  end.

Definition sql_firewall_export_rule (h : host) (cfg : config) (x : export_io)
    (w : world) : outcome bool * world :=
  if negb (loaded cfg) then (Ereport ERR_not_loaded, w)
  else if negb (superuser cfg) then (Ereport ERR_must_be_superuser, w)
  else if negb (bool_decide (pgfw_mode cfg = PGFW_MODE_DISABLED))
  then (Ereport ERR_only_under_disable_mode, w)
  else
    let '(qbuffer, w1) := qtext_load_file (x_load x) w in
    let qbuffer_size := match qbuffer with
                        | Some b => Z.of_nat (length b)
                        | None => 0
                        end in
    if negb (x_open_ok x) then (Ereport ERR_could_not_open_file, w1)
    else
      let '(rows, r) :=
        export_loop h qbuffer qbuffer_size (hash_seq (pgss_hash w1)) in
      call _ / w2 :=
        (r, set_export_file w1 (Some rows)) in
      if negb (x_close_ok x) then (Ereport ERR_could_not_close_file, w2)
      else (Return true, w2).

(** *** Import *)

(** One complete CSV record as [parse_csv_values] delivers it. *)
Record csv_values := mkCsvValues {
  values0 : list byte;
  values1 : option (list byte);
  values2 : list byte;
  values3 : list byte;
  values4 : list byte;
  values5 : list byte
}.

Record import_io := mkImportIo {
  i_stat_ok : bool;
  i_is_regular : bool;
  i_open_ok : bool;
  i_close_ok : bool;
  i_dump : dump_io
}.

(** [(unsigned char) c] as a byte is read back as the C [char]. *)
Definition char_of_byte (b : byte) : Z :=
  to_char (Z.of_N (Byte.to_N b)).

Definition import_record (h : host) (cfg : config) (io : store_io)
    (v : csv_values) (w : world) : outcome bool * world :=
  let no_queryid := match values1 v with
                    | None => true
                    | Some s => strlen s =? 0
                    end in
  let qid :=
    if no_queryid then sql_firewall_queryid h (values2 v) true
    else Return (to_uint32 (atol h (default [] (values1 v))), None) in
  call (queryid, normalized_query) / w1 :=
    (qid, w) in
  let query := match normalized_query with
               | Some n => n
               | None => values2 v
               end in
  pgss_restore cfg io
    (to_uint32 (to_int (atol h (values0 v))))
    queryid query
    (to_int64 (atol h (values3 v)))
    (to_int64 (atol h (values4 v)))
    (to_uint32 (char_of_byte (nth 0 (values5 v) x00)))
    w1.

(** The loop over the complete records of the file, each with the system
    calls of its [pgss_restore]; [ret] is the result of the last one. *)
Fixpoint import_loop (h : host) (cfg : config)
    (l : list (csv_values * store_io)) (ret : bool) (w : world)
    : outcome bool * world :=
  match l with
  | [] => (Return ret, w)
  | (v, io) :: l' =>
      call ret' / w1 :=
        import_record h cfg io v w in
      import_loop h cfg l' ret' w1
  end.

Definition sql_firewall_import_rule (h : host) (cfg : config) (i : import_io)
    (lines : list (csv_values * store_io)) (w : world)
    : outcome bool * world :=
  if negb (loaded cfg) then (Ereport ERR_not_loaded, w)
  else if negb (superuser cfg) then (Ereport ERR_must_be_superuser, w)
  else if negb (bool_decide (pgfw_mode cfg = PGFW_MODE_DISABLED))
  then (Ereport ERR_only_under_disable_mode, w)
  else if negb (i_stat_ok i) then (Ereport ERR_could_not_stat_file, w)
  else if negb (i_is_regular i) then (Ereport ERR_not_a_regular_file, w)
  else if negb (i_open_ok i) then (Ereport ERR_could_not_open_file, w)
  else
    call ret / w1 :=
      import_loop h cfg lines false w in
    if negb (i_close_ok i) then (Ereport ERR_could_not_close_file, w1)
    else (Return ret, update_firewall_rule_file h (i_dump i) w1).

(** ** Specification-level definitions *)

(** A text reference [(query_offset, query_len)] that the specification
    calls invalid for a buffer: no buffer, a negative length, an end
    outside the buffer, or no terminator at the end. *)
Definition text_ref_invalid (query_offset query_len : Z)
    (buffer : option (list byte)) (buffer_size : Z) : Prop :=
  match buffer with
  | None => True
  | Some buf =>
      query_len < 0 \/ buffer_size <= query_offset + query_len
      \/ buf !! Z.to_nat (query_offset + query_len) <> Some x00
  end.

(** Constant spans as the specification wants them for normalisation:
    going through the list, every resolved span (length not negative)
    starts at or after [pos], the end of the one before it, and the last
    one ends inside a text of [text_len] bytes. *)
Fixpoint spans_ok (text_len pos : Z) (locs : list pgssLocationLen) : Prop :=
  match locs with
  | [] => pos <= text_len
  | l :: locs' =>
      if tok_length l <? 0 then spans_ok text_len pos locs'
      else pos <= location l
           /\ spans_ok text_len (location l + tok_length l) locs'
  end.

(** The normalised text in the words of the specification: every resolved
    span is replaced by one ['?'] and every byte outside the spans is kept. *)
Fixpoint replace_spans (text : list byte) (pos : Z)
    (locs : list pgssLocationLen) : list byte :=
  match locs with
  | [] => drop (Z.to_nat pos) text
  | l :: locs' =>
      if tok_length l <? 0 then replace_spans text pos locs'
      else take (Z.to_nat (location l - pos)) (drop (Z.to_nat pos) text)
           ++ ["?"%byte]
           ++ replace_spans text (location l + tok_length l) locs'
  end.

(** The result [r] of an administrative call on the state [w] is a
    rejection: the state is [w] still and the call left with one of the
    errors of the entry checks, which is the mode error when the module is
    loaded and the caller is a superuser. *)
Definition admin_rejected {A : Type} (cfg : config) (w : world)
    (r : outcome A * world) : Prop :=
  snd r = w
  /\ exists e,
       fst r = Ereport e
       /\ (e = ERR_not_loaded \/ e = ERR_must_be_superuser
           \/ e = ERR_only_under_disable_mode)
       /\ (loaded cfg = true -> superuser cfg = true ->
           e = ERR_only_under_disable_mode).

(** The call returned normally. *)
Definition returned {A : Type} (r : outcome A * world) : Prop :=
  exists a, fst r = Return a.

(** The [type] field of an entry agrees with the kind in its key, as
    [pgss_store] and [pgss_restore] leave it. *)
Definition entry_types_match (h : gmap pgssHashKey pgssEntry) : Prop :=
  forall k e, h !! k = Some e -> entry_type e = type k.

(** [calls++] and [banned++] on the entry under a key. *)
Definition incr_calls (e : pgssEntry) : pgssEntry :=
  set_counters e (mkCounters (to_int64 (calls (counters e) + 1))
                             (banned (counters e))).
Definition incr_banned (e : pgssEntry) : pgssEntry :=
  set_counters e (mkCounters (calls (counters e))
                             (to_int64 (banned (counters e) + 1))).

(** What a rule says apart from its text reference: counters, encoding
    and type of every entry. *)
Definition rule_view (e : pgssEntry) : Counters * Z * Z :=
  (counters e, encoding e, entry_type e).

Definition rules_of (w : world) : gmap pgssHashKey (Counters * Z * Z) :=
  rule_view <$> pgss_hash w.

(** The text that the Learning branch of [pgss_store] stores, and its
    length: the normalised text when the caller passed the jumble state,
    the text as it is otherwise. *)
Definition learned_text (h : host) (query : list byte)
    (jstate : option (list pgssLocationLen)) : option (list byte * Z) :=
  match jstate with
  | Some clocations =>
      generate_normalized_query h clocations query
        (to_int (Z.of_nat (length query)))
  | None => Some (query, to_int (Z.of_nat (length query)))
  end.

(** What the loop of [generate_normalized_query] keeps true on spans that
    are not empty. *)
Definition norm_inv (text_len : Z) (st : norm_state) : Prop :=
  0 <= last_off st /\ 0 <= last_tok_len st
  /\ quer_loc st = last_off st + last_tok_len st
  /\ n_quer_loc st = Z.of_nat (length (norm_query st))
  /\ n_quer_loc st <= quer_loc st
  /\ quer_loc st <= text_len.

(** Position [p] of the text lies in no resolved span. *)
Definition outside_spans (p : Z) (locs : list pgssLocationLen) : Prop :=
  Forall (fun l => tok_length l < 0 \/ p < location l
                   \/ location l + tok_length l <= p) locs.

(** The bytes that normalisation has dropped before position [p]: every
    resolved span that ends at or before [p] has shrunk to one byte. *)
Fixpoint removed_before (p : Z) (locs : list pgssLocationLen) : Z :=
  match locs with
  | [] => 0
  | l :: locs' =>
      if tok_length l <? 0 then removed_before p locs'
      else (if location l + tok_length l <=? p then tok_length l - 1 else 0)
           + removed_before p locs'
  end.
(** ** Further specification-level definitions *)

(** The rule that applies to a user and a query for one rule kind: the
    rule of the user when there is one, the rule for all users
    ([InvalidOid]) otherwise. *)
Definition rule_for (h : gmap pgssHashKey pgssEntry)
    (userid queryid rule_type : Z) : option pgssHashKey :=
  match h !! mkKey userid queryid rule_type with
  | Some _ => Some (mkKey userid queryid rule_type)
  | None =>
      match h !! mkKey InvalidOid queryid rule_type with
      | Some _ => Some (mkKey InvalidOid queryid rule_type)
      | None => None
      end
  end.


(** A text reference that [qtext_fetch] accepts on the file [f] without
    wrapping: the text and its terminator lie in the file. *)
Definition text_ref_ok (f : list byte) (off len : Z) : Prop :=
  0 <= off /\ 0 <= len < INT_MAX
  /\ off + len < Z.of_nat (length f)
  /\ f !! Z.to_nat (off + len) = Some x00.

(** The stored text of an entry, terminator included. *)
Definition entry_text (f : list byte) (e : pgssEntry) : list byte :=
  text_bytes f (query_offset e) (query_len e).

(** Every entry of the table refers to a text of the query-text file that
    lies below [extent], where the next text will be written. *)
Definition texts_valid (w : world) : Prop :=
  exists f,
    qtext_file w = Some f
    /\ Z.of_nat (length f) < Size_max
    /\ 0 <= extent (pgss w)
    /\ forall k e,
         pgss_hash w !! k = Some e ->
         text_ref_ok f (query_offset e) (query_len e)
         /\ query_offset e + query_len e < extent (pgss w).

(** The texts of the rules, by key. *)
Definition texts_of (w : world) : gmap pgssHashKey (list byte) :=
  entry_text (default [] (qtext_file w)) <$> pgss_hash w.

(** The system calls of a garbage collection all succeed, the truncation
    apart, whose failure is only logged. *)
Definition gc_io_ok (g : gc_io) : Prop :=
  gc_load g = LoadOk /\ gc_open_ok g = true /\ gc_fwrite_fail g = None
  /\ gc_close_ok g = true.

(** The row that [sql_firewall_export_rule] writes for an entry whose text
    is in the file [f]. *)
Definition export_row (f : list byte) (ke : pgssHashKey * pgssEntry)
    : csv_row :=
  let '(k, e) := ke in
  mkCsvRow (to_int (userid k)) (queryid k)
           (csv_quote (default [] (c_string_at f (query_offset e))))
           (calls (counters e)) (banned (counters e))
           (entry_type e mod 256).

(** [pg_any_to_server] accepts the text of the entry in the file [f]. *)
Definition text_converts (h : host) (f : list byte) (e : pgssEntry) : Prop :=
  pg_any_to_server h (bytes_at f (query_offset e) (query_len e))
                   (query_len e) (encoding e)
  <> ConvError.

(** The record that [update_firewall_rule_file] writes for an entry whose
    text is in the file [f]: the image of the entry and the text with its
    terminator. *)
Definition dump_record (f : list byte) (ke : pgssHashKey * pgssEntry)
    : stat_record :=
  mkStatRecord (fst ke) (snd ke) (entry_text f (snd ke)).

(** All system calls of a dump, and all of a startup in a fresh shared
    memory segment, succeed. *)
Definition dump_io_ok (d : dump_io) : Prop :=
  d_open_ok d = true /\ d_header_ok d = true /\ d_load d = LoadOk
  /\ d_fwrite_fail d = None /\ d_close_ok d = true /\ d_rename_ok d = true.

Definition startup_io_ok (io : startup_io) : Prop :=
  s_found io = false /\ s_qfile_open_ok io = true /\ s_file_open_ok io = true
  /\ s_fwrite_fail io = None /\ s_counter_open_ok io = true
  /\ s_counter_scan_ok io = true.

(** What persists of a rule across a restart: counters, length of the
    text and encoding. *)
Definition saved_view (e : pgssEntry) : Counters * Z * Z :=
  (counters e, query_len e, encoding e).

(** ** Reading a rule file: [parse_csv_values] *)

Inductive csv_mode :=
| CSV_DEFAULT
| CSV_SEPARATOR
| CSV_NON_QUOTED
| CSV_QUOTED.

(** The variables of the scanning loop: [mode], the [len] bytes written
    to [buf2], [off], and the fields stored so far, which are
    [values[0]] to [values[cols - 2]]. *)
Record csv_state := mkCsv {
  csv_mode_of : csv_mode;
  csv_buf2 : list byte;
  csv_off : Z;
  csv_fields : list (list byte)
}.

Definition SQL_FIREWALL_CSV_COLS : Z := 6.

(** The end of a field at index [i]: [values[cols - 1]] gets a copy of
    [buf2].  [nvalues] is the number of elements of the array that the
    caller passed as [values]. *)
Definition csv_field_end (nvalues i : Z) (st : csv_state) (mode : csv_mode)
    : outcome csv_state :=
  if Z.of_nat (length (csv_fields st)) <? nvalues
  then Return (mkCsv mode [] (to_int (i + 1))
                     (csv_fields st ++ [csv_buf2 st]))
  else OutOfBounds.

(** The [for] loop over [buf[i]], [buf[i + 1]], ... *)
Fixpoint csv_loop (nvalues : Z) (buf : list byte) (i : Z) (st : csv_state)
    : outcome csv_state :=
  match buf with
  | [] => Return st
  | c :: rest =>
      let append (c : byte) :=
        mkCsv (csv_mode_of st) (csv_buf2 st ++ [c]) (csv_off st)
              (csv_fields st) in
      if Byte.eqb c x22 then
        match csv_mode_of st with
        | CSV_DEFAULT | CSV_SEPARATOR =>
            csv_loop nvalues rest (to_int (i + 1))
              (mkCsv CSV_QUOTED (csv_buf2 st) (to_int (csv_off st + 1))
                     (csv_fields st))
        | CSV_NON_QUOTED =>
            csv_loop nvalues rest (to_int (i + 1)) (append c)
        | CSV_QUOTED =>
            match rest with
            | c' :: rest' =>
                if Byte.eqb c' x22
                then csv_loop nvalues rest' (to_int (to_int (i + 1) + 1))
                              (append c')
                else
                  match csv_field_end nvalues i st CSV_DEFAULT with
                  | Return st' => csv_loop nvalues rest (to_int (i + 1)) st'
                  | r => r
                  end
            | [] =>
                match csv_field_end nvalues i st CSV_DEFAULT with
                | Return st' => csv_loop nvalues rest (to_int (i + 1)) st'
                | r => r
                end
            end
        end
      else if Byte.eqb c x0a || Byte.eqb c ","%byte then
        match csv_mode_of st with
        | CSV_DEFAULT => csv_loop nvalues rest (to_int (i + 1)) st
        | CSV_SEPARATOR | CSV_NON_QUOTED =>
            match csv_field_end nvalues i st CSV_SEPARATOR with
            | Return st' => csv_loop nvalues rest (to_int (i + 1)) st'
            | r => r
            end
        | CSV_QUOTED => csv_loop nvalues rest (to_int (i + 1)) (append c)
        end
      else
        match csv_mode_of st with
        | CSV_DEFAULT | CSV_SEPARATOR =>
            csv_loop nvalues rest (to_int (i + 1))
              (mkCsv CSV_NON_QUOTED (csv_buf2 st ++ [c]) i (csv_fields st))
        | _ => csv_loop nvalues rest (to_int (i + 1)) (append c)
        end
  end.

(** [parse_csv_values]: the fields stored in [values]; the return value
    is their number.  The loop runs over the [strlen(buf)] bytes before
    the terminator. *)
Definition parse_csv_values (nvalues : Z) (buf : list byte)
    : outcome (list (list byte)) :=
  let buflen := to_int (strlen buf) in
  match csv_loop nvalues (take (Z.to_nat buflen) buf) 0
                 (mkCsv CSV_DEFAULT [] 0 []) with
  | Return st =>
      if (0 <? Z.of_nat (length (csv_buf2 st))) && (0 <? csv_off st)
      then match csv_field_end nvalues 0 st CSV_DEFAULT with
           | Return st' => Return (csv_fields st')
           | Ereport e => Ereport e
           | NullDeref => NullDeref
           | OutOfBounds => OutOfBounds
           end
      else Return (csv_fields st)
  | Ereport e => Ereport e
  | NullDeref => NullDeref
  | OutOfBounds => OutOfBounds
  end.

(** The line that [sql_firewall_export_rule] writes for a rule, given the
    text that [fprintf] produces for each number and for the type
    character: the fields, the query text quoted as needed, and a
    newline. *)
Definition csv_line (userid queryid query calls banned rule_type : list byte)
    : list byte :=
  userid ++ [","%byte] ++ queryid ++ [","%byte] ++ csv_quote query
  ++ [","%byte] ++ calls ++ [","%byte] ++ banned ++ [","%byte] ++ rule_type
  ++ [x0a].

(** A field that needs no quoting: not empty, and without quote, comma,
    newline and NUL. *)
Definition csv_plain (s : list byte) : Prop :=
  s <> []
  /\ Forall (fun c => c <> x22 /\ c <> ","%byte /\ c <> x0a /\ c <> x00) s.

(** The bytes of a query text as the export loop writes them: a quote
    before every quote. *)
Definition csv_escape (qstr : list byte) : list byte :=
  flat_map (fun c => if decide (c = x22) then [x22; c] else [c]) qstr.

(** A line of fields that need no quoting, each with the separator that
    follows it. *)
Definition csv_fields_line (fs : list (list byte * byte)) : list byte :=
  flat_map (fun fs => fst fs ++ [snd fs]) fs.

(** ** The view [sql_firewall_statements] and the counters *)

(** [rule_typename]: the argument is a C [char]. *)
Definition rule_typename (rule_type : Z) : list byte :=
  if rule_type =? PGFW_DUMMY_ENTRY then ["d"; "u"; "m"; "m"; "y"]%byte
  else if rule_type =? PGFW_WHITELIST_ENTRY
  then ["w"; "h"; "i"; "t"; "e"; "l"; "i"; "s"; "t"]%byte
  else if rule_type =? PGFW_BLACKLIST_ENTRY
  then ["b"; "l"; "a"; "c"; "k"; "l"; "i"; "s"; "t"]%byte
  else ["u"; "n"; "k"; "n"; "o"; "w"; "n"]%byte.

(** One row of the view; a SQL NULL is [None]. *)
Record view_row := mkViewRow {
  v_userid : Z;
  v_queryid : option Z;
  v_query : option (list byte);
  v_calls : Z;
  v_banned : Z;
  v_type : list byte
}.

Definition insufficient_privilege : list byte :=
  ["<"; "i"; "n"; "s"; "u"; "f"; "f"; "i"; "c"; "i"; "e"; "n"; "t"; " ";
   "p"; "r"; "i"; "v"; "i"; "l"; "e"; "g"; "e"; ">"]%byte.

(** How the function was called: whether the caller passed a
    [ReturnSetInfo], whether it allows a materialised result, and whether
    the declared result is a row type. *)
Record view_call := mkViewCall {
  rsinfo_ok : bool;
  materialize_ok : bool;
  row_type_ok : bool
}.

(** How the function ends: with the rows of the result, with one of its
    own errors, with the error of the conversion of a text, or with a
    read outside the buffer. *)
Inductive view_result :=
| ViewRows (rows : list view_row)
| View_not_loaded
| View_no_set_context
| View_materialize_required
| View_not_a_row_type
| View_conversion_error
| ViewOutOfBounds.

(** The query id and the query text of a row. *)
Inductive view_cols :=
| ViewCols (queryid : option Z) (text : option (list byte))
| ViewColsConversionError
| ViewColsOutOfBounds.

Definition view_text (h : host) (showtext : bool)
    (qbuffer : option (list byte)) (qbuffer_size : Z)
    (k : pgssHashKey) (e : pgssEntry) (permitted : bool) : view_cols :=
  let queryid := to_int64 (queryid k) in
  if permitted then
    if showtext then
      match qtext_fetch (query_offset e) (query_len e)
                        qbuffer qbuffer_size with
      | FetchPtr off =>
          match pg_any_to_server h
                  (bytes_at (default [] qbuffer) off (query_len e))
                  (query_len e) (encoding e) with
          | ConvError => ViewColsConversionError
          | ConvSame =>
              match c_string_at (default [] qbuffer) off with
              | Some qstr => ViewCols (Some queryid) (Some qstr)
              | None => ViewColsOutOfBounds
              end
          | ConvCopy enc => ViewCols (Some queryid) (Some enc)
          end
      | FetchNull => ViewCols (Some queryid) None
      | FetchOutOfBounds => ViewColsOutOfBounds
      end
    else ViewCols (Some queryid) None
  else
    ViewCols None (if showtext then Some insufficient_privilege else None).

(** The loop over the entries.  A text that is shown goes through
    [pg_any_to_server] of the host, from the encoding of the entry to the
    one of the server. *)
Fixpoint view_loop (h : host) (cfg : config) (showtext : bool)
    (qbuffer : option (list byte)) (qbuffer_size : Z)
    (l : list (pgssHashKey * pgssEntry)) : view_result :=
  match l with
  | [] => ViewRows []
  | (k, e) :: l' =>
      match view_text h showtext qbuffer qbuffer_size k e
                      (superuser cfg || (userid k =? GetUserId cfg)) with
      | ViewColsConversionError => View_conversion_error
      | ViewColsOutOfBounds => ViewOutOfBounds
      | ViewCols qid text =>
          match view_loop h cfg showtext qbuffer qbuffer_size l' with
          | ViewRows rows =>
              ViewRows (mkViewRow (userid k) qid text (calls (counters e))
                                  (banned (counters e))
                                  (rule_typename (to_char (entry_type e)))
                        :: rows)
          | r => r
          end
      end
  end.

(** [pg_stat_statements_internal].  [ld1] is the load of the text file
    before the lock is taken, [ld2] the one under the lock. *)
Definition pg_stat_statements_internal (h : host) (cfg : config)
    (ctx : view_call) (ld1 ld2 : load_io) (showtext : bool) (w : world)
    : view_result * world :=
  if negb (loaded cfg) then (View_not_loaded, w)
  else if negb (rsinfo_ok ctx) then (View_no_set_context, w)
  else if negb (materialize_ok ctx) then (View_materialize_required, w)
  else if negb (row_type_ok ctx) then (View_not_a_row_type, w)
  else
    let extent0 := extent (pgss w) in
    let gc_count0 := gc_count (pgss w) in
    let '(qbuffer, w1) :=
      if showtext && (n_writers (pgss w) =? 0)
      then qtext_load_file ld1 w
      else (None, w) in
    let '(qbuffer, w2) :=
      if showtext
         && (bool_decide (qbuffer = None)
             || negb (extent (pgss w1) =? extent0)
             || negb (gc_count (pgss w1) =? gc_count0))
      then qtext_load_file ld2 w1
      else (qbuffer, w1) in
    let qbuffer_size := match qbuffer with
                        | Some b => Z.of_nat (length b)
                        | None => 0
                        end in
    (view_loop h cfg showtext qbuffer qbuffer_size (hash_seq (pgss_hash w2)),
     w2).

Definition sql_firewall_statements := pg_stat_statements_internal.

(** The three functions on the global counters dereference [pgss]
    without a check. *)
Definition sql_firewall_stat_warning_count (cfg : config) (w : world)
    : outcome Z :=
  if negb (loaded cfg) then NullDeref else Return (warning_count (pgss w)).

Definition sql_firewall_stat_error_count (cfg : config) (w : world)
    : outcome Z :=
  if negb (loaded cfg) then NullDeref else Return (error_count (pgss w)).

Definition sql_firewall_stat_reset (cfg : config) (w : world)
    : outcome unit * world :=
  if negb (loaded cfg) then (NullDeref, w)
  else
    let s := pgss w in
    (Return tt,
     set_pgss w (mkShared (mean_query_len s) (extent s) (n_writers s)
                          (gc_count s) 0 0)).

(** The row of an entry when its text cannot be shown. *)
Definition view_row_without_text (cfg : config) (showtext : bool)
    (ke : pgssHashKey * pgssEntry) : view_row :=
  let '(k, e) := ke in
  let permitted := superuser cfg || (userid k =? GetUserId cfg) in
  mkViewRow (userid k)
            (if permitted then Some (to_int64 (queryid k)) else None)
            (if permitted then None
             else if showtext then Some insufficient_privilege else None)
            (calls (counters e)) (banned (counters e))
            (rule_typename (to_char (entry_type e))).

(** ** Constant locations: [RecordConstLocation] *)

(** The array [jstate->clocations] with one more location; the enlarging
    of the array does not show. *)
Definition RecordConstLocation (clocations : list pgssLocationLen)
    (location : Z) : list pgssLocationLen :=
  if 0 <=? location then clocations ++ [mkLoc location (-1)]
  else clocations.

(** The tokens that the scanner delivers for a text of [text_len] bytes,
    from position [pos] on: in the order of the text, none of them empty,
    all inside the text. *)
Fixpoint tokens_ok (text_len pos : Z) (toks : list token) : Prop :=
  match toks with
  | [] => True
  | t :: toks' =>
      pos <= yylloc t /\ yylloc t < yyend t /\ yyend t <= text_len
      /\ tokens_ok text_len (yyend t) toks'
  end.

(** The locations of the constants that got a length. *)
Definition resolved_locations (locs : list pgssLocationLen) : list Z :=
  location <$> filter (fun l => 0 <= tok_length l) locs.

(** Neighbours of a list are related by [R]. *)
Fixpoint ordered (R : Z -> Z -> Prop) (l : list Z) : Prop :=
  match l with
  | [] => True
  | x :: l' =>
      match l' with
      | [] => True
      | y :: _ => R x y
      end /\ ordered R l'
  end.

(** ** Example data *)

Definition example_host : host :=
  mkHost (fun _ => []) (fun _ => Return (42, [])) (fun _ => 10) (fun _ => 0)
         90400 (fun e => (0 <=? e) && (e <? 35))
         (fun _ _ _ => ConvSame) (fun _ => 77).

Definition example_config (mode : PGFWMode) (engine : PGFWEngineType)
    (max : Z) : config :=
  mkConfig true mode engine max true 10 6.

Definition all_ok_gc : gc_io := mkGcIo LoadOk true None true true None.
Definition all_ok_io : store_io := mkStoreIo WriteOk WriteOk all_ok_gc 0.
Definition all_ok_dump : dump_io := mkDumpIo true true LoadOk None true true.
Definition all_ok_startup : startup_io :=
  mkStartupIo false true true None true true 0.

Definition empty_world : world :=
  mkWorld (mkShared ASSUMED_LENGTH_INIT 0 0 0 0 0) ∅ (Some []) None None None [].

Definition select_text : list byte :=
  ["s"; "e"; "l"; "e"; "c"; "t"; " "; "?"]%byte.

(** User 10 has a whitelist rule and a blacklist rule for query 42, both
    added in Disabled mode. *)
Definition world_with_rules : world :=
  let cfg := example_config PGFW_MODE_DISABLED PGFW_ENGINE_HYBRID 100 in
  let w1 := snd (pgss_restore cfg all_ok_io 10 42 select_text 0 0
                              PGFW_WHITELIST_ENTRY empty_world) in
  snd (pgss_restore cfg all_ok_io 10 42 select_text 0 0
                    PGFW_BLACKLIST_ENTRY w1).

(** The server is shut down and started again. *)
Definition world_after_restart : world :=
  let cfg := example_config PGFW_MODE_DISABLED PGFW_ENGINE_HYBRID 100 in
  snd (pgss_shmem_startup example_host cfg all_ok_startup
         (pgss_shmem_shutdown example_host cfg 0 all_ok_dump true true
                              world_with_rules)).

(** Learning mode, one hundred statements with query ids 0 to 99 executed
    by user 10: the table is full for [sql_firewall.max = 100]. *)
Definition full_world : world :=
  foldl (fun w i =>
           snd (pgss_store example_host
                  (example_config PGFW_MODE_LEARNING PGFW_ENGINE_HYBRID 100)
                  all_ok_io select_text (Z.of_nat i) None w))
        empty_world (seq 0 100).

(** A rule with a text of 204800 bytes is added in Disabled mode.  The
    file then exceeds what [need_gc_qtexts] tolerates for
    [sql_firewall.max = 100], [pgss_restore] collects garbage, and closing
    the rewritten file fails: the entry is left with offset 0 and length
    -1. *)
Definition long_text : list byte := replicate (Z.to_nat 204800) "x"%byte.

Definition world_after_failed_gc : world :=
  snd (pgss_restore (example_config PGFW_MODE_DISABLED PGFW_ENGINE_HYBRID 100)
         (mkStoreIo WriteOk WriteOk
                    (mkGcIo LoadOk true None true false (Some [])) 0)
         10 42 long_text 0 0 PGFW_WHITELIST_ENTRY empty_world).

(** A rule with a text of 204800 bytes is in the table and its text in
    the file: [need_gc_qtexts] holds for [sql_firewall.max = 100].  (The
    garbage collection at the end of [pgss_restore] was skipped because
    the file could not be read.) *)
Definition world_needing_gc : world :=
  snd (pgss_restore (example_config PGFW_MODE_DISABLED PGFW_ENGINE_HYBRID 100)
         (mkStoreIo WriteOk WriteOk
                    (mkGcIo (LoadFails None) true None true true None) 0)
         10 42 long_text 0 0 PGFW_WHITELIST_ENTRY empty_world).

(** A statement of user 10 is denied in Enforcing mode on the table with
    the two rules: the error counter is 1. *)
Definition world_after_denial : world :=
  snd (pgss_store example_host
         (example_config PGFW_MODE_ENFORCING PGFW_ENGINE_HYBRID 100)
         all_ok_io select_text 42 None world_with_rules).

(** The fields of an exported line: user 10, query id 42, a query text
    with a comma, a quote and a newline, calls 0, banned 7, a whitelist
    rule. *)
Definition example_userid : list byte := ["1"; "0"]%byte.
Definition example_queryid : list byte := ["4"; "2"]%byte.
Definition example_query : list byte := ["a"; ","; x22; "b"; x0a; "c"]%byte.
Definition example_calls : list byte := ["0"]%byte.
Definition example_banned : list byte := ["7"]%byte.
Definition example_type : list byte := ["w"]%byte.

(** Seven fields on one line, and two lines of three fields each. *)
Definition seven_fields : list (list byte * byte) :=
  [ (["1"], ","); (["2"], ","); (["3"], ","); (["4"], ","); (["5"], ",");
    (["6"], ","); (["7"], x0a) ]%byte.

Definition two_short_lines : list (list byte * byte) :=
  [ (["1"], ","); (["2"], ","); (["3"], x0a);
    (["4"], ","); (["5"], ","); (["6"], x0a) ]%byte.

(** The session of user 11, who is not a superuser, and a call of the
    view that the executor can take a materialised row set from. *)
Definition example_user_config : config :=
  mkConfig true PGFW_MODE_ENFORCING PGFW_ENGINE_HYBRID 100 false 11 6.

Definition example_view_call : view_call := mkViewCall true true true.

(** A scanner for the text "a=12 or b=-3": eight tokens. *)
Definition example_query_text : list byte :=
  ["a"; "="; "1"; "2"; " "; "o"; "r"; " "; "b"; "="; "-"; "3"]%byte.

Definition example_scanner_host : host :=
  mkHost (fun _ => [mkToken 0 1; mkToken 1 2; mkToken 2 4; mkToken 5 7;
                    mkToken 8 9; mkToken 9 10; mkToken 10 11;
                    mkToken 11 12])
         (fun _ => Return (42, [])) (fun _ => 10) (fun _ => 0)
         90400 (fun e => (0 <=? e) && (e <? 35))
         (fun _ _ _ => ConvSame) (fun _ => 77).

(** Two records of an import file: one with a query id, one without, and
    the system calls of an import whose query-text file cannot be
    written. *)
Definition record_with_queryid : csv_values :=
  mkCsvValues ["1"; "0"]%byte (Some ["7"]%byte) select_text ["0"]%byte
              ["0"]%byte ["w"]%byte.

Definition record_without_queryid : csv_values :=
  mkCsvValues ["1"; "0"]%byte None select_text ["0"]%byte ["0"]%byte
              ["b"]%byte.

Definition failing_write_io : store_io :=
  mkStoreIo (WriteFails (Some [])) (WriteFails (Some [])) all_ok_gc 0.

Definition all_ok_import : import_io :=
  mkImportIo true true true true all_ok_dump.

(** A host where no role is known: every user name maps to
    [InvalidOid]. *)
Definition wildcard_host : host :=
  mkHost (fun _ => []) (fun _ => Return (42, [])) (fun _ => InvalidOid)
         (fun _ => 0) 90400 (fun e => (0 <=? e) && (e <? 35))
         (fun _ _ _ => ConvSame) (fun _ => 77).

(** A host whose conversion rejects every text. *)
Definition strict_host : host :=
  mkHost (fun _ => []) (fun _ => Return (42, [])) (fun _ => 10) (fun _ => 0)
         90400 (fun e => (0 <=? e) && (e <? 35))
         (fun _ _ _ => ConvError) (fun _ => 77).

(** The host of a session as far as a utility statement goes: the
    statements carried out so far, and a [standard_ProcessUtility] that
    carries out the next one. *)
Definition drop_table_text : list byte :=
  ["d"; "r"; "o"; "p"; " "; "t"; "a"; "b"; "l"; "e"; " "; "t"]%byte.

Definition carry_out (statement : list byte) (nested_level : Z)
    (sw : list (list byte) * world)
    : outcome unit * (list (list byte) * world) :=
  (Return tt, (fst sw ++ [statement], snd sw)).

(** * Theorems *)

(** ** Machine integers *)

Lemma to_Size_small (x : Z) : 0 <= x < Size_max -> to_Size x = x.
Proof. intros H. unfold to_Size. apply Z.mod_small. exact H. Qed.

Lemma to_int_small (x : Z) : - 2 ^ 31 <= x <= INT_MAX -> to_int x = x.
Proof.
  unfold to_int, INT_MAX. intros H.
  rewrite Z.mod_small by lia. lia.
Qed.

Lemma to_int64_small (x : Z) : - 2 ^ 63 <= x < 2 ^ 63 -> to_int64 x = x.
Proof.
  unfold to_int64. intros H.
  rewrite Z.mod_small by lia. lia.
Qed.

(** ** Query texts *)

Lemma byte_eqb_eq (a b : byte) : Byte.eqb a b = true <-> a = b.
Proof.
  split.
  - apply Byte.byte_dec_bl.
  - apply Byte.byte_dec_lb.
Qed.

Lemma byte_eqb_neq (a b : byte) : Byte.eqb a b = false <-> a <> b.
Proof.
  rewrite <- byte_eqb_eq. destruct (Byte.eqb a b); split; congruence.
Qed.

(** A NUL at index [n] ends the C string at or before [n]. *)
Lemma c_string_terminated (l : list byte) (n : nat) :
  l !! n = Some x00 ->
  exists s rest,
    c_string l = Some s /\ l = s ++ x00 :: rest /\ (x00 ∉ s)
    /\ (length s <= n)%nat.
Proof.
  revert n. induction l as [|c l IH]; intros n Hn.
  - rewrite lookup_nil in Hn. discriminate.
  - simpl. destruct (Byte.eqb c x00) eqn:Hc.
    + apply byte_eqb_eq in Hc. subst c.
      exists [], l. repeat split; simpl; try lia. apply not_elem_of_nil.
    + apply byte_eqb_neq in Hc. destruct n as [|n].
      * simpl in Hn. congruence.
      * simpl in Hn. destruct (IH n Hn) as (s & rest & Hs & Hl & Hnot & Hlen).
        exists (c :: s), rest. rewrite Hs. simpl. repeat split.
        -- congruence.
        -- intros Hin. apply elem_of_cons in Hin. destruct Hin; congruence.
        -- lia.
Qed.


(** Without the wrap the check does what the comment says: as long as
    [query_offset + query_len] does not exceed the range of [Size], and
    [buffer_size] is the size of the buffer, [qtext_fetch] returns NULL
    for every invalid text reference, never reads outside the buffer, and
    otherwise returns [buffer + query_offset], where a C string of at most
    [query_len] bytes ends inside the buffer. *)
Lemma qtext_fetch_checked (query_offset query_len : Z)
    (buffer : option (list byte)) (buffer_size : Z) :
  0 <= query_offset ->
  query_offset + query_len < Size_max ->
  (forall buf, buffer = Some buf -> buffer_size = Z.of_nat (length buf)) ->
  (text_ref_invalid query_offset query_len buffer buffer_size ->
   qtext_fetch query_offset query_len buffer buffer_size = FetchNull)
  /\ (~ text_ref_invalid query_offset query_len buffer buffer_size ->
      qtext_fetch query_offset query_len buffer buffer_size
      = FetchPtr query_offset
      /\ exists buf s rest,
           buffer = Some buf
           /\ c_string_at buf query_offset = Some s
           /\ drop (Z.to_nat query_offset) buf = s ++ x00 :: rest
           /\ (x00 ∉ s)
           /\ Z.of_nat (length s) <= query_len)
  /\ qtext_fetch query_offset query_len buffer buffer_size <> FetchOutOfBounds.
Proof.
  intros Hoff Hwrap Hsize.
  destruct buffer as [buf|]; unfold text_ref_invalid, qtext_fetch.
  2: { split; [reflexivity | split; [intros Hn; exfalso; apply Hn; exact I
                                    | discriminate]]. }
  specialize (Hsize buf eq_refl). subst buffer_size.
  destruct (Z.ltb_spec query_len 0) as [Hneg|Hlen]; cbn [orb].
  { split; [reflexivity | split; [|discriminate]].
    intros Hn. exfalso. apply Hn. left. exact Hneg. }
  rewrite to_Size_small by lia.
  destruct (Z.leb_spec (Z.of_nat (length buf)) (query_offset + query_len))
    as [Hout|Hin].
  { split; [reflexivity | split; [|discriminate]].
    intros Hn. exfalso. apply Hn. right. left. exact Hout. }
  destruct (buf !! Z.to_nat (query_offset + query_len)) as [c|] eqn:Hc.
  2: { apply lookup_ge_None in Hc. lia. }
  destruct (Byte.eqb c x00) eqn:Hnul.
  - apply byte_eqb_eq in Hnul. subst c.
    split; [|split; [|discriminate]].
    + intros [Hi|[Hi|Hi]]; [lia | lia | congruence].
    + intros _. split; [reflexivity|].
      assert (Hdrop : drop (Z.to_nat query_offset) buf !! Z.to_nat query_len
                      = Some x00).
      { rewrite lookup_drop. rewrite <- Hc. f_equal. lia. }
      destruct (c_string_terminated _ _ Hdrop) as (s & rest & Hs & Hl & Hnot & Hn).
      exists buf, s, rest.
      split; [reflexivity|]. split; [|split; [exact Hl|split; [exact Hnot|lia]]].
      unfold c_string_at.
      destruct (Z.leb_spec 0 query_offset); [|lia].
      destruct (Z.ltb_spec query_offset (Z.of_nat (length buf))); [|lia].
      exact Hs.
  - apply byte_eqb_neq in Hnul.
    split; [reflexivity | split; [|discriminate]].
    intros Hn. exfalso. apply Hn. right. right. congruence.
Qed.

Example qtext_fetch_checked_example :
  qtext_fetch 2 3 (Some ["a"; x00; "a"; "b"; "c"; x00; "z"]%byte) 7 = FetchPtr 2
  /\ qtext_fetch 2 2 (Some ["a"; x00; "a"; "b"; "c"; x00; "z"]%byte) 7 = FetchNull.
Proof.
  pose proof (qtext_fetch_checked 2 3
                (Some ["a"; x00; "a"; "b"; "c"; x00; "z"]%byte) 7) as H3.
  pose proof (qtext_fetch_checked 2 2
                (Some ["a"; x00; "a"; "b"; "c"; x00; "z"]%byte) 7) as H2.
  split.
  - apply H3.
    + lia.
    + unfold Size_max. lia.
    + intros buf Hb. injection Hb as <-. reflexivity.
    + unfold text_ref_invalid. intros [H|[H|H]]; [lia | lia |].
      apply H. reflexivity.
  - apply H2.
    + lia.
    + unfold Size_max. lia.
    + intros buf Hb. injection Hb as <-. reflexivity.
    + unfold text_ref_invalid. right. right. discriminate.
Qed.

(** ** Normalisation *)

Lemma spans_ok_le (text_len : Z) (locs : list pgssLocationLen) (pos : Z) :
  spans_ok text_len pos locs -> pos <= text_len.
Proof.
  revert pos. induction locs as [|l locs IH]; intros pos H; simpl in H.
  - exact H.
  - destruct (Z.ltb_spec (tok_length l) 0) as [Hneg|Hpos].
    + apply IH. exact H.
    + destruct H as [Hle Hrest]. apply IH in Hrest. lia.
Qed.

Lemma memcpy_query_inside (query : list byte) (from n : Z) :
  0 <= from -> 0 <= n -> from + n <= Z.of_nat (length query) ->
  memcpy_query query from n
  = Some (take (Z.to_nat n) (drop (Z.to_nat from) query))
  /\ Z.of_nat (length (take (Z.to_nat n) (drop (Z.to_nat from) query))) = n.
Proof.
  intros Hfrom Hn Hfit. unfold memcpy_query.
  destruct (Z.leb_spec 0 from); [|lia].
  destruct (Z.leb_spec 0 n); [|lia].
  destruct (Z.leb_spec (from + n) (Z.of_nat (length query) + 1)); [|lia].
  cbn [andb]. split.
  - f_equal. rewrite drop_app_le by lia.
    rewrite take_app_le; [reflexivity|]. rewrite length_drop. lia.
  - rewrite length_take, length_drop. lia.
Qed.

Lemma norm_loop_replaces (query : list byte) (locs : list pgssLocationLen) :
  Z.of_nat (length query) <= INT_MAX ->
  forall st,
    norm_inv (Z.of_nat (length query)) st ->
    spans_ok (Z.of_nat (length query)) (quer_loc st) locs ->
    Forall (fun l => tok_length l <> 0) locs ->
    exists st',
      norm_loop query (Z.of_nat (length query)) st locs = Some st'
      /\ norm_inv (Z.of_nat (length query)) st'
      /\ norm_query st' ++ drop (Z.to_nat (quer_loc st')) query
         = norm_query st ++ replace_spans query (quer_loc st) locs.
Proof.
  intros Hmax. induction locs as [|l locs IH]; intros st Hinv Hok Hnz.
  - exists st. simpl. auto.
  - simpl in Hok. simpl. unfold norm_step.
    apply Forall_cons in Hnz. destruct Hnz as [Hl Hnz].
    destruct (Z.ltb_spec (tok_length l) 0) as [Hneg|Hpos].
    + apply IH; assumption.
    + destruct Hok as [Hle Hrest].
      pose proof (spans_ok_le _ _ _ Hrest) as Hend.
      destruct Hinv as (Hlo & Hlt & Hq & Hn & Hnq & Hqlen).
      unfold INT_MAX in Hmax.
      assert (Hw : to_int (to_int (location l - last_off st) - last_tok_len st)
                   = location l - quer_loc st).
      { rewrite (to_int_small (location l - last_off st))
          by (unfold INT_MAX; lia).
        rewrite to_int_small by (unfold INT_MAX; lia). lia. }
      rewrite Hw.
      destruct (memcpy_query_inside query (quer_loc st)
                  (location l - quer_loc st)) as [Hcpy Hcl]; try lia.
      rewrite Hcpy.
      assert (Hroom : norm_room (Z.of_nat (length query)) (n_quer_loc st)
                                (location l - quer_loc st) = true).
      { unfold norm_room. apply andb_true_iff. split.
        - apply Z.leb_le. lia.
        - apply Z.ltb_lt. lia. }
      rewrite Hroom.
      set (chunk := take (Z.to_nat (location l - quer_loc st))
                         (drop (Z.to_nat (quer_loc st)) query)) in *.
      set (st1 := mkNorm (norm_query st ++ chunk ++ ["?"%byte])
                         (to_int (location l + tok_length l))
                         (to_int (to_int (n_quer_loc st
                                          + (location l - quer_loc st)) + 1))
                         (location l) (tok_length l)).
      assert (Hq1 : quer_loc st1 = location l + tok_length l).
      { unfold st1. cbn [quer_loc]. apply to_int_small. unfold INT_MAX. lia. }
      assert (Hn1 : n_quer_loc st1
                    = n_quer_loc st + (location l - quer_loc st) + 1).
      { unfold st1. cbn [n_quer_loc].
        rewrite (to_int_small (n_quer_loc st + _)) by (unfold INT_MAX; lia).
        apply to_int_small. unfold INT_MAX. lia. }
      destruct (IH st1) as (st' & Hloop & Hinv' & Heq).
      * unfold norm_inv. rewrite Hq1, Hn1. unfold st1 at 1 2 3 4 5.
        cbn [last_off last_tok_len norm_query].
        repeat split; try lia.
        rewrite !length_app. cbn [length]. lia.
      * rewrite Hq1. exact Hrest.
      * exact Hnz.
      * exists st'. split; [exact Hloop|]. split; [exact Hinv'|].
        rewrite Heq, Hq1. unfold st1. cbn [norm_query].
        rewrite <- !app_assoc. reflexivity.
Qed.

Lemma replace_spans_unresolved (query : list byte)
    (locs : list pgssLocationLen) :
  Forall (fun l => tok_length l < 0) locs -> replace_spans query 0 locs = query.
Proof.
  induction 1 as [|l locs Hl _ IH]; simpl.
  - reflexivity.
  - destruct (Z.ltb_spec (tok_length l) 0); [exact IH | lia].
Qed.

(** The loop and the final copy compute [replace_spans]. *)
Lemma substitute_constants_replaces (query : list byte)
    (locs : list pgssLocationLen) :
  Z.of_nat (length query) <= INT_MAX ->
  spans_ok (Z.of_nat (length query)) 0 locs ->
  Forall (fun l => tok_length l <> 0) locs ->
  substitute_constants query (Z.of_nat (length query)) locs
  = Some (replace_spans query 0 locs,
          Z.of_nat (length (replace_spans query 0 locs)))
  /\ (length (replace_spans query 0 locs) <= length query)%nat
  /\ (Forall (fun l => tok_length l < 0) locs ->
      replace_spans query 0 locs = query).
Proof.
  intros Hmax Hok Hnz.
  destruct (norm_loop_replaces query locs Hmax (mkNorm [] 0 0 0 0))
    as (st & Hloop & Hinv & Heq); try assumption.
  { unfold norm_inv. cbn. lia. }
  cbn [norm_query quer_loc app] in Heq.
  destruct Hinv as (Hlo & Hlt & Hq & Hn & Hnq & Hqlen).
  unfold INT_MAX in Hmax.
  assert (Hlen : (length (replace_spans query 0 locs) <= length query)%nat).
  { rewrite <- Heq, length_app, length_drop. lia. }
  split; [|split; [exact Hlen | apply replace_spans_unresolved]].
  unfold substitute_constants. rewrite Hloop.
  rewrite (to_int_small (Z.of_nat (length query) - quer_loc st))
    by (unfold INT_MAX; lia).
  destruct (memcpy_query_inside query (quer_loc st)
              (Z.of_nat (length query) - quer_loc st)) as [Hcpy Hcl]; try lia.
  rewrite Hcpy.
  assert (Hroom : norm_room (Z.of_nat (length query)) (n_quer_loc st)
                            (Z.of_nat (length query) - quer_loc st) = true).
  { unfold norm_room. apply andb_true_iff. split.
    - apply Z.leb_le. lia.
    - apply Z.ltb_lt. lia. }
  rewrite Hroom.
  assert (Htake : take (Z.to_nat (Z.of_nat (length query) - quer_loc st))
                       (drop (Z.to_nat (quer_loc st)) query)
                  = drop (Z.to_nat (quer_loc st)) query).
  { apply take_ge. rewrite length_drop. lia. }
  rewrite Htake, Heq. f_equal. f_equal.
  rewrite to_int_small.
  - rewrite <- Heq, length_app, length_drop. lia.
  - unfold INT_MAX. rewrite <- Heq, length_app, length_drop in Hlen. lia.
Qed.

(** The same for the whole function, with the spans that
    [fill_in_constant_lengths] computes from the scanner. *)
Corollary generate_normalized_query_replaces_spans (h : host)
    (clocations : list pgssLocationLen) (query : list byte) :
  Z.of_nat (length query) <= INT_MAX ->
  spans_ok (Z.of_nat (length query)) 0
           (fill_in_constant_lengths h clocations query) ->
  Forall (fun l => tok_length l <> 0)
         (fill_in_constant_lengths h clocations query) ->
  exists out,
    generate_normalized_query h clocations query (Z.of_nat (length query))
    = Some (out, Z.of_nat (length out))
    /\ out = replace_spans query 0 (fill_in_constant_lengths h clocations query)
    /\ (length out <= length query)%nat.
Proof.
  intros Hmax Hok Hnz.
  destruct (substitute_constants_replaces query _ Hmax Hok Hnz)
    as (Hs & Hlen & _).
  eexists. split; [exact Hs|]. split; [reflexivity | exact Hlen].
Qed.

Lemma removed_before_later (text_len : Z) (locs : list pgssLocationLen)
    (pos p : Z) :
  spans_ok text_len pos locs -> p < pos -> removed_before p locs = 0.
Proof.
  revert pos. induction locs as [|l locs IH]; intros pos Hok Hp; simpl.
  - reflexivity.
  - simpl in Hok. destruct (Z.ltb_spec (tok_length l) 0).
    + apply (IH pos); assumption.
    + destruct Hok as [Hle Hrest].
      destruct (Z.leb_spec (location l + tok_length l) p); [lia|].
      rewrite (IH (location l + tok_length l)); [reflexivity | exact Hrest | lia].
Qed.

Lemma removed_before_le (text_len : Z) (locs : list pgssLocationLen)
    (pos p : Z) :
  spans_ok text_len pos locs -> pos <= p -> removed_before p locs <= p - pos.
Proof.
  revert pos. induction locs as [|l locs IH]; intros pos Hok Hp; simpl.
  - lia.
  - simpl in Hok. destruct (Z.ltb_spec (tok_length l) 0).
    + apply IH; assumption.
    + destruct Hok as [Hle Hrest].
      destruct (Z.leb_spec (location l + tok_length l) p).
      * specialize (IH _ Hrest ltac:(lia)). lia.
      * rewrite (removed_before_later _ _ _ _ Hrest) by lia. lia.
Qed.

(** Every byte outside the spans is in the normalised text, moved left by
    what the spans before it have lost. *)
Lemma replace_spans_keeps_bytes (text : list byte)
    (locs : list pgssLocationLen) :
  forall pos p,
    0 <= pos ->
    spans_ok (Z.of_nat (length text)) pos locs ->
    pos <= p < Z.of_nat (length text) ->
    outside_spans p locs ->
    replace_spans text pos locs !! Z.to_nat (p - pos - removed_before p locs)
    = text !! Z.to_nat p.
Proof.
  induction locs as [|l locs IH]; intros pos p Hpos Hok Hp Hout; simpl.
  - rewrite lookup_drop. f_equal. lia.
  - simpl in Hok. apply Forall_cons in Hout. destruct Hout as [Hl Hout].
    destruct (Z.ltb_spec (tok_length l) 0) as [Hneg|Hres].
    + apply IH; assumption.
    + destruct Hok as [Hle Hrest].
      pose proof (spans_ok_le _ _ _ Hrest) as Hend.
      assert (Hlen : length (take (Z.to_nat (location l - pos))
                                  (drop (Z.to_nat pos) text))
                     = Z.to_nat (location l - pos)).
      { rewrite length_take, length_drop. lia. }
      destruct Hl as [Hl|[Hl|Hl]]; [lia| |].
      * destruct (Z.leb_spec (location l + tok_length l) p); [lia|].
        rewrite (removed_before_later _ _ _ _ Hrest) by lia.
        rewrite lookup_app_l by (rewrite Hlen; lia).
        rewrite lookup_take_lt by lia. rewrite lookup_drop. f_equal. lia.
      * destruct (Z.leb_spec (location l + tok_length l) p); [|lia].
        pose proof (removed_before_le _ _ _ p Hrest ltac:(lia)) as Hr.
        rewrite lookup_app_r by (rewrite Hlen; lia).
        rewrite Hlen.
        rewrite lookup_cons_ne_0 by lia.
        rewrite <- (IH (location l + tok_length l) p); try assumption; try lia.
        f_equal. lia.
Qed.

(** Every resolved span that is not empty has become one ['?']. *)
Lemma replace_spans_marks (text : list byte) (locs : list pgssLocationLen) :
  forall pos l,
    0 <= pos ->
    spans_ok (Z.of_nat (length text)) pos locs ->
    Forall (fun l => tok_length l <> 0) locs ->
    l ∈ locs -> 0 <= tok_length l ->
    replace_spans text pos locs
    !! Z.to_nat (location l - pos - removed_before (location l) locs)
    = Some "?"%byte.
Proof.
  induction locs as [|l0 locs IH]; intros pos l Hpos Hok Hnz Hin Hres; simpl.
  - apply elem_of_nil in Hin. contradiction.
  - simpl in Hok. apply Forall_cons in Hnz. destruct Hnz as [Hnz0 Hnz].
    apply elem_of_cons in Hin.
    destruct (Z.ltb_spec (tok_length l0) 0) as [Hneg|Hres0].
    + destruct Hin as [->|Hin]; [lia|]. apply IH; assumption.
    + destruct Hok as [Hle Hrest].
      pose proof (spans_ok_le _ _ _ Hrest) as Hend.
      assert (Hlen : length (take (Z.to_nat (location l0 - pos))
                                  (drop (Z.to_nat pos) text))
                     = Z.to_nat (location l0 - pos)).
      { rewrite length_take, length_drop. lia. }
      destruct Hin as [->|Hin].
      * destruct (Z.leb_spec (location l0 + tok_length l0) (location l0)); [lia|].
        rewrite (removed_before_later _ _ _ _ Hrest) by lia.
        rewrite lookup_app_r by (rewrite Hlen; lia).
        rewrite Hlen.
        replace (Z.to_nat (location l0 - pos - (0 + 0))
                 - Z.to_nat (location l0 - pos))%nat with 0%nat by lia.
        reflexivity.
      * assert (Hloc : location l0 + tok_length l0 <= location l).
        { clear IH Hlen. revert Hrest Hin Hres.
          generalize (location l0 + tok_length l0). clear.
          induction locs as [|l1 locs IH]; intros q Hok Hin Hres.
          - apply elem_of_nil in Hin. contradiction.
          - simpl in Hok. apply elem_of_cons in Hin.
            destruct (Z.ltb_spec (tok_length l1) 0).
            + destruct Hin as [->|Hin]; [lia|]. apply IH; assumption.
            + destruct Hok as [Hq Hrest]. destruct Hin as [->|Hin]; [lia|].
              specialize (IH _ Hrest Hin Hres). lia. }
        destruct (Z.leb_spec (location l0 + tok_length l0) (location l)); [|lia].
        pose proof (removed_before_le _ _ _ (location l) Hrest ltac:(lia)) as Hr.
        rewrite lookup_app_r by (rewrite Hlen; lia).
        rewrite Hlen.
        rewrite lookup_cons_ne_0 by lia.
        rewrite <- (IH (location l0 + tok_length l0) l); try assumption; try lia.
        f_equal. lia.
Qed.

(** ** The lengths of the constants *)

Lemma fill_lengths_locations (query : list byte)
    (locs : list pgssLocationLen) :
  forall (toks : list token) (last_loc : Z),
    location <$> fill_lengths query locs toks last_loc = location <$> locs.
Proof.
  induction locs as [|l locs IH]; intros toks last_loc; [reflexivity|].
  cbn [fill_lengths]. cbv zeta.
  destruct (location l <=? last_loc).
  - cbn [fmap list_fmap]. rewrite IH. reflexivity.
  - destruct (lex_until toks (location l)) as [[t rest]|]; [|reflexivity].
    destruct (Byte.eqb (char_at query (location l)) "-"%byte).
    + destruct rest as [|t' rest']; [reflexivity|].
      cbn [fmap list_fmap location]. rewrite IH. reflexivity.
    + cbn [fmap list_fmap location]. rewrite IH. reflexivity.
Qed.

Lemma qsort_insert_perm (a : pgssLocationLen) (l : list pgssLocationLen) :
  qsort_insert a l ≡ₚ a :: l.
Proof.
  induction l as [|b l IH]; [reflexivity|].
  cbn [qsort_insert]. destruct (comp_location a b <=? 0); [reflexivity|].
  rewrite IH. apply Permutation_swap.
Qed.

Lemma qsort_locations_perm (l : list pgssLocationLen) :
  qsort_locations l ≡ₚ l.
Proof.
  induction l as [|a l IH]; [reflexivity|].
  cbn [qsort_locations]. rewrite qsort_insert_perm, IH. reflexivity.
Qed.

Lemma comp_location_le (a b : pgssLocationLen) :
  comp_location a b <= 0 <-> location a <= location b.
Proof.
  unfold comp_location.
  destruct (Z.ltb_spec (location a) (location b));
    [|destruct (Z.ltb_spec (location b) (location a))]; lia.
Qed.

Lemma qsort_insert_sorted (a : pgssLocationLen) (l : list pgssLocationLen) :
  ordered Z.le (location <$> l) ->
  ordered Z.le (location <$> qsort_insert a l).
Proof.
  induction l as [|b l IH]; intros Hs.
  - cbn. auto.
  - cbn [qsort_insert].
    destruct (Z.leb_spec (comp_location a b) 0) as [Hle|Hgt].
    + apply comp_location_le in Hle.
      cbn [fmap list_fmap ordered] in *. auto.
    + assert (Hba : location b <= location a).
      { destruct (Z.le_gt_cases (location a) (location b)) as [H|H]; [|lia].
        apply comp_location_le in H. lia. }
      cbn [fmap list_fmap ordered] in Hs. destruct Hs as [Hhd Hs].
      specialize (IH Hs).
      destruct l as [|c l]; cbn [qsort_insert fmap list_fmap ordered] in *.
      * auto.
      * destruct (comp_location a c <=? 0);
          cbn [fmap list_fmap ordered] in *; auto.
Qed.

Lemma qsort_locations_sorted (l : list pgssLocationLen) :
  ordered Z.le (location <$> qsort_locations l).
Proof.
  induction l as [|a l IH]; [exact I|].
  cbn [qsort_locations]. apply qsort_insert_sorted. exact IH.
Qed.

Lemma strlen_app_nul (a b : list byte) :
  Forall (fun c => c <> x00) a ->
  strlen (a ++ x00 :: b) = Z.of_nat (length a).
Proof.
  induction 1 as [|c a Hc _ IH]; [reflexivity|].
  cbn [app strlen length]. apply byte_eqb_neq in Hc. rewrite Hc, IH. lia.
Qed.

(** With the terminator that flex has put after the token, the text of
    the constant runs from its location to the end of the token. *)
Lemma token_length_end (query : list byte) (t : token) (loc : Z) :
  Forall (fun c => c <> x00) query ->
  Z.of_nat (length query) <= INT_MAX ->
  0 <= loc -> loc <= yyend t -> yyend t <= Z.of_nat (length query) ->
  token_length query t loc = yyend t - loc.
Proof.
  intros Hnul Hmax Hloc Hle Hend. unfold token_length, scanbuf.
  rewrite insert_take_drop by (rewrite length_app; simpl; lia).
  rewrite take_app_le by lia.
  rewrite drop_app_le by (rewrite length_take; lia).
  rewrite strlen_app_nul.
  - rewrite length_drop, length_take.
    rewrite to_int_small by (unfold INT_MAX in *; lia). lia.
  - apply Forall_drop, Forall_take. exact Hnul.
Qed.

Lemma lex_until_ok (text_len : Z) (toks : list token) (loc : Z) :
  forall (pos : Z) (t : token) (rest : list token),
    tokens_ok text_len pos toks ->
    lex_until toks loc = Some (t, rest) ->
    loc <= yylloc t /\ yylloc t < yyend t /\ yyend t <= text_len
    /\ tokens_ok text_len (yyend t) rest.
Proof.
  induction toks as [|t0 toks IH]; intros pos t rest Hok Hlex;
    [discriminate|].
  cbn [lex_until] in Hlex. cbn [tokens_ok] in Hok.
  destruct Hok as (Hpos & Hne & Hend & Hrest).
  destruct (Z.leb_spec loc (yylloc t0)).
  - injection Hlex as <- <-. auto.
  - apply (IH (yyend t0)); assumption.
Qed.

Lemma ordered_cons (R : Z -> Z -> Prop) (x : Z) (l : list Z) :
  Forall (R x) l -> ordered R l -> ordered R (x :: l).
Proof.
  intros Hall Hl. cbn [ordered]. split; [|exact Hl].
  destruct l as [|y l]; [exact I|].
  apply Forall_cons in Hall as [Hy _]. exact Hy.
Qed.

Lemma resolved_locations_none (locs : list pgssLocationLen) :
  Forall (fun l => 0 <= location l /\ tok_length l = -1) locs ->
  resolved_locations locs = [].
Proof.
  unfold resolved_locations.
  induction 1 as [|l locs [_ Hl] _ IH]; [reflexivity|].
  rewrite filter_cons_False by lia. exact IH.
Qed.

Lemma resolved_locations_cons (l : pgssLocationLen)
    (locs : list pgssLocationLen) :
  0 <= tok_length l ->
  resolved_locations (l :: locs) = location l :: resolved_locations locs.
Proof.
  intros Hl. unfold resolved_locations.
  rewrite filter_cons_True by exact Hl. reflexivity.
Qed.

(** The loop of [fill_in_constant_lengths] on locations as
    [RecordConstLocation] leaves them and tokens as the scanner delivers
    them. *)
Lemma fill_lengths_resolved (query : list byte) :
  Forall (fun c => c <> x00) query ->
  Z.of_nat (length query) <= INT_MAX ->
  forall (locs : list pgssLocationLen) (toks : list token)
         (pos last_loc : Z),
    tokens_ok (Z.of_nat (length query)) pos toks ->
    Forall (fun l => 0 <= location l /\ tok_length l = -1) locs ->
    Forall (fun l => tok_length l = -1
                     \/ (1 <= tok_length l
                         /\ location l + tok_length l
                            <= Z.of_nat (length query)))
           (fill_lengths query locs toks last_loc)
    /\ Forall (fun x => last_loc < x)
              (resolved_locations (fill_lengths query locs toks last_loc))
    /\ ordered Z.lt
               (resolved_locations (fill_lengths query locs toks last_loc)).
Proof.
  intros Hnul Hmax.
  induction locs as [|l locs IH]; intros toks pos last_loc Htoks Hlocs.
  - cbn. auto.
  - pose proof Hlocs as Hall.
    apply Forall_cons in Hlocs as [[Hloc Hlen] Hlocs].
    assert (Hkeep : Forall (fun l => tok_length l = -1
                                     \/ (1 <= tok_length l
                                         /\ location l + tok_length l
                                            <= Z.of_nat (length query)))
                           (l :: locs)).
    { eapply Forall_impl; [exact Hall|]. intros x [_ Hx]. left. exact Hx. }
    cbn [fill_lengths]. cbv zeta.
    destruct (Z.leb_spec (location l) last_loc) as [Hdup|Hnew].
    + destruct (IH toks pos last_loc Htoks Hlocs) as (H1 & H2 & H3).
      split; [constructor; [left; exact Hlen | exact H1]|].
      unfold resolved_locations in *.
      rewrite filter_cons_False by lia. auto.
    + destruct (lex_until toks (location l)) as [[t rest]|] eqn:Hlex.
      2: { split; [exact Hkeep|].
           rewrite (resolved_locations_none _ Hall). cbn. auto. }
      destruct (lex_until_ok _ _ _ _ _ _ Htoks Hlex)
        as (Hge & Hne & Hend & Hrest).
      destruct (Byte.eqb (char_at query (location l)) "-"%byte).
      * destruct rest as [|t' rest'].
        { split; [exact Hkeep|].
          rewrite (resolved_locations_none _ Hall). cbn. auto. }
        cbn [tokens_ok] in Hrest.
        destruct Hrest as (Hpos' & Hne' & Hend' & Hrest').
        rewrite (token_length_end query t' (location l)) by (try assumption; lia).
        destruct (IH rest' (yyend t') (location l) Hrest' Hlocs)
          as (H1 & H2 & H3).
        split; [constructor; [right; cbn [tok_length location]; lia
                             | exact H1]|].
        rewrite resolved_locations_cons by (cbn [tok_length]; lia).
        cbn [location].
        split; [constructor; [lia|]|apply ordered_cons; assumption].
        eapply Forall_impl; [exact H2|]. cbn. intros x Hx. lia.
      * rewrite (token_length_end query t (location l)) by (try assumption; lia).
        destruct (IH rest (yyend t) (location l) Hrest Hlocs)
          as (H1 & H2 & H3).
        split; [constructor; [right; cbn [tok_length location]; lia
                             | exact H1]|].
        rewrite resolved_locations_cons by (cbn [tok_length]; lia).
        cbn [location].
        split; [constructor; [lia|]|apply ordered_cons; assumption].
        eapply Forall_impl; [exact H2|]. cbn. intros x Hx. lia.
Qed.

Lemma RecordConstLocation_fresh (locations : list Z) :
  forall clocations,
    Forall (fun l => 0 <= location l /\ tok_length l = -1) clocations ->
    Forall (fun l => 0 <= location l /\ tok_length l = -1)
           (foldl RecordConstLocation clocations locations).
Proof.
  induction locations as [|x locations IH]; intros clocations Hc;
    [exact Hc|].
  cbn [foldl]. apply IH. unfold RecordConstLocation.
  destruct (Z.leb_spec 0 x); [|exact Hc].
  apply Forall_app. split; [exact Hc|].
  constructor; [|constructor]. cbn. lia.
Qed.

(** C7: normalisation replaces the resolved spans.  For every query text,
    a C string of at most [INT_MAX] bytes, with constant locations as
    [RecordConstLocation] records them and a scanner that delivers its
    tokens in the order of the text, none empty and all inside the text:
    when the spans that the function resolves are sorted, non-overlapping
    spans of the text, [generate_normalized_query] returns the text with
    each resolved span replaced by one ['?'] and every other byte kept.  A
    byte outside the spans is found in the output, moved left by what the
    spans before it have lost, and the place of each resolved span holds
    ['?'].  The length of the output, which is also the length returned,
    does not exceed the length of the text, and with no resolved span the
    output is the text. *)
Theorem normalized_query_replaces_spans (h : host) (locations : list Z)
    (query : list byte) :
  Forall (fun c => c <> x00) query ->
  Z.of_nat (length query) <= INT_MAX ->
  tokens_ok (Z.of_nat (length query)) 0 (core_yylex h query) ->
  let clocations := foldl RecordConstLocation [] locations in
  let locs := fill_in_constant_lengths h clocations query in
  spans_ok (Z.of_nat (length query)) 0 locs ->
  exists out,
    generate_normalized_query h clocations query (Z.of_nat (length query))
    = Some (out, Z.of_nat (length out))
    /\ out = replace_spans query 0 locs
    /\ (forall p, 0 <= p < Z.of_nat (length query) -> outside_spans p locs ->
        out !! Z.to_nat (p - removed_before p locs) = query !! Z.to_nat p)
    /\ (forall l, l ∈ locs -> 0 <= tok_length l ->
        out !! Z.to_nat (location l - removed_before (location l) locs)
        = Some "?"%byte)
    /\ (length out <= length query)%nat
    /\ (Forall (fun l => tok_length l < 0) locs -> out = query).
Proof.
  intros Hnul Hmax Htoks clocations locs Hok.
  assert (Hnz : Forall (fun l => tok_length l <> 0) locs).
  { subst locs. unfold fill_in_constant_lengths. cbv zeta.
    pose proof (RecordConstLocation_fresh locations [] (Forall_nil_2 _))
      as Hfresh.
    fold clocations in Hfresh.
    assert (Hsorted : Forall (fun l => 0 <= location l /\ tok_length l = -1)
                             match clocations with
                             | _ :: _ :: _ => qsort_locations clocations
                             | _ => clocations
                             end).
    { destruct clocations as [|a [|b l]]; try exact Hfresh.
      eapply Permutation_Forall; [|exact Hfresh].
      symmetry. apply qsort_locations_perm. }
    destruct (fill_lengths_resolved query Hnul Hmax _ _ 0 (-1) Htoks Hsorted)
      as (Hlen & _).
    eapply Forall_impl; [exact Hlen|]. cbn. intros l Hl. lia. }
  destruct (substitute_constants_replaces query locs Hmax Hok Hnz)
    as (Hrun & Hlen & Hnone).
  exists (replace_spans query 0 locs).
  split; [exact Hrun|]. split; [reflexivity|].
  split; [|split; [|split; [exact Hlen | exact Hnone]]].
  - intros p Hp Hout.
    rewrite <- (replace_spans_keeps_bytes query locs 0 p); try assumption;
      try lia.
    f_equal. lia.
  - intros l Hin Hres.
    rewrite <- (replace_spans_marks query locs 0 l); try assumption; try lia.
    f_equal. lia.
Qed.

Lemma normalized_query_replaces_spans_witness :
  exists out,
    generate_normalized_query example_scanner_host
      (foldl RecordConstLocation [] [10; 2; -1; 10]) example_query_text 12
    = Some (out, Z.of_nat (length out))
    /\ out = ["a"; "="; "?"; " "; "o"; "r"; " "; "b"; "="; "?"]%byte.
Proof.
  destruct (normalized_query_replaces_spans example_scanner_host
              [10; 2; -1; 10] example_query_text)
    as (out & Hrun & Hout & _).
  - repeat constructor; discriminate.
  - unfold INT_MAX. simpl. lia.
  - simpl. lia.
  - vm_compute. repeat split; discriminate.
  - exists out. split; [exact Hrun|]. rewrite Hout. vm_compute. reflexivity.
Defined.

(** ** The query-text file *)

Lemma pwrite_drop (f : list byte) (off : Z) (data : list byte) :
  drop (Z.to_nat off) (pwrite f off data)
  = data ++ drop (Z.to_nat off + length data)%nat f.
Proof.
  unfold pwrite.
  assert (Hlen : length (take (Z.to_nat off)
                           (f ++ replicate (Z.to_nat off - length f)%nat x00))
                 = Z.to_nat off).
  { rewrite length_take, length_app, length_replicate. lia. }
  rewrite drop_app_length'; [reflexivity | symmetry; exact Hlen].
Qed.

Lemma qtext_store_frame (text : list byte) (len : Z) (wr : write_io)
    (w : world) :
  let r := qtext_store text len wr w in
  snd (fst (fst r)) = extent (pgss w)
  /\ snd (fst r) = gc_count (pgss w)
  /\ pgss_hash (snd r) = pgss_hash w
  /\ gc_count (pgss (snd r)) = gc_count (pgss w)
  /\ error_count (pgss (snd r)) = error_count (pgss w)
  /\ warning_count (pgss (snd r)) = warning_count (pgss w)
  /\ extent (pgss (snd r)) = to_Size (extent (pgss w) + to_int (len + 1))
  /\ fst (fst (fst r)) = match wr with WriteOk => true | _ => false end.
Proof.
  unfold qtext_store. destruct wr; cbn; auto 10.
Qed.

(** A successful [qtext_store] leaves the text and its terminator in the
    file at the offset it returns. *)
Lemma qtext_store_written (text : list byte) (len : Z) (w : world) :
  exists file,
    qtext_file (snd (qtext_store text len WriteOk w)) = Some file
    /\ drop (Z.to_nat (extent (pgss w))) file
       = take (Z.to_nat (len + 1)) (text ++ [x00])
         ++ drop (Z.to_nat (extent (pgss w))
                  + length (take (Z.to_nat (len + 1)) (text ++ [x00])))%nat
                 (default [] (qtext_file w)).
Proof.
  unfold qtext_store. cbn. eexists. split; [reflexivity|].
  rewrite pwrite_drop. destruct (qtext_file w); reflexivity.
Qed.

(** Garbage collection rewrites text references only. *)
Lemma rule_view_set_text (e : pgssEntry) (off len : Z) :
  rule_view (set_text e off len) = rule_view e.
Proof. reflexivity. Qed.

Lemma gc_loop_rules (g : gc_io) (qbuffer : list byte)
    (h0 : gmap pgssHashKey pgssEntry) (l : list (pgssHashKey * pgssEntry)) :
  (forall k e, (k, e) ∈ l -> h0 !! k = Some e) ->
  forall st,
    rule_view <$> gc_hash st = rule_view <$> h0 ->
    rule_view <$> gc_hash (fst (gc_loop g qbuffer st l)) = rule_view <$> h0.
Proof.
  induction l as [|[k e] l IH]; intros Hin st Hst; cbn [gc_loop].
  - exact Hst.
  - assert (Hk : (rule_view <$> h0) !! k = Some (rule_view e)).
    { rewrite lookup_fmap, (Hin k e); [reflexivity | apply elem_of_cons; auto]. }
    assert (Hstep : forall off len,
               rule_view <$> <[k := set_text e off len]> (gc_hash st)
               = rule_view <$> h0).
    { intros off len. rewrite fmap_insert, rule_view_set_text, Hst.
      apply insert_id. exact Hk. }
    assert (Hin' : forall k' e', (k', e') ∈ l -> h0 !! k' = Some e').
    { intros k' e' H'. apply Hin. apply elem_of_cons. auto. }
    destruct (qtext_fetch (query_offset e) (query_len e) (Some qbuffer)
                          (Z.of_nat (length qbuffer))).
    + apply IH; [exact Hin' | apply Hstep].
    + destruct (decide (gc_fwrite_fail g = Some (gc_nentries st))).
      * exact Hst.
      * apply IH; [exact Hin' | apply Hstep].
    + apply IH; [exact Hin' | apply Hstep].
Qed.

Lemma rules_of_gc_fail (file : option (list byte))
    (h : gmap pgssHashKey pgssEntry) (w : world) :
  rules_of (gc_fail file h w) = rule_view <$> h.
Proof.
  unfold rules_of, gc_fail. cbn. rewrite <- map_fmap_compose.
  apply map_fmap_ext. intros k e _. reflexivity.
Qed.

Lemma qtext_load_file_frame (ld : load_io) (w : world) :
  pgss_hash (snd (qtext_load_file ld w)) = pgss_hash w
  /\ pgss (snd (qtext_load_file ld w)) = pgss w.
Proof.
  unfold qtext_load_file.
  destruct (qtext_file w); [destruct ld as [|[ev|]]|]; cbn; auto.
Qed.

Lemma gc_qtexts_rules (cfg : config) (g : gc_io) (w : world) :
  rules_of (gc_qtexts cfg g w) = rules_of w.
Proof.
  unfold gc_qtexts.
  destruct (need_gc_qtexts cfg w); cbn [negb]; [|reflexivity].
  pose proof (qtext_load_file_frame (gc_load g) w) as [Hh _].
  destruct (qtext_load_file (gc_load g) w) as [[qbuffer|] w1]; cbn [snd] in Hh.
  2: { unfold rules_of. rewrite Hh. reflexivity. }
  destruct (gc_open_ok g); cbn [negb].
  2: { rewrite rules_of_gc_fail. unfold rules_of. rewrite Hh. reflexivity. }
  pose proof (gc_loop_rules g qbuffer (pgss_hash w1) (hash_seq (pgss_hash w1)))
    as Hloop.
  specialize (Hloop (fun k e H => proj1 (elem_of_map_to_list _ _ _) H)
                    (mkGc (pgss_hash w1) 0 0 []) eq_refl).
  destruct (gc_loop g qbuffer (mkGc (pgss_hash w1) 0 0 [])
                    (hash_seq (pgss_hash w1))) as [st [|]]; cbn [fst] in Hloop.
  - destruct (gc_close_ok g); cbn [negb].
    + unfold rules_of, record_gc_qtexts. cbn. rewrite Hloop, Hh. reflexivity.
    + rewrite rules_of_gc_fail, Hloop. unfold rules_of. rewrite Hh. reflexivity.
  - rewrite rules_of_gc_fail, Hloop. unfold rules_of. rewrite Hh. reflexivity.
Qed.

(** ** The rule table *)

(** C5: [entry_alloc] at capacity returns NULL, logs the capacity warning
    and changes nothing else; below capacity it returns the entry of the
    key, which is the existing one, left as it is, or a new one with zeroed
    counters and the given text reference, all other entries untouched. *)
Theorem entry_alloc_capacity (cfg : config) (uninit : Z) (key : pgssHashKey)
    (off len enc : Z) (sticky : bool) (w : world) :
  (pgss_max cfg <= Z.of_nat (size (pgss_hash w)) ->
   entry_alloc cfg uninit key off len enc sticky w
   = (None, ereport_log w WARNING_max_exceeded)
   /\ pgss_hash (ereport_log w WARNING_max_exceeded) = pgss_hash w
   /\ server_log (ereport_log w WARNING_max_exceeded)
      = server_log w ++ [WARNING_max_exceeded])
  /\ (Z.of_nat (size (pgss_hash w)) < pgss_max cfg ->
      (forall e, pgss_hash w !! key = Some e ->
                 entry_alloc cfg uninit key off len enc sticky w = (Some key, w))
      /\ (pgss_hash w !! key = None ->
          exists w',
            entry_alloc cfg uninit key off len enc sticky w = (Some key, w')
            /\ pgss_hash w' !! key
               = Some (mkEntry (mkCounters 0 0) off len enc uninit)
            /\ (forall k, k <> key -> pgss_hash w' !! k = pgss_hash w !! k)
            /\ size (pgss_hash w') = S (size (pgss_hash w))
            /\ pgss w' = pgss w /\ qtext_file w' = qtext_file w
            /\ server_log w' = server_log w)).
Proof.
  unfold entry_alloc. split.
  - intros Hfull.
    destruct (Z.leb_spec (pgss_max cfg) (Z.of_nat (size (pgss_hash w))));
      [|lia].
    split; [reflexivity | split; reflexivity].
  - intros Hroom.
    destruct (Z.leb_spec (pgss_max cfg) (Z.of_nat (size (pgss_hash w))));
      [lia|].
    split.
    + intros e He. rewrite He. reflexivity.
    + intros Hnone. rewrite Hnone. eexists. split; [reflexivity|].
      cbn [set_hash pgss_hash pgss qtext_file server_log].
      split; [apply lookup_insert_eq|].
      split; [intros k Hk; apply lookup_insert_ne; congruence|].
      split; [apply map_size_insert_None; exact Hnone|].
      auto.
Qed.

Lemma entry_alloc_capacity_witness :
  entry_alloc (example_config PGFW_MODE_LEARNING PGFW_ENGINE_HYBRID 100) 0
              (mkKey 10 100 119) 900 8 6 true full_world
  = (None, ereport_log full_world WARNING_max_exceeded)
  /\ exists w',
       entry_alloc (example_config PGFW_MODE_LEARNING PGFW_ENGINE_HYBRID 100) 0
                   (mkKey 10 42 119) 0 8 6 true empty_world
       = (Some (mkKey 10 42 119), w').
Proof.
  split.
  - apply (entry_alloc_capacity
             (example_config PGFW_MODE_LEARNING PGFW_ENGINE_HYBRID 100) 0
             (mkKey 10 100 119) 900 8 6 true full_world).
    vm_compute. discriminate.
  - destruct (entry_alloc_capacity
                (example_config PGFW_MODE_LEARNING PGFW_ENGINE_HYBRID 100) 0
                (mkKey 10 42 119) 0 8 6 true empty_world) as [_ Hroom].
    destruct Hroom as [_ Hnew]; [vm_compute; reflexivity|].
    destruct Hnew as (w' & Hw' & _); [reflexivity|].
    exists w'. exact Hw'.
Defined.

(** ** Restoring a rule that exists *)

(** C10: [pgss_restore] and [__add_rule] on a key that is in the table
    return success and leave the whole state as it was: no entry is
    created, nothing is appended to the query-text file, counters and text
    references stay. *)
Theorem restore_existing_rule_noop (cfg : config) (io : store_io)
    (userid queryid : Z) (query : list byte) (calls banned rule_type : Z)
    (w : world) :
  is_Some (pgss_hash w !! mkKey userid queryid (to_char rule_type)) ->
  pgss_restore cfg io userid queryid query calls banned rule_type w
  = (Return true, w)
  /\ __add_rule cfg io userid queryid query rule_type w = (Return 0, w).
Proof.
  intros [e He]. unfold __add_rule, pgss_restore. rewrite He.
  split; reflexivity.
Qed.

(** ** The administrative entry points *)

Ltac unfold_admin :=
  unfold sql_firewall_add_rule, sql_firewall_del_rule,
    sql_firewall_import_rule, sql_firewall_export_rule, sql_firewall_reset.

Ltac show_rejected :=
  split; [reflexivity|]; eexists; split; [reflexivity|];
  split; [tauto | intros; congruence].

(** C4: outside Disabled mode each of add rule, delete rule, import,
    export and reset leaves with an error of its entry checks and the
    state is unchanged; the error is the mode error for a superuser on a
    loaded module.  A call that returns normally was made in Disabled
    mode, by a superuser, on a loaded module. *)
Theorem admin_only_in_disabled_mode (h : host) (cfg : config) (w : world) :
  (pgfw_mode cfg <> PGFW_MODE_DISABLED ->
   (forall io u q t,
       admin_rejected cfg w (sql_firewall_add_rule h cfg io u q t w))
   /\ (forall u q t,
         admin_rejected cfg w (sql_firewall_del_rule h cfg u q t w))
   /\ (forall i lines,
         admin_rejected cfg w (sql_firewall_import_rule h cfg i lines w))
   /\ (forall x, admin_rejected cfg w (sql_firewall_export_rule h cfg x w))
   /\ (forall o t d, admin_rejected cfg w (sql_firewall_reset h cfg o t d w)))
  /\ ((forall io u q t,
          returned (sql_firewall_add_rule h cfg io u q t w) ->
          pgfw_mode cfg = PGFW_MODE_DISABLED /\ superuser cfg = true
          /\ loaded cfg = true)
      /\ (forall u q t,
            returned (sql_firewall_del_rule h cfg u q t w) ->
            pgfw_mode cfg = PGFW_MODE_DISABLED /\ superuser cfg = true
            /\ loaded cfg = true)
      /\ (forall i lines,
            returned (sql_firewall_import_rule h cfg i lines w) ->
            pgfw_mode cfg = PGFW_MODE_DISABLED /\ superuser cfg = true
            /\ loaded cfg = true)
      /\ (forall x,
            returned (sql_firewall_export_rule h cfg x w) ->
            pgfw_mode cfg = PGFW_MODE_DISABLED /\ superuser cfg = true
            /\ loaded cfg = true)
      /\ (forall o t d,
            returned (sql_firewall_reset h cfg o t d w) ->
            pgfw_mode cfg = PGFW_MODE_DISABLED /\ superuser cfg = true
            /\ loaded cfg = true)).
Proof.
  split.
  - intros Hmode.
    assert (Hdec : bool_decide (pgfw_mode cfg = PGFW_MODE_DISABLED) = false)
      by (apply bool_decide_eq_false; exact Hmode).
    split; [|split; [|split; [|split]]]; intros;
      unfold admin_rejected; unfold_admin; rewrite Hdec;
      destruct (loaded cfg), (superuser cfg); cbn [negb fst snd];
      show_rejected.
  - split; [|split; [|split; [|split]]]; intros *; unfold returned;
      unfold_admin;
      destruct (loaded cfg), (superuser cfg);
      try (destruct (bool_decide_reflect (pgfw_mode cfg = PGFW_MODE_DISABLED)));
      cbn [negb fst]; intros [a Ha]; (try discriminate); auto.
Qed.

(** ** The rule engine *)

Lemma lookup_rule_Some (userid queryid rule_type : Z) (w : world)
    (k : pgssHashKey) :
  lookup_rule userid queryid rule_type w = Some k ->
  is_Some (pgss_hash w !! k)
  /\ type k = to_char rule_type.
Proof.
  unfold lookup_rule, __lookup_rule. intros H.
  destruct (negb (userid =? InvalidOid)).
  - destruct (pgss_hash w !! mkKey userid queryid (to_char rule_type))
      as [e|] eqn:He.
    + injection H as <-. rewrite He. split; [eauto | reflexivity].
    + destruct (pgss_hash w !! mkKey InvalidOid queryid (to_char rule_type))
        as [e|] eqn:He0; [|discriminate].
      injection H as <-. rewrite He0. split; [eauto | reflexivity].
  - destruct (pgss_hash w !! mkKey InvalidOid queryid (to_char rule_type))
      as [e|] eqn:He0; [|discriminate].
    injection H as <-. rewrite He0. split; [eauto | reflexivity].
Qed.

Lemma count_entry_whitelist (h : gmap pgssHashKey pgssEntry) (k : pgssHashKey) :
  entry_types_match h -> type k = PGFW_WHITELIST_ENTRY ->
  alter count_entry k h = alter incr_calls k h.
Proof.
  intros Hm Hk. apply alter_ext. intros e He.
  unfold count_entry. rewrite (Hm k e He), Hk. reflexivity.
Qed.

Lemma count_entry_blacklist (h : gmap pgssHashKey pgssEntry) (k : pgssHashKey) :
  entry_types_match h -> type k = PGFW_BLACKLIST_ENTRY ->
  alter count_entry k h = alter incr_banned k h.
Proof.
  intros Hm Hk. apply alter_ext. intros e He.
  unfold count_entry. rewrite (Hm k e He), Hk. reflexivity.
Qed.

(** The Hybrid engine on a table whose entries carry the type of their
    key: the blacklist is looked up first; a blacklist hit prohibits and
    counts [banned] on that entry only; otherwise a whitelist hit allows
    and counts [calls] on that entry only; otherwise the statement is
    prohibited and nothing is counted. *)
Lemma hybrid_rule_engine (cfg : config) (userid queryid : Z) (w : world) :
  pgfw_rule_engine cfg = PGFW_ENGINE_HYBRID ->
  entry_types_match (pgss_hash w) ->
  to_be_prohibited cfg userid queryid w
  = match lookup_blacklist userid queryid w with
    | Some b => (Return true, set_hash w (alter incr_banned b (pgss_hash w)))
    | None =>
        match lookup_whitelist userid queryid w with
        | Some a => (Return false, set_hash w (alter incr_calls a (pgss_hash w)))
        | None => (Return true, w)
        end
    end.
Proof.
  intros Heng Hm. unfold to_be_prohibited, __to_be_prohibited. rewrite Heng.
  destruct (lookup_blacklist userid queryid w) as [b|] eqn:Hb.
  - apply lookup_rule_Some in Hb as [_ Hty].
    cbn. unfold collect_entry_statistics.
    rewrite count_entry_blacklist by assumption. reflexivity.
  - destruct (lookup_whitelist userid queryid w) as [a|] eqn:Ha.
    + apply lookup_rule_Some in Ha as [_ Hty].
      cbn. unfold collect_entry_statistics.
      rewrite count_entry_whitelist by assumption. reflexivity.
    + reflexivity.
Qed.

(** The verdict of the Hybrid engine does not depend on the type fields. *)
Lemma hybrid_verdict (cfg : config) (userid queryid : Z) (w : world) :
  pgfw_rule_engine cfg = PGFW_ENGINE_HYBRID ->
  fst (to_be_prohibited cfg userid queryid w)
  = Return (bool_decide (lookup_whitelist userid queryid w = None
                         \/ lookup_blacklist userid queryid w <> None)).
Proof.
  intros Heng. unfold to_be_prohibited, __to_be_prohibited. rewrite Heng.
  destruct (lookup_blacklist userid queryid w) as [b|] eqn:Hb.
  - rewrite (bool_decide_eq_true_2 (_ \/ Some b <> None))
      by (right; discriminate).
    reflexivity.
  - destruct (lookup_whitelist userid queryid w) as [a|] eqn:Ha.
    + rewrite (bool_decide_eq_false_2 (Some a = None \/ _))
        by (intros [H|H]; [discriminate | congruence]).
      reflexivity.
    + rewrite (bool_decide_eq_true_2 (None = None \/ _))
        by (left; reflexivity).
      reflexivity.
Qed.

(** C2, the failing evaluation: user 10 has a whitelist and a blacklist
    rule for query 42.  Before the restart the Hybrid engine prohibits the
    statement and counts [banned] on the blacklist entry.  After shutdown
    and startup the entries are back with their counters, but
    [pgss_shmem_startup] has not assigned their [type] field, and the same
    evaluation prohibits the statement and counts nothing. *)
Theorem hybrid_counts_nothing_after_restart :
  lookup_blacklist 10 42 world_after_restart = Some (mkKey 10 42 98)
  /\ pgss_hash world_after_restart !! mkKey 10 42 119
     = Some (mkEntry (mkCounters 0 0) 0 8 6 0)
  /\ pgss_hash world_after_restart !! mkKey 10 42 98
     = Some (mkEntry (mkCounters 0 0) 9 8 6 0)
  /\ to_be_prohibited
       (example_config PGFW_MODE_ENFORCING PGFW_ENGINE_HYBRID 100) 10 42
       world_after_restart
     = (Return true, world_after_restart)
  /\ pgss_hash
       (snd (to_be_prohibited
               (example_config PGFW_MODE_ENFORCING PGFW_ENGINE_HYBRID 100)
               10 42 world_with_rules)) !! mkKey 10 42 98
     = Some (mkEntry (mkCounters 0 1) 9 8 6 98).
Proof.
  repeat split; vm_compute; reflexivity.
Qed.

(** ** Statement evaluation in Enforcing and Permissive mode *)

Lemma set_hash_same (w : world) : set_hash w (pgss_hash w) = w.
Proof. destruct w. reflexivity. Qed.

Lemma collect_entry_statistics_frame (entry : option pgssHashKey) (w : world) :
  exists h',
    collect_entry_statistics entry w = set_hash w h'
    /\ dom h' = dom (pgss_hash w).
Proof.
  destruct entry as [k|]; simpl.
  - eexists. split; [reflexivity|]. apply dom_alter_L.
  - exists (pgss_hash w). split; [symmetry; apply set_hash_same | reflexivity].
Qed.

(** The rule engine counts on existing entries and touches nothing else. *)
Lemma __to_be_prohibited_frame (cfg : config)
    (whitelist_entry blacklist_entry : option pgssHashKey) (w : world)
    (r : outcome bool) (w1 : world) :
  __to_be_prohibited cfg whitelist_entry blacklist_entry w = (r, w1) ->
  exists h', w1 = set_hash w h' /\ dom h' = dom (pgss_hash w).
Proof.
  unfold __to_be_prohibited. intros H.
  assert (Hsame : exists h', w = set_hash w h' /\ dom h' = dom (pgss_hash w)).
  { exists (pgss_hash w). split; [symmetry; apply set_hash_same | reflexivity]. }
  destruct (pgfw_rule_engine cfg).
  - injection H as _ <-. exact Hsame.
  - injection H as _ <-. apply collect_entry_statistics_frame.
  - injection H as _ <-. apply collect_entry_statistics_frame.
  - destruct whitelist_entry, blacklist_entry; cbn in H; injection H as _ <-;
      first [exact Hsame | eexists; split; [reflexivity | apply dom_alter_L]].
Qed.

Lemma to_be_prohibited_frame (cfg : config) (userid queryid : Z) (w : world)
    (r : outcome bool) (w1 : world) :
  to_be_prohibited cfg userid queryid w = (r, w1) ->
  exists h', w1 = set_hash w h' /\ dom h' = dom (pgss_hash w).
Proof.
  unfold to_be_prohibited. apply __to_be_prohibited_frame.
Qed.

(** What [pgss_store] does with a prohibited verdict.  In Enforcing mode
    it counts one error and leaves with the error "Prohibited SQL
    statement" instead of returning to its caller; in Permissive mode it
    logs the warning, counts one warning and returns.  In both modes the
    set of rule entries and the query-text file are as before. *)
Lemma pgss_store_prohibited (h : host) (cfg : config)
    (io : store_io) (query : list byte) (queryId : Z)
    (jstate : option (list pgssLocationLen)) (w w1 : world) :
  loaded cfg = true ->
  to_be_prohibited cfg (GetUserId cfg) queryId w = (Return true, w1) ->
  (pgfw_mode cfg = PGFW_MODE_ENFORCING ->
   exists w',
     pgss_store h cfg io query queryId jstate w
     = (Ereport (ERR_prohibited_sql_statement query), w')
     /\ error_count (pgss w') = to_int64 (error_count (pgss w) + 1)
     /\ warning_count (pgss w') = warning_count (pgss w)
     /\ dom (pgss_hash w') = dom (pgss_hash w)
     /\ qtext_file w' = qtext_file w
     /\ server_log w' = server_log w)
  /\ (pgfw_mode cfg = PGFW_MODE_PERMISSIVE ->
      exists w',
        pgss_store h cfg io query queryId jstate w = (Return tt, w')
        /\ warning_count (pgss w') = to_int64 (warning_count (pgss w) + 1)
        /\ error_count (pgss w') = error_count (pgss w)
        /\ dom (pgss_hash w') = dom (pgss_hash w)
        /\ qtext_file w' = qtext_file w
        /\ server_log w' = server_log w ++ [WARNING_prohibited query]).
Proof.
  intros Hloaded Hverdict.
  destruct (to_be_prohibited_frame _ _ _ _ _ _ Hverdict) as (h' & -> & Hdom).
  split; intros Hmode; unfold pgss_store; rewrite Hloaded, Hmode, Hverdict;
    cbn [negb]; eexists; (split; [reflexivity|]); cbn; auto.
Qed.

(** C1, the failing evaluation: a utility statement in Enforcing mode.
    [pgss_ProcessUtility] first lets the host carry the statement out and
    calls [pgss_store] when that has returned.  For a statement that the
    rule engine prohibits, the error "Prohibited SQL statement" is
    therefore raised, and the error counted, in the state that the
    execution of the statement has left: the host is in the state [s1]
    after the statement, not in the state [s] before it. *)
Theorem prohibited_statement_handling {S : Type} (h : host) (cfg : config)
    (io : store_io) (next : Z -> S * world -> outcome unit * (S * world))
    (queryString : list byte) (s s1 : S) (w w1 w2 : world) :
  loaded cfg = true ->
  pgfw_mode cfg = PGFW_MODE_ENFORCING ->
  next 1 (s, w) = (Return tt, (s1, w1)) ->
  to_be_prohibited cfg (GetUserId cfg) (pgss_hash_string h queryString) w1
  = (Return true, w2) ->
  exists w',
    pgss_ProcessUtility h cfg io next T_OtherUtilityStmt queryString 0 (s, w)
    = (Ereport (ERR_prohibited_sql_statement queryString), (s1, w'))
    /\ error_count (pgss w') = to_int64 (error_count (pgss w1) + 1)
    /\ dom (pgss_hash w') = dom (pgss_hash w1).
Proof.
  intros Hloaded Hmode Hnext Hverdict.
  destruct (pgss_store_prohibited h cfg io queryString
              (pgss_hash_string h queryString) None w1 w2 Hloaded Hverdict)
    as [Henf _].
  destruct (Henf Hmode) as (w' & Hrun & Herr & _ & Hdom & _).
  exists w'. split; [|split; [exact Herr | exact Hdom]].
  unfold pgss_ProcessUtility.
  change (pgss_enabled 0 && tracked_utility T_OtherUtilityStmt) with true.
  change (to_int (0 + 1)) with 1.
  cbv iota. rewrite Hnext, Hrun. reflexivity.
Qed.

Lemma prohibited_statement_handling_witness :
  exists w',
    pgss_ProcessUtility example_host
      (example_config PGFW_MODE_ENFORCING PGFW_ENGINE_HYBRID 100) all_ok_io
      (carry_out drop_table_text) T_OtherUtilityStmt drop_table_text 0
      ([], world_with_rules)
    = (Ereport (ERR_prohibited_sql_statement drop_table_text),
       ([drop_table_text], w'))
    /\ error_count (pgss w') = 1.
Proof.
  destruct (prohibited_statement_handling example_host
              (example_config PGFW_MODE_ENFORCING PGFW_ENGINE_HYBRID 100)
              all_ok_io (carry_out drop_table_text) drop_table_text
              [] [drop_table_text] world_with_rules world_with_rules
              world_with_rules)
    as (w' & Hrun & Herr & _).
  - reflexivity.
  - reflexivity.
  - reflexivity.
  - vm_compute. reflexivity.
  - exists w'. split; [exact Hrun|]. rewrite Herr. vm_compute. reflexivity.
Defined.

(** ** Statement evaluation in Learning mode *)

Lemma lookup_rule_None (userid queryid rule_type : Z) (w : world) :
  lookup_rule userid queryid rule_type w = None ->
  pgss_hash w !! mkKey userid queryid (to_char rule_type) = None.
Proof.
  unfold lookup_rule, __lookup_rule. intros H.
  destruct (Z.eqb_spec userid InvalidOid) as [->|Hne]; cbn [negb] in H.
  - destruct (pgss_hash w !! mkKey InvalidOid queryid (to_char rule_type));
      [discriminate | reflexivity].
  - destruct (pgss_hash w !! mkKey userid queryid (to_char rule_type));
      [discriminate | reflexivity].
Qed.

(** The Learning branch up to the creation of the entry: where the text
    ends up, given the results of the two writes.  [None] when neither
    write succeeded. *)
Lemma learning_text_stored (text : list byte) (len : Z) (io : store_io)
    (w : world) :
  let '(stored, off, gcc, w1) := qtext_store text len (io_write1 io) w in
  let r := if negb stored || negb (gc_count (pgss w1) =? gcc)
           then let '(stored', off', _, w') :=
                  qtext_store text len (io_write2 io) w1 in
                (stored', off', w')
           else (stored, off, w1) in
  pgss_hash (snd r) = pgss_hash w
  /\ ((io_write1 io = WriteOk \/ io_write2 io = WriteOk) ->
      fst (fst r) = true
      /\ exists file rest,
           qtext_file (snd r) = Some file
           /\ drop (Z.to_nat (snd (fst r))) file
              = take (Z.to_nat (len + 1)) (text ++ [x00]) ++ rest)
  /\ (io_write1 io <> WriteOk -> io_write2 io <> WriteOk ->
      fst (fst r) = false).
Proof.
  pose proof (qtext_store_frame text len (io_write1 io) w) as F1.
  pose proof (qtext_store_written text len w) as W1.
  destruct (qtext_store text len (io_write1 io) w) as [[[stored off] gcc] w1]
    eqn:Hs1.
  cbv zeta in F1. cbn [fst snd] in F1.
  destruct F1 as (Hoff & Hgcc & Hh1 & Hgc1 & _ & _ & _ & Hst1).
  rewrite Hgc1, Hgcc, Z.eqb_refl. cbn [negb]. rewrite orb_false_r.
  destruct (io_write1 io) as [|lb] eqn:Hw1; subst stored; cbn [negb].
  - cbv zeta. cbn [fst snd]. rewrite Hs1 in W1. cbn [snd] in W1.
    destruct W1 as (file & Hfile & Hdrop).
    split; [exact Hh1|]. split.
    + intros _. split; [reflexivity|]. exists file. eexists.
      split; [exact Hfile|]. rewrite Hoff. exact Hdrop.
    + intros Hn. congruence.
  - pose proof (qtext_store_frame text len (io_write2 io) w1) as F2.
    pose proof (qtext_store_written text len w1) as W2.
    destruct (qtext_store text len (io_write2 io) w1)
      as [[[stored' off'] gcc'] w2] eqn:Hs2.
    cbv zeta in F2. cbn [fst snd] in F2.
    destruct F2 as (Hoff2 & _ & Hh2 & _ & _ & _ & _ & Hst2).
    cbv zeta. cbn [fst snd].
    split; [congruence|]. split.
    + intros [Hc|Hc]; [discriminate|]. rewrite Hc in Hst2, Hs2.
      split; [exact Hst2|]. rewrite Hs2 in W2. cbn [snd] in W2.
      destruct W2 as (file & Hfile & Hdrop).
      exists file. eexists. split; [exact Hfile|]. rewrite Hoff2. exact Hdrop.
    + intros _ Hn. destruct (io_write2 io); [congruence | exact Hst2].
Qed.

(** C3, counterexample: in Learning mode, a statement without a whitelist
    entry whose text cannot be written to the query-text file gets no
    entry: [pgss_store] gives up and returns. *)
Lemma learning_without_entry_counterexample :
  lookup_whitelist 10 42 empty_world = None
  /\ fst (pgss_store example_host
            (example_config PGFW_MODE_LEARNING PGFW_ENGINE_HYBRID 100)
            (mkStoreIo (WriteFails (Some [])) (WriteFails (Some []))
                       all_ok_gc 0)
            select_text 42 (Some []) empty_world)
     = Return tt
  /\ pgss_hash
       (snd (pgss_store example_host
               (example_config PGFW_MODE_LEARNING PGFW_ENGINE_HYBRID 100)
               (mkStoreIo (WriteFails (Some [])) (WriteFails (Some []))
                          all_ok_gc 0)
               select_text 42 (Some []) empty_world))
     = ∅.
Proof.
  repeat split; vm_compute; reflexivity.
Qed.

(** C3, amended: in Learning mode, for a statement without a whitelist
    entry for the user or the wildcard user, whose text to store is
    [text] (normalised when the caller passed the jumble state), if one of
    the two writes succeeds and the table is below [sql_firewall.max],
    [pgss_store] returns normally; the file holds the text and its
    terminator at the offset of the new entry; the table gains exactly the
    whitelist entry of the user and the query, with calls 0 and banned 0,
    and every other entry keeps counters and type (a garbage collection
    may follow and rewrite text references only).  If both writes fail,
    [pgss_store] returns normally and the table is unchanged. *)
Theorem learning_creates_whitelist_entry (h : host) (cfg : config)
    (io : store_io) (query : list byte) (queryId : Z)
    (jstate : option (list pgssLocationLen)) (w : world)
    (text : list byte) (len : Z) :
  loaded cfg = true ->
  pgfw_mode cfg = PGFW_MODE_LEARNING ->
  lookup_whitelist (GetUserId cfg) queryId w = None ->
  learned_text h query jstate = Some (text, len) ->
  ((io_write1 io = WriteOk \/ io_write2 io = WriteOk) ->
   Z.of_nat (size (pgss_hash w)) < pgss_max cfg ->
   exists w' w4 off file rest,
     pgss_store h cfg io query queryId jstate w = (Return tt, w')
     /\ (w' = w4 \/ w' = gc_qtexts cfg (io_gc io) w4)
     /\ pgss_hash w !! mkKey (GetUserId cfg) queryId PGFW_WHITELIST_ENTRY = None
     /\ pgss_hash w4
        = <[mkKey (GetUserId cfg) queryId PGFW_WHITELIST_ENTRY
            := mkEntry (mkCounters 0 0) off len (GetDatabaseEncoding cfg)
                       PGFW_WHITELIST_ENTRY]> (pgss_hash w)
     /\ qtext_file w4 = Some file
     /\ drop (Z.to_nat off) file
        = take (Z.to_nat (len + 1)) (text ++ [x00]) ++ rest
     /\ rules_of w'
        = <[mkKey (GetUserId cfg) queryId PGFW_WHITELIST_ENTRY
            := (mkCounters 0 0, GetDatabaseEncoding cfg, PGFW_WHITELIST_ENTRY)]>
            (rules_of w))
  /\ (io_write1 io <> WriteOk -> io_write2 io <> WriteOk ->
      exists w',
        pgss_store h cfg io query queryId jstate w = (Return tt, w')
        /\ pgss_hash w' = pgss_hash w).
Proof.
  intros Hloaded Hmode Hlookup Hnorm.
  pose proof (lookup_rule_None _ _ _ _ Hlookup) as Hnone.
  change (to_char PGFW_WHITELIST_ENTRY) with PGFW_WHITELIST_ENTRY in Hnone.
  unfold pgss_store. rewrite Hloaded, Hmode, Hlookup. cbv zeta. cbn [negb].
  change (to_char PGFW_WHITELIST_ENTRY) with PGFW_WHITELIST_ENTRY.
  unfold learned_text in Hnorm. rewrite Hnorm.
  pose proof (learning_text_stored text len io w) as Hst.
  destruct (qtext_store text len (io_write1 io) w) as [[[stored off] gcc] w1].
  cbv zeta in Hst.
  destruct (if negb stored || negb (gc_count (pgss w1) =? gcc)
            then let '(stored', off', _, w') :=
                   qtext_store text len (io_write2 io) w1 in
                 (stored', off', w')
            else (stored, off, w1)) as [[stored2 off2] w2].
  cbn [fst snd] in Hst. destruct Hst as (Hh2 & Hok & Hfail).
  split.
  - intros Hwr Hroom. destruct (Hok Hwr) as (-> & file & rest & Hfile & Hdrop).
    cbn [negb]. unfold entry_alloc. rewrite Hh2.
    destruct (Z.leb_spec (pgss_max cfg) (Z.of_nat (size (pgss_hash w))));
      [lia|].
    rewrite Hnone. cbn [set_hash pgss_hash].
    rewrite alter_insert_eq.
    set (w4 := set_hash _ _).
    exists (if need_gc_qtexts cfg w1 then gc_qtexts cfg (io_gc io) w4 else w4),
      w4, off2, file, rest.
    split; [reflexivity|].
    split; [destruct (need_gc_qtexts cfg w1); auto|].
    split; [first [exact Hnone | reflexivity]|].
    split; [reflexivity|].
    split; [exact Hfile|].
    split; [exact Hdrop|].
    assert (Hr4 : rules_of w4
                  = <[mkKey (GetUserId cfg) queryId PGFW_WHITELIST_ENTRY
                      := (mkCounters 0 0, GetDatabaseEncoding cfg,
                          PGFW_WHITELIST_ENTRY)]> (rules_of w)).
    { unfold rules_of, w4. cbn [pgss_hash set_hash].
      rewrite fmap_insert. reflexivity. }
    destruct (need_gc_qtexts cfg w1); [rewrite gc_qtexts_rules|]; exact Hr4.
  - intros Hn1 Hn2. rewrite (Hfail Hn1 Hn2). cbn [negb].
    exists w2. split; [reflexivity | exact Hh2].
Qed.

Lemma learning_creates_whitelist_entry_witness :
  exists w',
    pgss_store example_host
      (example_config PGFW_MODE_LEARNING PGFW_ENGINE_HYBRID 100) all_ok_io
      select_text 42 (Some []) empty_world
    = (Return tt, w')
    /\ rules_of w'
       = <[mkKey 10 42 PGFW_WHITELIST_ENTRY
           := (mkCounters 0 0, 6, PGFW_WHITELIST_ENTRY)]> (rules_of empty_world).
Proof.
  destruct (learning_creates_whitelist_entry example_host
              (example_config PGFW_MODE_LEARNING PGFW_ENGINE_HYBRID 100)
              all_ok_io select_text 42 (Some []) empty_world select_text 8)
    as [Hstored _].
  - reflexivity.
  - reflexivity.
  - vm_compute. reflexivity.
  - vm_compute. reflexivity.
  - destruct Hstored as (w' & w4 & off & file & rest & Hrun & _ & _ & _ & _ & _ & Hrules).
    + left. reflexivity.
    + vm_compute. reflexivity.
    + exists w'. split; [exact Hrun | exact Hrules].
Defined.

(** C8: in the Learning branch, once the text is stored, a table that
    holds [sql_firewall.max] entries makes [entry_alloc] return NULL, and
    the assignment [entry->type = ...] dereferences it. *)
Theorem learning_at_capacity_null_deref (h : host) (cfg : config)
    (io : store_io) (query : list byte) (queryId : Z)
    (jstate : option (list pgssLocationLen)) (w : world)
    (text : list byte) (len : Z) :
  loaded cfg = true ->
  pgfw_mode cfg = PGFW_MODE_LEARNING ->
  lookup_whitelist (GetUserId cfg) queryId w = None ->
  learned_text h query jstate = Some (text, len) ->
  (io_write1 io = WriteOk \/ io_write2 io = WriteOk) ->
  pgss_max cfg <= Z.of_nat (size (pgss_hash w)) ->
  fst (pgss_store h cfg io query queryId jstate w) = NullDeref.
Proof.
  intros Hloaded Hmode Hlookup Hnorm Hwr Hfull.
  unfold pgss_store. rewrite Hloaded, Hmode, Hlookup. cbv zeta. cbn [negb].
  unfold learned_text in Hnorm. rewrite Hnorm.
  pose proof (learning_text_stored text len io w) as Hst.
  destruct (qtext_store text len (io_write1 io) w) as [[[stored off] gcc] w1].
  cbv zeta in Hst.
  destruct (if negb stored || negb (gc_count (pgss w1) =? gcc)
            then let '(stored', off', _, w') :=
                   qtext_store text len (io_write2 io) w1 in
                 (stored', off', w')
            else (stored, off, w1)) as [[stored2 off2] w2].
  cbn [fst snd] in Hst. destruct Hst as (Hh2 & Hok & _).
  destruct (Hok Hwr) as (-> & _).
  cbn [negb]. unfold entry_alloc. rewrite Hh2.
  destruct (Z.leb_spec (pgss_max cfg) (Z.of_nat (size (pgss_hash w))));
    [reflexivity | lia].
Qed.

Lemma learning_at_capacity_null_deref_witness :
  size (pgss_hash full_world) = 100%nat
  /\ fst (pgss_store example_host
            (example_config PGFW_MODE_LEARNING PGFW_ENGINE_HYBRID 100)
            all_ok_io select_text 100 None full_world)
     = NullDeref.
Proof.
  split; [vm_compute; reflexivity|].
  apply (learning_at_capacity_null_deref example_host
           (example_config PGFW_MODE_LEARNING PGFW_ENGINE_HYBRID 100)
           all_ok_io select_text 100 None full_world select_text 8).
  - reflexivity.
  - reflexivity.
  - vm_compute. reflexivity.
  - vm_compute. reflexivity.
  - left. reflexivity.
  - vm_compute. discriminate.
Defined.

(** ** The type field of the entries

    [pgss_store] and [pgss_restore] leave every entry with the type of its
    key; [pgss_shmem_startup] does not. *)

Lemma entry_types_match_rules (h h' : gmap pgssHashKey pgssEntry) :
  rule_view <$> h' = rule_view <$> h ->
  entry_types_match h -> entry_types_match h'.
Proof.
  intros Heq Hm k e' He'.
  assert (Hv : (rule_view <$> h) !! k = Some (rule_view e')).
  { rewrite <- Heq, lookup_fmap, He'. reflexivity. }
  rewrite lookup_fmap in Hv.
  destruct (h !! k) as [e|] eqn:He; [|discriminate].
  injection Hv as Hv. rewrite <- (Hm k e He).
  unfold rule_view in Hv. congruence.
Qed.

Lemma entry_types_match_insert (h : gmap pgssHashKey pgssEntry)
    (k : pgssHashKey) (e : pgssEntry) :
  entry_type e = type k -> entry_types_match h ->
  entry_types_match (<[k := e]> h).
Proof.
  intros He Hm k' e' H'. destruct (decide (k = k')) as [<-|Hne].
  - rewrite lookup_insert_eq in H'. congruence.
  - rewrite lookup_insert_ne in H' by exact Hne. apply Hm. exact H'.
Qed.

Lemma entry_types_match_alter (h : gmap pgssHashKey pgssEntry)
    (f : pgssEntry -> pgssEntry) (k : pgssHashKey) :
  (forall e, h !! k = Some e -> entry_type (f e) = type k) ->
  entry_types_match h -> entry_types_match (alter f k h).
Proof.
  intros Hf Hm k' e' H'. destruct (decide (k = k')) as [<-|Hne].
  - rewrite lookup_alter_eq in H'.
    destruct (h !! k) as [e|] eqn:He; [|discriminate].
    injection H' as <-. apply Hf. reflexivity.
  - rewrite lookup_alter_ne in H' by exact Hne. apply Hm. exact H'.
Qed.

Lemma count_entry_type (e : pgssEntry) : entry_type (count_entry e) = entry_type e.
Proof.
  unfold count_entry.
  destruct (entry_type e =? PGFW_WHITELIST_ENTRY);
    [|destruct (entry_type e =? PGFW_BLACKLIST_ENTRY)]; reflexivity.
Qed.

Lemma collect_entry_statistics_types (entry : option pgssHashKey) (w : world) :
  entry_types_match (pgss_hash w) ->
  entry_types_match (pgss_hash (collect_entry_statistics entry w)).
Proof.
  intros Hm. destruct entry as [k|]; [|exact Hm].
  cbn. apply entry_types_match_alter; [|exact Hm].
  intros e He. rewrite count_entry_type. apply Hm. exact He.
Qed.

Lemma to_be_prohibited_types (cfg : config) (userid queryid : Z) (w : world) :
  entry_types_match (pgss_hash w) ->
  entry_types_match (pgss_hash (snd (to_be_prohibited cfg userid queryid w))).
Proof.
  intros Hm. unfold to_be_prohibited, __to_be_prohibited.
  destruct (pgfw_rule_engine cfg); cbn [snd].
  - exact Hm.
  - apply collect_entry_statistics_types. exact Hm.
  - apply collect_entry_statistics_types. exact Hm.
  - repeat match goal with
           | |- context [if ?b then _ else _] => destruct b
           end; try apply collect_entry_statistics_types; exact Hm.
Qed.

Lemma gc_qtexts_types (cfg : config) (g : gc_io) (w : world) :
  entry_types_match (pgss_hash w) ->
  entry_types_match (pgss_hash (gc_qtexts cfg g w)).
Proof.
  apply entry_types_match_rules. apply (gc_qtexts_rules cfg g w).
Qed.

Lemma entry_alloc_then_type (cfg : config) (uninit : Z) (key : pgssHashKey)
    (off len enc : Z) (sticky : bool) (w : world)
    (f : pgssEntry -> pgssEntry) :
  (forall e, entry_type (f e) = type key) ->
  entry_types_match (pgss_hash w) ->
  match entry_alloc cfg uninit key off len enc sticky w with
  | (None, w') => entry_types_match (pgss_hash w')
  | (Some entry, w') =>
      entry_types_match (alter f entry (pgss_hash w'))
  end.
Proof.
  intros Hf Hm. unfold entry_alloc.
  destruct (pgss_max cfg <=? Z.of_nat (size (pgss_hash w))); [exact Hm|].
  destruct (pgss_hash w !! key) as [e|] eqn:He.
  - apply entry_types_match_alter; [intros; apply Hf | exact Hm].
  - cbn [set_hash pgss_hash]. rewrite alter_insert_eq.
    apply entry_types_match_insert; [apply Hf | exact Hm].
Qed.

(** Evaluation keeps the type fields in step with the keys. *)
Theorem pgss_store_keeps_types (h : host) (cfg : config) (io : store_io)
    (query : list byte) (queryId : Z)
    (jstate : option (list pgssLocationLen)) (w : world) :
  entry_types_match (pgss_hash w) ->
  entry_types_match
    (pgss_hash (snd (pgss_store h cfg io query queryId jstate w))).
Proof.
  intros Hm. unfold pgss_store.
  destruct (loaded cfg); cbn [negb]; [|exact Hm].
  cbv zeta. destruct (pgfw_mode cfg).
  - exact Hm.
  - destruct (lookup_whitelist (GetUserId cfg) queryId w); [exact Hm|].
    destruct (match jstate with
              | Some clocations =>
                  generate_normalized_query h clocations query
                    (to_int (Z.of_nat (length query)))
              | None => Some (query, to_int (Z.of_nat (length query)))
              end) as [[text len]|]; [|exact Hm].
    pose proof (learning_text_stored text len io w) as Hst.
    destruct (qtext_store text len (io_write1 io) w) as [[[stored off] gcc] w1].
    cbv zeta in Hst.
    destruct (if negb stored || negb (gc_count (pgss w1) =? gcc)
              then let '(stored', off', _, w') :=
                     qtext_store text len (io_write2 io) w1 in
                   (stored', off', w')
              else (stored, off, w1)) as [[stored2 off2] w2].
    cbn [fst snd] in Hst. destruct Hst as (Hh2 & _ & _).
    rewrite <- Hh2 in Hm.
    destruct stored2; cbn [negb]; [|exact Hm].
    pose proof (entry_alloc_then_type cfg (io_uninit io)
                  (mkKey (GetUserId cfg) queryId (to_char PGFW_WHITELIST_ENTRY))
                  off2 len (GetDatabaseEncoding cfg)
                  (bool_decide (jstate <> None)) w2
                  (fun e => set_entry_type e PGFW_WHITELIST_ENTRY)
                  (fun _ => eq_refl) Hm) as Ha.
    destruct (entry_alloc cfg (io_uninit io) _ off2 len _ _ w2) as [[entry|] w3].
    + cbn [snd]. destruct (need_gc_qtexts cfg w1).
      * apply gc_qtexts_types. exact Ha.
      * exact Ha.
    + exact Ha.
  - pose proof (to_be_prohibited_types cfg (GetUserId cfg) queryId w Hm) as Ht.
    destruct (to_be_prohibited cfg (GetUserId cfg) queryId w) as [[[|]| | |] w1];
      exact Ht.
  - pose proof (to_be_prohibited_types cfg (GetUserId cfg) queryId w Hm) as Ht.
    destruct (to_be_prohibited cfg (GetUserId cfg) queryId w) as [[[|]| | |] w1];
      exact Ht.
Qed.

(** So does adding a rule, for rule types that are character codes. *)
Theorem pgss_restore_keeps_types (cfg : config) (io : store_io)
    (userid queryid : Z) (query : list byte) (calls banned rule_type : Z)
    (w : world) :
  to_char rule_type = rule_type ->
  entry_types_match (pgss_hash w) ->
  entry_types_match
    (pgss_hash (snd (pgss_restore cfg io userid queryid query calls banned
                                  rule_type w))).
Proof.
  intros Hty Hm. unfold pgss_restore.
  destruct (pgss_hash w !! mkKey userid queryid (to_char rule_type));
    [exact Hm|].
  cbv zeta.
  pose proof (qtext_store_frame query (to_int (Z.of_nat (length query)))
                (io_write1 io) w) as F.
  destruct (qtext_store query (to_int (Z.of_nat (length query)))
                        (io_write1 io) w) as [[[stored off] gcc] w1].
  cbv zeta in F. cbn [fst snd] in F. destruct F as (_ & _ & Hh1 & _).
  rewrite <- Hh1 in Hm.
  destruct stored; cbn [negb]; [|exact Hm].
  pose proof (entry_alloc_then_type cfg (io_uninit io)
                (mkKey userid queryid (to_char rule_type))
                off (to_int (Z.of_nat (length query)))
                (GetDatabaseEncoding cfg) false w1
                (fun e => set_counters (set_entry_type e rule_type)
                                       (mkCounters calls banned))
                (fun _ => eq_sym Hty) Hm) as Ha.
  destruct (entry_alloc cfg (io_uninit io) _ off _ _ false w1)
    as [[entry|] w2]; [|exact Ha].
  cbn [snd].
  match goal with
  | |- context [if ?b then _ else _] => destruct b
  end.
  - apply gc_qtexts_types. exact Ha.
  - exact Ha.
Qed.

(** The example table has matching types before the restart and not
    after it. *)
Example types_match_before_restart :
  entry_types_match (pgss_hash world_with_rules).
Proof.
  unfold world_with_rules. cbv zeta.
  apply pgss_restore_keeps_types; [reflexivity|].
  apply pgss_restore_keeps_types; [reflexivity|].
  intros k e He. cbn in He. rewrite lookup_empty in He. discriminate.
Qed.

Example types_lost_after_restart :
  ~ entry_types_match (pgss_hash world_after_restart).
Proof.
  intros Hm.
  specialize (Hm (mkKey 10 42 98) (mkEntry (mkCounters 0 0) 9 8 6 0)).
  cbn [entry_type type] in Hm. discriminate Hm. vm_compute. reflexivity.
Qed.

(** ** Adding a rule that exists, through the entry points *)

Lemma add_rule_existing_noop (h : host) (cfg : config) (io : store_io)
    (user query_string : list byte) (rule_type : Z) (w : world)
    (queryid : Z) (norm : list byte) :
  sql_firewall_queryid h query_string true = Return (queryid, Some norm) ->
  is_Some (pgss_hash w !! mkKey (get_role_oid h user) queryid
                                (to_char rule_type)) ->
  add_rule h cfg io user query_string rule_type w = (Return 0, w).
Proof.
  intros Hq [e He]. unfold add_rule. rewrite Hq. cbn [bind].
  unfold __add_rule, pgss_restore. rewrite He. reflexivity.
Qed.

Lemma import_record_existing_noop (h : host) (cfg : config) (io : store_io)
    (v : csv_values) (w : world) (id : list byte) :
  values1 v = Some id -> strlen id <> 0 ->
  is_Some (pgss_hash w
           !! mkKey (to_uint32 (to_int (atol h (values0 v))))
                    (to_uint32 (atol h id))
                    (to_char (to_uint32
                                (char_of_byte (nth 0 (values5 v) x00))))) ->
  import_record h cfg io v w = (Return true, w).
Proof.
  intros Hid Hlen [e He]. unfold import_record.
  rewrite Hid. cbv zeta.
  destruct (Z.eqb_spec (strlen id) 0); [contradiction|].
  change (default [] (Some id)) with id. cbn [bind].
  unfold pgss_restore. rewrite He. reflexivity.
Qed.

(** ** Export *)

(** C9: the scan for quoting characters gets a NULL pointer.  On a loaded
    module in Disabled mode, called by a superuser who can open the target
    file, the export of a table that is not empty and whose entries all
    have a text reference that [qtext_fetch] rejects (the query-text file
    could not be loaded, or every length is -1 after a failed garbage
    collection) ends in [strchr(NULL, ...)]. *)
Theorem export_scans_null_text (h : host) (cfg : config) (x : export_io)
    (w : world) (k0 : pgssHashKey) (e0 : pgssEntry) :
  loaded cfg = true ->
  superuser cfg = true ->
  pgfw_mode cfg = PGFW_MODE_DISABLED ->
  x_open_ok x = true ->
  pgss_hash w !! k0 = Some e0 ->
  (forall k e,
      pgss_hash w !! k = Some e ->
      qtext_fetch (query_offset e) (query_len e)
                  (fst (qtext_load_file (x_load x) w))
                  (match fst (qtext_load_file (x_load x) w) with
                   | Some b => Z.of_nat (length b)
                   | None => 0
                   end)
      = FetchNull) ->
  fst (sql_firewall_export_rule h cfg x w) = NullDeref.
Proof.
  intros Hloaded Hsuper Hmode Hopen Hk0 Hnull.
  unfold sql_firewall_export_rule. rewrite Hloaded, Hsuper, Hmode, Hopen.
  cbn [negb]. rewrite bool_decide_eq_true_2 by reflexivity. cbn [negb].
  pose proof (qtext_load_file_frame (x_load x) w) as [Hh _].
  destruct (qtext_load_file (x_load x) w) as [qbuffer w1].
  cbn [fst snd] in Hnull, Hh. rewrite Hh. unfold hash_seq.
  destruct (map_to_list (pgss_hash w)) as [|[k e] l] eqn:Hl.
  - apply map_to_list_empty_iff in Hl. rewrite Hl, lookup_empty in Hk0.
    discriminate.
  - assert (Hke : pgss_hash w !! k = Some e).
    { apply elem_of_map_to_list. rewrite Hl. apply elem_of_cons. auto. }
    cbn [export_loop]. rewrite (Hnull k e Hke). reflexivity.
Qed.

Lemma export_scans_null_text_witness :
  fst (sql_firewall_export_rule example_host
         (example_config PGFW_MODE_DISABLED PGFW_ENGINE_HYBRID 100)
         (mkExportIo LoadOk true true) world_after_failed_gc)
  = NullDeref.
Proof.
  apply (export_scans_null_text example_host
           (example_config PGFW_MODE_DISABLED PGFW_ENGINE_HYBRID 100)
           (mkExportIo LoadOk true true) world_after_failed_gc
           (mkKey 10 42 119) (mkEntry (mkCounters 0 0) 0 (-1) 6 119)).
  - reflexivity.
  - reflexivity.
  - reflexivity.
  - reflexivity.
  - vm_compute. reflexivity.
  - intros k e He.
    assert (Hh : pgss_hash world_after_failed_gc
                 = {[ mkKey 10 42 119
                      := mkEntry (mkCounters 0 0) 0 (-1) 6 119 ]})
      by (vm_compute; reflexivity).
    rewrite Hh in He. apply lookup_singleton_Some in He as [_ <-].
    unfold qtext_fetch.
    destruct (qtext_load_file LoadOk world_after_failed_gc).1; reflexivity.
Defined.

(** The same export when the query-text file cannot be read. *)
Example export_without_texts :
  fst (sql_firewall_export_rule example_host
         (example_config PGFW_MODE_DISABLED PGFW_ENGINE_HYBRID 100)
         (mkExportIo (LoadFails (Some LOG_out_of_memory)) true true)
         world_with_rules)
  = NullDeref.
Proof. vm_compute. reflexivity. Qed.

(** With valid texts the export writes one row per rule. *)
Example export_with_texts :
  fst (sql_firewall_export_rule example_host
         (example_config PGFW_MODE_DISABLED PGFW_ENGINE_HYBRID 100)
         (mkExportIo LoadOk true true) world_with_rules)
  = Return true.
Proof. vm_compute. reflexivity. Qed.

(** ** Witnesses on the example state *)

Lemma admin_only_in_disabled_mode_witness :
  admin_rejected (example_config PGFW_MODE_ENFORCING PGFW_ENGINE_HYBRID 100)
    world_with_rules
    (sql_firewall_reset example_host
       (example_config PGFW_MODE_ENFORCING PGFW_ENGINE_HYBRID 100)
       true true all_ok_dump world_with_rules)
  /\ admin_rejected (example_config PGFW_MODE_LEARNING PGFW_ENGINE_HYBRID 100)
       world_with_rules
       (sql_firewall_add_rule example_host
          (example_config PGFW_MODE_LEARNING PGFW_ENGINE_HYBRID 100)
          all_ok_io [] select_text [] world_with_rules).
Proof.
  split.
  - destruct (admin_only_in_disabled_mode example_host
                (example_config PGFW_MODE_ENFORCING PGFW_ENGINE_HYBRID 100)
                world_with_rules) as [Hrej _].
    destruct Hrej as (_ & _ & _ & _ & Hreset); [discriminate|].
    apply Hreset.
  - destruct (admin_only_in_disabled_mode example_host
                (example_config PGFW_MODE_LEARNING PGFW_ENGINE_HYBRID 100)
                world_with_rules) as [Hrej _].
    destruct Hrej as (Hadd & _); [discriminate|].
    apply Hadd.
Defined.

Lemma restore_existing_rule_noop_witness :
  pgss_restore (example_config PGFW_MODE_DISABLED PGFW_ENGINE_HYBRID 100)
    all_ok_io 10 42 select_text 7 3 PGFW_WHITELIST_ENTRY world_with_rules
  = (Return true, world_with_rules).
Proof.
  apply (restore_existing_rule_noop
           (example_config PGFW_MODE_DISABLED PGFW_ENGINE_HYBRID 100)
           all_ok_io 10 42 select_text 7 3 PGFW_WHITELIST_ENTRY
           world_with_rules).
  vm_compute. eauto.
Defined.

(** ** The examples of the specification, evaluated *)

(** Learning mode: the first execution creates one whitelist entry with
    calls 0 and banned 0.  Under Enforcing mode and the whitelist engine
    the same statement is then allowed and counts one call. *)
Example learn_then_enforce :
  let learned :=
    snd (pgss_store example_host
           (example_config PGFW_MODE_LEARNING PGFW_ENGINE_WHITELIST 100)
           all_ok_io select_text 42 (Some []) empty_world) in
  map_to_list (pgss_hash learned)
  = [(mkKey 10 42 119, mkEntry (mkCounters 0 0) 0 8 6 119)]
  /\ fst (pgss_store example_host
            (example_config PGFW_MODE_ENFORCING PGFW_ENGINE_WHITELIST 100)
            all_ok_io select_text 42 (Some []) learned)
     = Return tt
  /\ pgss_hash
       (snd (pgss_store example_host
               (example_config PGFW_MODE_ENFORCING PGFW_ENGINE_WHITELIST 100)
               all_ok_io select_text 42 (Some []) learned))
     !! mkKey 10 42 119
     = Some (mkEntry (mkCounters 1 0) 0 8 6 119).
Proof. repeat split; vm_compute; reflexivity. Qed.

(** Enforcing mode and the blacklist engine: a statement with a blacklist
    rule is denied, [banned] and the error count go up by one. *)
Example enforce_blacklist :
  fst (pgss_store example_host
         (example_config PGFW_MODE_ENFORCING PGFW_ENGINE_BLACKLIST 100)
         all_ok_io select_text 42 None world_with_rules)
  = Ereport (ERR_prohibited_sql_statement select_text)
  /\ pgss_hash
       (snd (pgss_store example_host
               (example_config PGFW_MODE_ENFORCING PGFW_ENGINE_BLACKLIST 100)
               all_ok_io select_text 42 None world_with_rules))
     !! mkKey 10 42 98
     = Some (mkEntry (mkCounters 0 1) 9 8 6 98)
  /\ error_count
       (pgss (snd (pgss_store example_host
                     (example_config PGFW_MODE_ENFORCING PGFW_ENGINE_BLACKLIST
                                     100)
                     all_ok_io select_text 42 None world_with_rules)))
     = 1.
Proof. repeat split; vm_compute; reflexivity. Qed.

(** Normalising "id = 1" and "id = 999" with the constant located by the
    scanner gives "id = ?" for both. *)
Example normalize_literals :
  substitute_constants ["i"; "d"; " "; "="; " "; "1"]%byte 6 [mkLoc 5 1]
  = Some (["i"; "d"; " "; "="; " "; "?"]%byte, 6)
  /\ substitute_constants ["i"; "d"; " "; "="; " "; "9"; "9"; "9"]%byte 8
       [mkLoc 5 3]
     = Some (["i"; "d"; " "; "="; " "; "?"]%byte, 6).
Proof. split; vm_compute; reflexivity. Qed.

(** [fill_in_constant_lengths] on "id = -12" with the tokens of the
    scanner: the minus sign and the number are one constant of length 3. *)
Example fill_negative_constant :
  fill_lengths ["i"; "d"; " "; "="; " "; "-"; "1"; "2"]%byte [mkLoc 5 (-1)]
    [mkToken 0 2; mkToken 3 4; mkToken 5 6; mkToken 6 8] (-1)
  = [mkLoc 5 3].
Proof. vm_compute. reflexivity. Qed.
(** * Further properties of the code *)

(** ** The Whitelist and the Blacklist engine *)

Lemma lookup_rule_rule_for (userid queryid rule_type : Z) (w : world) :
  lookup_rule userid queryid rule_type w
  = rule_for (pgss_hash w) userid queryid (to_char rule_type).
Proof.
  unfold lookup_rule, __lookup_rule, rule_for.
  destruct (Z.eqb_spec userid InvalidOid) as [->|Hne]; cbn [negb].
  - destruct (pgss_hash w !! mkKey InvalidOid queryid (to_char rule_type));
      reflexivity.
  - destruct (pgss_hash w !! mkKey userid queryid (to_char rule_type));
      reflexivity.
Qed.

Lemma rule_for_Some (h : gmap pgssHashKey pgssEntry) (u q t : Z)
    (k : pgssHashKey) :
  rule_for h u q t = Some k ->
  is_Some (h !! k) /\ type k = t /\ queryid k = q.
Proof.
  unfold rule_for. intros H.
  destruct (h !! mkKey u q t) as [e|] eqn:He.
  - injection H as <-. rewrite He. eauto.
  - destruct (h !! mkKey InvalidOid q t) as [e|] eqn:He0; [|discriminate].
    injection H as <-. rewrite He0. eauto.
Qed.

(** X1: the Whitelist engine.  A statement is allowed exactly when the
    table holds a whitelist rule for the query, of the user or else of all
    users; [calls] is then counted on that rule alone.  Otherwise the
    statement is prohibited and the table is left as it is.  Blacklist
    rules are not looked at. *)
Theorem whitelist_engine (cfg : config) (userid queryid : Z) (w : world) :
  pgfw_rule_engine cfg = PGFW_ENGINE_WHITELIST ->
  entry_types_match (pgss_hash w) ->
  to_be_prohibited cfg userid queryid w
  = match rule_for (pgss_hash w) userid queryid PGFW_WHITELIST_ENTRY with
    | Some a => (Return false, set_hash w (alter incr_calls a (pgss_hash w)))
    | None => (Return true, w)
    end.
Proof.
  intros Heng Hm. unfold to_be_prohibited, __to_be_prohibited. rewrite Heng.
  unfold lookup_whitelist. rewrite lookup_rule_rule_for.
  change (to_char PGFW_WHITELIST_ENTRY) with PGFW_WHITELIST_ENTRY.
  destruct (rule_for (pgss_hash w) userid queryid PGFW_WHITELIST_ENTRY)
    as [a|] eqn:Ha.
  - apply rule_for_Some in Ha as (_ & Hty & _).
    cbn. rewrite count_entry_whitelist by assumption. reflexivity.
  - reflexivity.
Qed.

Lemma whitelist_engine_witness :
  to_be_prohibited (example_config PGFW_MODE_ENFORCING PGFW_ENGINE_WHITELIST 100)
                   10 42 world_with_rules
  = (Return false,
     set_hash world_with_rules
       (alter incr_calls (mkKey 10 42 PGFW_WHITELIST_ENTRY)
              (pgss_hash world_with_rules))).
Proof.
  rewrite (whitelist_engine
             (example_config PGFW_MODE_ENFORCING PGFW_ENGINE_WHITELIST 100)
             10 42 world_with_rules eq_refl types_match_before_restart).
  reflexivity.
Defined.

(** X2: the Blacklist engine.  A statement is prohibited exactly when the
    table holds a blacklist rule for the query, of the user or else of all
    users; [banned] is then counted on that rule alone.  Otherwise the
    statement is allowed and the table is left as it is.  Whitelist rules
    are not looked at. *)
Theorem blacklist_engine (cfg : config) (userid queryid : Z) (w : world) :
  pgfw_rule_engine cfg = PGFW_ENGINE_BLACKLIST ->
  entry_types_match (pgss_hash w) ->
  to_be_prohibited cfg userid queryid w
  = match rule_for (pgss_hash w) userid queryid PGFW_BLACKLIST_ENTRY with
    | Some b => (Return true, set_hash w (alter incr_banned b (pgss_hash w)))
    | None => (Return false, w)
    end.
Proof.
  intros Heng Hm. unfold to_be_prohibited, __to_be_prohibited. rewrite Heng.
  unfold lookup_blacklist. rewrite lookup_rule_rule_for.
  change (to_char PGFW_BLACKLIST_ENTRY) with PGFW_BLACKLIST_ENTRY.
  destruct (rule_for (pgss_hash w) userid queryid PGFW_BLACKLIST_ENTRY)
    as [b|] eqn:Hb.
  - apply rule_for_Some in Hb as (_ & Hty & _).
    cbn. rewrite count_entry_blacklist by assumption. reflexivity.
  - reflexivity.
Qed.

Lemma blacklist_engine_witness :
  to_be_prohibited (example_config PGFW_MODE_ENFORCING PGFW_ENGINE_BLACKLIST 100)
                   10 42 world_with_rules
  = (Return true,
     set_hash world_with_rules
       (alter incr_banned (mkKey 10 42 PGFW_BLACKLIST_ENTRY)
              (pgss_hash world_with_rules))).
Proof.
  rewrite (blacklist_engine
             (example_config PGFW_MODE_ENFORCING PGFW_ENGINE_BLACKLIST 100)
             10 42 world_with_rules eq_refl types_match_before_restart).
  reflexivity.
Defined.

(** ** Adding and deleting a rule *)

(** What [pgss_restore] does for a key that is not in the table, by the
    result of the write and the room in the table. *)
Lemma pgss_restore_new (cfg : config) (io : store_io)
    (userid queryid : Z) (query : list byte) (calls banned rule_type : Z)
    (w : world) :
  pgss_hash w !! mkKey userid queryid (to_char rule_type) = None ->
  let key := mkKey userid queryid (to_char rule_type) in
  let len := to_int (Z.of_nat (length query)) in
  let '(stored, off, _, w1) := qtext_store query len (io_write1 io) w in
  pgss_restore cfg io userid queryid query calls banned rule_type w
  = if negb stored then (Ereport ERR_could_not_store_query_text, w1)
    else if pgss_max cfg <=? Z.of_nat (size (pgss_hash w))
    then (Ereport ERR_could_not_allocate_entry,
          ereport_log w1 WARNING_max_exceeded)
    else
      let w3 := set_hash w1
                  (<[key := mkEntry (mkCounters calls banned) off len
                                    (GetDatabaseEncoding cfg) rule_type]>
                     (pgss_hash w)) in
      (Return true,
       if need_gc_qtexts cfg w3 then gc_qtexts cfg (io_gc io) w3 else w3).
Proof.
  intros Hnone. cbv zeta. unfold pgss_restore. rewrite Hnone. cbv zeta.
  pose proof (qtext_store_frame query (to_int (Z.of_nat (length query)))
                (io_write1 io) w) as F.
  destruct (qtext_store query (to_int (Z.of_nat (length query)))
                        (io_write1 io) w) as [[[stored off] gcc] w1].
  cbv zeta in F. cbn [fst snd] in F. destruct F as (_ & _ & Hh1 & _).
  destruct stored; cbn [negb]; [|reflexivity].
  unfold entry_alloc. rewrite Hh1.
  destruct (pgss_max cfg <=? Z.of_nat (size (pgss_hash w))); [reflexivity|].
  rewrite Hnone. cbn [set_hash pgss_hash pgss qtext_file rule_file
                      counter_file export_file server_log].
  rewrite alter_insert_eq. reflexivity.
Qed.

(** ** Texts in the query-text file *)

Lemma pwrite_length (f : list byte) (off : Z) (data : list byte) :
  length (pwrite f off data)
  = Nat.max (length f) (Z.to_nat off + length data).
Proof.
  unfold pwrite.
  rewrite !length_app, length_take, length_app, length_replicate, length_drop.
  lia.
Qed.

Lemma pwrite_lookup_below (f : list byte) (off : Z) (data : list byte)
    (i : nat) :
  (i < Z.to_nat off)%nat -> (i < length f)%nat ->
  pwrite f off data !! i = f !! i.
Proof.
  intros Hi Hf. unfold pwrite.
  rewrite lookup_app_l
    by (rewrite length_take, length_app, length_replicate; lia).
  rewrite lookup_take_lt by exact Hi.
  apply lookup_app_l. exact Hf.
Qed.

Lemma pwrite_lookup_data (f : list byte) (off : Z) (data : list byte)
    (i : nat) :
  (i < length data)%nat ->
  pwrite f off data !! (Z.to_nat off + i)%nat = data !! i.
Proof.
  intros Hi.
  rewrite <- (lookup_drop (pwrite f off data) (Z.to_nat off) i).
  rewrite pwrite_drop. apply lookup_app_l. exact Hi.
Qed.

(** Two files that agree below [n] hold the same text at every reference
    that ends below [n]. *)
Lemma text_bytes_agree (f f' : list byte) (n : nat) (off len : Z) :
  (forall i, (i < n)%nat -> f' !! i = f !! i) ->
  0 <= off -> 0 <= len -> off + len < Z.of_nat n ->
  text_bytes f' off len = text_bytes f off len.
Proof.
  intros Hagree Hoff Hlen Hn. unfold text_bytes.
  apply list_eq. intros i.
  destruct (decide (i < Z.to_nat (len + 1))%nat) as [Hi|Hi].
  - rewrite !lookup_take_lt by exact Hi. rewrite !lookup_drop.
    apply Hagree. lia.
  - rewrite !lookup_take_ge by lia. reflexivity.
Qed.

Lemma text_ref_ok_agree (f f' : list byte) (n : nat) (off len : Z) :
  (forall i, (i < n)%nat -> f' !! i = f !! i) ->
  off + len < Z.of_nat n ->
  text_ref_ok f off len -> text_ref_ok f' off len.
Proof.
  intros Hagree Hn (Hoff & Hlen & Hin & Hnul).
  assert (Hi : (Z.to_nat (off + len) < n)%nat) by lia.
  split; [exact Hoff|]. split; [exact Hlen|].
  assert (Hnul' : f' !! Z.to_nat (off + len) = Some x00)
    by (rewrite Hagree by exact Hi; exact Hnul).
  split; [|exact Hnul'].
  apply lookup_lt_Some in Hnul'. lia.
Qed.

Lemma qtext_fetch_ok (f : list byte) (off len : Z) :
  Z.of_nat (length f) < Size_max ->
  text_ref_ok f off len ->
  qtext_fetch off len (Some f) (Z.of_nat (length f)) = FetchPtr off.
Proof.
  intros Hsize (Hoff & Hlen & Hin & Hnul). unfold qtext_fetch.
  destruct (Z.ltb_spec len 0); [lia|]. cbn [orb].
  rewrite to_Size_small by lia.
  destruct (Z.leb_spec (Z.of_nat (length f)) (off + len)); [lia|].
  rewrite Hnul. reflexivity.
Qed.

Lemma text_bytes_length (f : list byte) (off len : Z) :
  0 <= off -> 0 <= len -> off + len < Z.of_nat (length f) ->
  length (text_bytes f off len) = Z.to_nat (len + 1).
Proof.
  intros Hoff Hlen Hin. unfold text_bytes.
  rewrite length_take, length_drop. lia.
Qed.

(** The state after a successful [qtext_store] of a C string. *)
Lemma qtext_store_ok (text : list byte) (w : world) :
  let len := to_int (Z.of_nat (length text)) in
  let f := default [] (qtext_file w) in
  Z.of_nat (length text) < INT_MAX ->
  0 <= extent (pgss w) ->
  extent (pgss w) + Z.of_nat (length text) + 1 < Size_max ->
  let '(stored, off, _, w1) := qtext_store text len WriteOk w in
  stored = true /\ off = extent (pgss w)
  /\ len = Z.of_nat (length text)
  /\ pgss_hash w1 = pgss_hash w
  /\ extent (pgss w1) = extent (pgss w) + Z.of_nat (length text) + 1
  /\ exists f1,
       qtext_file w1 = Some f1
       /\ f1 = pwrite f (extent (pgss w)) (text ++ [x00])
       /\ text_bytes f1 off len = text ++ [x00]
       /\ text_ref_ok f1 off len.
Proof.
  cbv zeta. intros Hlen Hext Hwrap. unfold INT_MAX in Hlen.
  rewrite (to_int_small (Z.of_nat (length text)))
    by (unfold INT_MAX; lia).
  unfold qtext_store.
  cbn [set_pgss set_qtext_file pgss qtext_file pgss_hash extent].
  rewrite (to_int_small (Z.of_nat (length text) + 1)) by (unfold INT_MAX; lia).
  rewrite to_Size_small by lia.
  assert (Hdata : take (Z.to_nat (Z.of_nat (length text) + 1)) (text ++ [x00])
                  = text ++ [x00]).
  { apply take_ge. rewrite length_app. simpl. lia. }
  rewrite Hdata.
  assert (Hf : match qtext_file w with Some f => f | None => [] end
               = default [] (qtext_file w))
    by (destruct (qtext_file w); reflexivity).
  rewrite Hf.
  set (f := default [] (qtext_file w)).
  set (f1 := pwrite f (extent (pgss w)) (text ++ [x00])).
  assert (Hdrop : drop (Z.to_nat (extent (pgss w))) f1
                  = (text ++ [x00])
                    ++ drop (Z.to_nat (extent (pgss w))
                             + length (text ++ [x00]))%nat f)
    by apply pwrite_drop.
  split; [reflexivity|]. split; [reflexivity|]. split; [reflexivity|].
  split; [reflexivity|]. split; [lia|].
  exists f1. split; [reflexivity|]. split; [reflexivity|].
  split.
  - unfold text_bytes. rewrite Hdrop.
    rewrite take_app_length'; [reflexivity|].
    rewrite length_app. simpl. lia.
  - split; [exact Hext|]. split; [unfold INT_MAX; lia|].
    assert (Hnul : f1 !! Z.to_nat (extent (pgss w) + Z.of_nat (length text))
                   = Some x00).
    { replace (Z.to_nat (extent (pgss w) + Z.of_nat (length text)))
        with (Z.to_nat (extent (pgss w)) + length text)%nat by lia.
      unfold f1. rewrite pwrite_lookup_data
        by (rewrite length_app; simpl; lia).
      rewrite lookup_app_r by lia.
      replace (length text - length text)%nat with 0%nat by lia.
      reflexivity. }
    split; [|exact Hnul].
    apply lookup_lt_Some in Hnul. lia.
Qed.

(** ** Garbage collection of the query-text file *)

Lemma text_bytes_app_exact (a b c : list byte) (len : Z) :
  length b = Z.to_nat (len + 1) ->
  text_bytes (a ++ b ++ c) (Z.of_nat (length a)) len = b.
Proof.
  intros Hb. unfold text_bytes. rewrite Nat2Z.id.
  rewrite drop_app_length. rewrite take_app_length'; [reflexivity | symmetry; exact Hb].
Qed.

(** The rewriting loop when every text is valid and no write fails: the
    file written is the texts one after the other, and every entry refers
    to its text in it. *)
Lemma gc_loop_texts (g : gc_io) (qbuffer : list byte) :
  gc_fwrite_fail g = None ->
  Z.of_nat (length qbuffer) < Size_max ->
  forall (l : list (pgssHashKey * pgssEntry)) (st : gc_state),
    NoDup l.*1 ->
    (forall k e, (k, e) ∈ l ->
                 text_ref_ok qbuffer (query_offset e) (query_len e)) ->
    gc_extent st = Z.of_nat (length (gc_written st)) ->
    Z.of_nat (length (gc_written st)) + Z.of_nat (length l) * 2 ^ 31
    < Size_max ->
    exists st' more,
      gc_loop g qbuffer st l = (st', true)
      /\ gc_extent st' = Z.of_nat (length (gc_written st'))
      /\ gc_written st' = gc_written st ++ more
      /\ Z.of_nat (length more) <= Z.of_nat (length l) * 2 ^ 31
      /\ (forall k, k ∉ l.*1 -> gc_hash st' !! k = gc_hash st !! k)
      /\ (forall k e, (k, e) ∈ l ->
            exists off,
              gc_hash st' !! k = Some (set_text e off (query_len e))
              /\ Z.of_nat (length (gc_written st)) <= off
              /\ off + query_len e < Z.of_nat (length (gc_written st'))
              /\ text_bytes (gc_written st') off (query_len e)
                 = text_bytes qbuffer (query_offset e) (query_len e)).
Proof.
  intros Hnofail Hsize.
  induction l as [|[k e] l IH]; intros st Hnd Hok Hext Hbound.
  - exists st, []. cbn [gc_loop]. rewrite app_nil_r.
    split; [reflexivity|]. split; [exact Hext|]. split; [reflexivity|].
    split; [simpl; lia|]. split; [reflexivity|].
    intros k e Hin. apply elem_of_nil in Hin. contradiction.
  - cbn [gc_loop].
    assert (Hke : text_ref_ok qbuffer (query_offset e) (query_len e))
      by (apply (Hok k); apply elem_of_cons; auto).
    rewrite (qtext_fetch_ok qbuffer _ _ Hsize Hke).
    rewrite Hnofail.
    destruct (decide (None = Some (gc_nentries st))) as [Hd|_];
      [discriminate|].
    destruct Hke as (Hoff & Hlen & Hin & Hnul).
    set (chunk := take (Z.to_nat (query_len e + 1))
                       (drop (Z.to_nat (query_offset e)) qbuffer)).
    assert (Hchunk : length chunk = Z.to_nat (query_len e + 1)).
    { unfold chunk. rewrite length_take, length_drop. lia. }
    set (st1 := mkGc _ _ _ _).
    cbn [fmap list_fmap fst] in Hnd. apply NoDup_cons in Hnd as [Hk Hnd].
    cbn [length] in Hbound. rewrite Nat2Z.inj_succ in Hbound.
    unfold INT_MAX in Hlen.
    assert (Hext1 : gc_extent st1 = Z.of_nat (length (gc_written st1))).
    { unfold st1. cbn [gc_extent gc_written].
      rewrite length_app, Hchunk, Hext.
      rewrite to_int_small by (unfold INT_MAX; lia).
      rewrite to_Size_small by (unfold Size_max in *; lia). lia. }
    destruct (IH st1 Hnd) as (st' & more & Hrun & Hext' & Hwr & Hmore & Hout & Hin').
    { intros k' e' H'. apply (Hok k'). apply elem_of_cons. auto. }
    { exact Hext1. }
    { unfold st1. cbn [gc_written]. rewrite length_app, Hchunk. lia. }
    exists st', (chunk ++ more).
    split; [exact Hrun|]. split; [exact Hext'|].
    split; [rewrite Hwr; unfold st1; cbn [gc_written];
            rewrite <- app_assoc; reflexivity|].
    split; [rewrite length_app, Hchunk; cbn [length];
            rewrite Nat2Z.inj_succ; lia|].
    split.
    + intros k' Hk'. cbn [fmap list_fmap fst] in Hk'.
      apply not_elem_of_cons in Hk' as [Hne Hk'].
      rewrite (Hout k' Hk'). unfold st1. cbn [gc_hash].
      apply lookup_insert_ne. congruence.
    + intros k' e' H'. apply elem_of_cons in H' as [Heq|H'].
      * injection Heq as -> ->.
        exists (gc_extent st).
        split; [rewrite (Hout k Hk); unfold st1; cbn [gc_hash];
                apply lookup_insert_eq|].
        split; [lia|].
        rewrite Hwr. unfold st1. cbn [gc_written].
        split; [rewrite !length_app, Hchunk; lia|].
        rewrite <- app_assoc, Hext.
        apply text_bytes_app_exact. exact Hchunk.
      * destruct (Hin' k' e' H') as (off & Hlk & Hge & Hlt & Htxt).
        exists off. split; [exact Hlk|].
        split; [unfold st1 in Hge; cbn [gc_written] in Hge;
                rewrite length_app in Hge; lia|].
        split; [exact Hlt | exact Htxt].
Qed.

Lemma text_bytes_lookup (f : list byte) (off len : Z) (i : nat) :
  0 <= off -> (i < Z.to_nat (len + 1))%nat ->
  text_bytes f off len !! i = f !! (Z.to_nat off + i)%nat.
Proof.
  intros Hoff Hi. unfold text_bytes.
  rewrite lookup_take_lt by exact Hi. apply lookup_drop.
Qed.

Lemma text_ref_ok_same_text (f f' : list byte) (off off' len : Z) :
  text_ref_ok f off len ->
  0 <= off' -> off' + len < Z.of_nat (length f') ->
  text_bytes f' off' len = text_bytes f off len ->
  text_ref_ok f' off' len.
Proof.
  intros (Hoff & Hlen & Hin & Hnul) Hoff' Hin' Htxt.
  split; [exact Hoff'|]. split; [exact Hlen|]. split; [exact Hin'|].
  replace (Z.to_nat (off' + len)) with (Z.to_nat off' + Z.to_nat len)%nat
    by lia.
  rewrite <- (text_bytes_lookup f' off' len) by lia.
  rewrite Htxt, text_bytes_lookup by lia.
  rewrite <- Hnul. f_equal. lia.
Qed.

(** A garbage collection whose system calls succeed, on a table whose
    texts are all valid. *)
Lemma gc_qtexts_texts (cfg : config) (g : gc_io) (w : world) :
  texts_valid w ->
  Z.of_nat (size (pgss_hash w)) <= INT_MAX ->
  gc_io_ok g ->
  texts_valid (gc_qtexts cfg g w)
  /\ texts_of (gc_qtexts cfg g w) = texts_of w
  /\ (need_gc_qtexts cfg w = true ->
      exists f',
        qtext_file (gc_qtexts cfg g w) = Some f'
        /\ extent (pgss (gc_qtexts cfg g w)) = Z.of_nat (length f')
        /\ gc_count (pgss (gc_qtexts cfg g w)) = to_int (gc_count (pgss w) + 1)).
Proof.
  intros Hv Hsz (Hload & Hopen & Hfw & Hclose).
  unfold gc_qtexts.
  destruct (need_gc_qtexts cfg w); cbn [negb].
  2: { split; [exact Hv|]. split; [reflexivity | discriminate]. }
  destruct Hv as (f & Hf & Hflen & Hext & Hents).
  unfold qtext_load_file. rewrite Hf, Hload, Hopen. cbn [negb].
  destruct (gc_loop_texts g f Hfw Hflen (hash_seq (pgss_hash w))
              (mkGc (pgss_hash w) 0 0 []))
    as (st' & more & Hrun & Hext' & Hwr & Hmore & Hout & Hin).
  { apply NoDup_fst_map_to_list. }
  { intros k e Hke. apply elem_of_map_to_list in Hke.
    apply (Hents k e Hke). }
  { reflexivity. }
  { cbn [gc_written length]. unfold hash_seq.
    rewrite length_map_to_list. unfold Size_max, INT_MAX in *. lia. }
  rewrite Hrun, Hclose. cbn [negb].
  cbn [gc_written app] in Hwr. subst more.
  unfold hash_seq in Hmore. rewrite length_map_to_list in Hmore.
  assert (Hkeys : forall k e',
             gc_hash st' !! k = Some e' ->
             exists e off,
               pgss_hash w !! k = Some e
               /\ e' = set_text e off (query_len e)
               /\ 0 <= off
               /\ off + query_len e < Z.of_nat (length (gc_written st'))
               /\ text_bytes (gc_written st') off (query_len e)
                  = text_bytes f (query_offset e) (query_len e)).
  { intros k e' He'.
    destruct (pgss_hash w !! k) as [e|] eqn:He.
    - destruct (Hin k e) as (off & Hlk & Hge & Hlt & Htxt).
      { apply elem_of_map_to_list. exact He. }
      exists e, off. rewrite Hlk in He'. injection He' as <-.
      cbn [gc_written length] in Hge.
      split; [reflexivity|]. split; [reflexivity|].
      split; [lia|]. split; [exact Hlt | exact Htxt].
    - rewrite Hout in He'; [cbn [gc_hash] in He'; congruence|].
      intros Hk. apply list_elem_of_fmap in Hk as ([k' e0] & -> & Hk).
      apply elem_of_map_to_list in Hk. cbn [fst] in He. congruence. }
  split; [|split].
  - exists (gc_written st').
    cbn [record_gc_qtexts set_pgss set_qtext_file set_hash qtext_file pgss
         pgss_hash extent].
    split; [reflexivity|].
    split; [unfold Size_max, INT_MAX in *; lia|].
    split; [lia|].
    intros k e' He'.
    destruct (Hkeys k e' He') as (e & off & He & -> & Hoff & Hlt & Htxt).
    cbn [set_text query_offset query_len].
    split; [|lia].
    apply (text_ref_ok_same_text f _ (query_offset e)); try assumption.
    apply (Hents k e He).
  - unfold texts_of.
    cbn [record_gc_qtexts set_pgss set_qtext_file set_hash qtext_file pgss
         pgss_hash default]. rewrite Hf. cbn [default].
    apply map_eq. intros k. rewrite !lookup_fmap.
    destruct (pgss_hash w !! k) as [e|] eqn:He.
    + destruct (Hin k e) as (off & Hlk & Hge & Hlt & Htxt).
      { apply elem_of_map_to_list. exact He. }
      rewrite Hlk. cbn [fmap option_fmap option_map]. f_equal.
      unfold entry_text. cbn [set_text query_offset query_len]. exact Htxt.
    + rewrite Hout; [cbn [gc_hash]; rewrite He; reflexivity|].
      intros Hk. apply list_elem_of_fmap in Hk as ([k' e0] & -> & Hk).
      apply elem_of_map_to_list in Hk. cbn [fst] in He. congruence.
  - intros _. exists (gc_written st').
    cbn [record_gc_qtexts set_pgss set_qtext_file set_hash qtext_file pgss
         pgss_hash extent gc_count].
    destruct (gc_ftruncate_ok g); cbn; auto.
Qed.

(** ** Adding a rule: the table and the texts *)

Lemma texts_valid_insert (w w1 : world) (f : list byte) (text : list byte)
    (key : pgssHashKey) (e : pgssEntry) :
  texts_valid w ->
  qtext_file w = Some f ->
  Z.of_nat (length text) < INT_MAX ->
  extent (pgss w) + Z.of_nat (length text) + 1 < Size_max ->
  qtext_file w1 = Some (pwrite f (extent (pgss w)) (text ++ [x00])) ->
  extent (pgss w1) = extent (pgss w) + Z.of_nat (length text) + 1 ->
  pgss_hash w1 = <[key := e]> (pgss_hash w) ->
  query_offset e = extent (pgss w) ->
  query_len e = Z.of_nat (length text) ->
  text_ref_ok (pwrite f (extent (pgss w)) (text ++ [x00]))
              (extent (pgss w)) (Z.of_nat (length text)) ->
  text_bytes (pwrite f (extent (pgss w)) (text ++ [x00]))
             (extent (pgss w)) (Z.of_nat (length text)) = text ++ [x00] ->
  texts_valid w1
  /\ texts_of w1 = <[key := text ++ [x00]]> (texts_of w).
Proof.
  intros (f0 & Hf0 & Hflen & Hext & Hents) Hf Hlen Hwrap Hf1 Hext1 Hh1
         Hoff Hqlen Hok Htxt.
  rewrite Hf in Hf0. injection Hf0 as <-.
  set (f1 := pwrite f (extent (pgss w)) (text ++ [x00])) in *.
  set (n := Nat.min (Z.to_nat (extent (pgss w))) (length f)).
  assert (Hagree : forall i, (i < n)%nat -> f1 !! i = f !! i).
  { intros i Hi. apply pwrite_lookup_below; lia. }
  split.
  - exists f1. split; [exact Hf1|].
    split.
    { unfold f1. rewrite pwrite_length, length_app. cbn [length].
      unfold Size_max in *. lia. }
    split; [lia|].
    intros k e' He'. rewrite Hh1 in He'.
    destruct (decide (key = k)) as [<-|Hne].
    + rewrite lookup_insert_eq in He'. injection He' as <-.
      rewrite Hoff, Hqlen. split; [exact Hok | lia].
    + rewrite lookup_insert_ne in He' by exact Hne.
      destruct (Hents k e' He') as [Hr Hlt].
      split; [|lia].
      apply (text_ref_ok_agree f f1 n); [exact Hagree | | exact Hr].
      destruct Hr as (? & ? & ? & ?). lia.
  - unfold texts_of. rewrite Hf1, Hf, Hh1. cbn [default].
    rewrite fmap_insert. f_equal.
    + unfold entry_text. rewrite Hoff, Hqlen. exact Htxt.
    + apply map_fmap_ext. intros k e' He'.
      destruct (Hents k e' He') as [(? & ? & ? & ?) Hlt].
      unfold entry_text. apply (text_bytes_agree f f1 n); try lia.
      exact Hagree.
Qed.

(** A successful [pgss_restore] of a rule that is not in the table, up to
    the garbage collection at its end. *)
Lemma pgss_restore_texts_pre (cfg : config) (io : store_io)
    (userid queryid : Z) (query : list byte) (calls banned rule_type : Z)
    (w : world) :
  let key := mkKey userid queryid (to_char rule_type) in
  pgss_hash w !! key = None ->
  texts_valid w ->
  io_write1 io = WriteOk ->
  Z.of_nat (size (pgss_hash w)) < pgss_max cfg ->
  Z.of_nat (length query) < INT_MAX ->
  extent (pgss w) + Z.of_nat (length query) + 1 < Size_max ->
  exists w3,
    pgss_restore cfg io userid queryid query calls banned rule_type w
    = (Return true,
       if need_gc_qtexts cfg w3 then gc_qtexts cfg (io_gc io) w3 else w3)
    /\ texts_valid w3
    /\ texts_of w3 = <[key := query ++ [x00]]> (texts_of w)
    /\ rules_of w3
       = <[key := (mkCounters calls banned, GetDatabaseEncoding cfg,
                   rule_type)]> (rules_of w)
    /\ size (pgss_hash w3) = S (size (pgss_hash w)).
Proof.
  cbv zeta. intros Hnone Hv Hwr Hroom Hlen Hwrap.
  pose proof (pgss_restore_new cfg io userid queryid query calls banned
                rule_type w Hnone) as Hrun.
  assert (Hext : 0 <= extent (pgss w))
    by (destruct Hv as (? & ? & ? & ? & ?); assumption).
  pose proof (qtext_store_ok query w Hlen Hext Hwrap) as Hst.
  cbv zeta in Hrun, Hst. rewrite Hwr in Hrun.
  destruct (qtext_store query (to_int (Z.of_nat (length query))) WriteOk w)
    as [[[stored off] gcc] w1].
  destruct Hst as (-> & -> & Hqlen & Hh1 & Hext1 & f1 & Hf1 & -> & Htxt & Hok).
  cbn [negb] in Hrun.
  destruct (Z.leb_spec (pgss_max cfg) (Z.of_nat (size (pgss_hash w))));
    [lia|].
  rewrite Hqlen in *.
  set (key := mkKey userid queryid (to_char rule_type)) in *.
  set (e := mkEntry (mkCounters calls banned) (extent (pgss w))
                    (Z.of_nat (length query)) (GetDatabaseEncoding cfg)
                    rule_type) in *.
  set (w3 := set_hash w1 (<[key := e]> (pgss_hash w))) in *.
  destruct Hv as (f & Hf & Hv').
  rewrite Hf in Hf1, Htxt, Hok. cbn [default] in Hf1, Htxt, Hok.
  destruct (texts_valid_insert w w3 f query key e) as [Hv3 Ht3];
    try assumption; try reflexivity.
  { exists f. split; assumption. }
  exists w3. split; [exact Hrun|]. split; [exact Hv3|]. split; [exact Ht3|].
  split.
  - unfold rules_of, w3. cbn [set_hash pgss_hash].
    rewrite fmap_insert. reflexivity.
  - unfold w3. cbn [set_hash pgss_hash].
    apply map_size_insert_None. exact Hnone.
Qed.

(** A successful [pgss_restore] of a rule that is not in the table. *)
Lemma pgss_restore_texts (cfg : config) (io : store_io)
    (userid queryid : Z) (query : list byte) (calls banned rule_type : Z)
    (w : world) :
  let key := mkKey userid queryid (to_char rule_type) in
  pgss_hash w !! key = None ->
  texts_valid w ->
  io_write1 io = WriteOk ->
  gc_io_ok (io_gc io) ->
  Z.of_nat (size (pgss_hash w)) < pgss_max cfg ->
  pgss_max cfg <= INT_MAX ->
  Z.of_nat (length query) < INT_MAX ->
  extent (pgss w) + Z.of_nat (length query) + 1 < Size_max ->
  exists w',
    pgss_restore cfg io userid queryid query calls banned rule_type w
    = (Return true, w')
    /\ texts_valid w'
    /\ texts_of w' = <[key := query ++ [x00]]> (texts_of w)
    /\ rules_of w'
       = <[key := (mkCounters calls banned, GetDatabaseEncoding cfg,
                   rule_type)]> (rules_of w).
Proof.
  cbv zeta. intros Hnone Hv Hwr Hgc Hroom Hmax Hlen Hwrap.
  destruct (pgss_restore_texts_pre cfg io userid queryid query calls banned
              rule_type w Hnone Hv Hwr Hroom Hlen Hwrap)
    as (w3 & Hrun & Hv3 & Ht3 & Hr3 & Hs3).
  eexists. split; [exact Hrun|].
  destruct (need_gc_qtexts cfg w3).
  - destruct (gc_qtexts_texts cfg (io_gc io) w3 Hv3) as (Hv4 & Ht4 & _).
    { rewrite Hs3. lia. }
    { exact Hgc. }
    split; [exact Hv4|]. split; [rewrite Ht4; exact Ht3|].
    rewrite gc_qtexts_rules. exact Hr3.
  - split; [exact Hv3|]. split; [exact Ht3 | exact Hr3].
Qed.

(** ** Export of a table with valid texts *)

Lemma c_string_at_ok (f : list byte) (off len : Z) :
  text_ref_ok f off len ->
  exists s, c_string_at f off = Some s /\ Z.of_nat (length s) <= len.
Proof.
  intros (Hoff & Hlen & Hin & Hnul).
  assert (Hdrop : drop (Z.to_nat off) f !! Z.to_nat len = Some x00).
  { rewrite lookup_drop, <- Hnul. f_equal. lia. }
  destruct (c_string_terminated _ _ Hdrop) as (s & rest & Hs & _ & _ & Hn).
  exists s. split; [|lia].
  unfold c_string_at.
  destruct (Z.leb_spec 0 off); [|lia].
  destruct (Z.ltb_spec off (Z.of_nat (length f))); [|lia].
  exact Hs.
Qed.

Lemma export_loop_ok (h : host) (f : list byte)
    (l : list (pgssHashKey * pgssEntry)) :
  Z.of_nat (length f) < Size_max ->
  (forall k e, (k, e) ∈ l ->
               text_ref_ok f (query_offset e) (query_len e)
               /\ text_converts h f e) ->
  export_loop h (Some f) (Z.of_nat (length f)) l
  = (export_row f <$> l, Return tt).
Proof.
  intros Hsize. induction l as [|[k e] l IH]; intros Hok.
  - reflexivity.
  - cbn [export_loop].
    assert (Hke : text_ref_ok f (query_offset e) (query_len e)
                  /\ text_converts h f e)
      by (apply (Hok k); apply elem_of_cons; auto).
    destruct Hke as [Hke Hconv].
    rewrite (qtext_fetch_ok f _ _ Hsize Hke).
    change (default [] (Some f)) with f.
    destruct (c_string_at_ok f _ _ Hke) as (s & Hs & _).
    rewrite IH by (intros k' e' H'; apply (Hok k'); apply elem_of_cons; auto).
    cbn [fmap list_fmap export_row]. rewrite Hs.
    unfold text_converts in Hconv.
    destruct (pg_any_to_server h _ _ _); [congruence | reflexivity
                                          | reflexivity].
Qed.

(** The loop stops at the first text that the conversion rejects. *)
Lemma export_loop_conversion_error (h : host) (f : list byte)
    (l1 l2 : list (pgssHashKey * pgssEntry)) (k : pgssHashKey)
    (e : pgssEntry) :
  Z.of_nat (length f) < Size_max ->
  (forall k' e', (k', e') ∈ l1 ->
                 text_ref_ok f (query_offset e') (query_len e')
                 /\ text_converts h f e') ->
  text_ref_ok f (query_offset e) (query_len e) ->
  ~ text_converts h f e ->
  export_loop h (Some f) (Z.of_nat (length f)) (l1 ++ (k, e) :: l2)
  = (export_row f <$> l1, Ereport ERR_encoding_conversion).
Proof.
  intros Hsize. induction l1 as [|[k1 e1] l1 IH]; intros Hok Hke Hbad.
  - cbn [app export_loop fmap list_fmap].
    rewrite (qtext_fetch_ok f _ _ Hsize Hke).
    change (default [] (Some f)) with f.
    unfold text_converts in Hbad.
    destruct (pg_any_to_server h _ _ _); [reflexivity | |];
      exfalso; apply Hbad; discriminate.
  - cbn [app export_loop].
    assert (H1 : text_ref_ok f (query_offset e1) (query_len e1)
                 /\ text_converts h f e1)
      by (apply (Hok k1); apply elem_of_cons; auto).
    destruct H1 as [H1 Hconv].
    rewrite (qtext_fetch_ok f _ _ Hsize H1).
    change (default [] (Some f)) with f.
    destruct (c_string_at_ok f _ _ H1) as (s & Hs & _).
    rewrite IH; try assumption;
      [|intros k' e' H'; apply (Hok k'); apply elem_of_cons; auto].
    cbn [fmap list_fmap export_row]. rewrite Hs.
    unfold text_converts in Hconv.
    destruct (pg_any_to_server h _ _ _); [congruence | reflexivity
                                          | reflexivity].
Qed.

(** ** Saving the rules and loading them at startup *)

Lemma dump_loop_ok (d : dump_io) (f : list byte)
    (l : list (pgssHashKey * pgssEntry)) (written : Z) :
  d_fwrite_fail d = None ->
  Z.of_nat (length f) < Size_max ->
  (forall k e, (k, e) ∈ l ->
               text_ref_ok f (query_offset e) (query_len e)) ->
  dump_loop d f written l = Some (dump_record f <$> l).
Proof.
  intros Hnofail Hsize. revert written.
  induction l as [|[k e] l IH]; intros written Hok.
  - reflexivity.
  - cbn [dump_loop].
    assert (Hke : text_ref_ok f (query_offset e) (query_len e))
      by (apply (Hok k); apply elem_of_cons; auto).
    rewrite (qtext_fetch_ok f _ _ Hsize Hke), Hnofail.
    destruct (decide (None = Some written)); [discriminate|].
    rewrite IH by (intros k' e' H'; apply (Hok k'); apply elem_of_cons; auto).
    reflexivity.
Qed.

Lemma take_snoc_nul (t : list byte) (len : Z) :
  0 <= len ->
  length t = Z.to_nat (len + 1) ->
  t !! Z.to_nat len = Some x00 ->
  take (Z.to_nat (len + 1)) (take (Z.to_nat len) t ++ [x00]) = t.
Proof.
  intros Hlen Ht Hnul.
  assert (Heq : take (Z.to_nat len) t ++ [x00] = t).
  { rewrite <- (take_drop (Z.to_nat len) t) at 2. f_equal.
    apply list_eq. intros [|i].
    - rewrite lookup_drop, Nat.add_0_r. symmetry. exact Hnul.
    - rewrite lookup_drop. simpl.
      symmetry. apply lookup_ge_None. lia. }
  rewrite Heq. apply take_ge. lia.
Qed.

(** The loading loop on records with distinct keys that are not in the
    table, with valid encodings and terminated texts, when no write fails
    and the table has room for all of them. *)
Lemma startup_loop_texts (h : host) (cfg : config) (io : startup_io) :
  s_fwrite_fail io = None ->
  forall (rs : list stat_record) (i n buffer_size : Z) (w : world)
         (f : list byte),
    NoDup (temp_key <$> rs) ->
    (forall r, r ∈ rs -> pgss_hash w !! temp_key r = None) ->
    (forall r, r ∈ rs ->
               PG_VALID_BE_ENCODING h (encoding (temp r)) = true
               /\ 0 <= query_len (temp r) < INT_MAX
               /\ length (temp_text r) = Z.to_nat (query_len (temp r) + 1)
               /\ temp_text r !! Z.to_nat (query_len (temp r)) = Some x00) ->
    qtext_file w = Some f ->
    extent (pgss w) = Z.of_nat (length f) ->
    0 <= i -> i + Z.of_nat (length rs) = n -> n <= INT_MAX ->
    Z.of_nat (size (pgss_hash w)) + Z.of_nat (length rs) <= pgss_max cfg ->
    Z.of_nat (length f) + Z.of_nat (length rs) * 2 ^ 31 < Size_max ->
    exists w' more,
      startup_loop h cfg io i n buffer_size rs w = (load_done, w')
      /\ qtext_file w' = Some (f ++ more)
      /\ extent (pgss w') = Z.of_nat (length (f ++ more))
      /\ Z.of_nat (length more) <= Z.of_nat (length rs) * 2 ^ 31
      /\ error_count (pgss w') = error_count (pgss w)
      /\ warning_count (pgss w') = warning_count (pgss w)
      /\ counter_file w' = counter_file w
      /\ rule_file w' = rule_file w
      /\ server_log w' = server_log w
      /\ (forall k, k ∉ temp_key <$> rs ->
                    pgss_hash w' !! k = pgss_hash w !! k)
      /\ (forall r, r ∈ rs ->
            exists off,
              pgss_hash w' !! temp_key r
              = Some (mkEntry (counters (temp r)) off (query_len (temp r))
                              (encoding (temp r)) (s_uninit io))
              /\ Z.of_nat (length f) <= off
              /\ off + query_len (temp r) < Z.of_nat (length (f ++ more))
              /\ text_bytes (f ++ more) off (query_len (temp r))
                 = temp_text r).
Proof.
  intros Hnofail.
  induction rs as [|r rs IH];
    intros i n buffer_size w f Hnd Hnew Hrec Hf Hext Hi Hn Hmax Hroom Hbound.
  - exists w, []. cbn [startup_loop]. cbn [length] in Hn.
    destruct (Z.ltb_spec i n); [lia|]. rewrite app_nil_r.
    split; [reflexivity|]. split; [exact Hf|]. split; [exact Hext|].
    split; [simpl; lia|]. repeat (split; [reflexivity|]).
    intros r Hr. apply elem_of_nil in Hr. contradiction.
  - cbn [length] in Hn, Hroom, Hbound. rewrite Nat2Z.inj_succ in Hn, Hroom, Hbound.
    destruct (Hrec r) as (Henc & Hlen & Htlen & Hnul);
      [apply elem_of_cons; auto|].
    cbn [fmap list_fmap] in Hnd. apply NoDup_cons in Hnd as [Hr Hnd].
    cbn [startup_loop].
    destruct (Z.ltb_spec i n); [|lia]. cbn [negb].
    rewrite Henc. cbn [negb]. cbv zeta.
    unfold INT_MAX in Hlen.
    rewrite (to_int_small (query_len (temp r) + 1)) by (unfold INT_MAX; lia).
    destruct (Z.ltb_spec (query_len (temp r) + 1) 0); [lia|].
    destruct (Z.ltb_spec (Z.of_nat (length (temp_text r)))
                         (query_len (temp r) + 1)); [lia|].
    destruct (Z.ltb_spec (query_len (temp r)) 0); [lia|].
    rewrite Hnofail.
    destruct (decide (None = Some i)); [discriminate|].
    rewrite Hf.
    rewrite take_snoc_nul by (try assumption; lia).
    rewrite Hext.
    rewrite to_Size_small by (unfold Size_max in *; lia).
    unfold entry_alloc.
    cbn [set_pgss set_qtext_file pgss_hash pgss qtext_file].
    destruct (Z.leb_spec (pgss_max cfg) (Z.of_nat (size (pgss_hash w))));
      [lia|].
    rewrite (Hnew r) by (apply elem_of_cons; auto).
    cbn [set_hash pgss_hash]. rewrite alter_insert_eq.
    cbn [set_counters counters query_offset query_len encoding entry_type].
    rewrite (to_int_small (i + 1)) by (unfold INT_MAX in *; lia).
    set (e := mkEntry (counters (temp r)) (Z.of_nat (length f))
                      (query_len (temp r)) (encoding (temp r)) (s_uninit io)).
    set (w1 := set_hash _ _).
    destruct (IH (i + 1) n (resize_buffer buffer_size (query_len (temp r)))
                 w1 (f ++ temp_text r) Hnd)
      as (w' & more & Hrun & Hf' & Hext' & Hmore & Herr & Hwarn & Hcf & Hrf
          & Hlog & Hout & Hin).
    { intros r' Hr'. unfold w1. cbn [set_hash pgss_hash].
      rewrite lookup_insert_ne.
      - apply Hnew. apply elem_of_cons. auto.
      - intros Heq. apply Hr. rewrite Heq.
        apply list_elem_of_fmap_2. exact Hr'. }
    { intros r' Hr'. apply Hrec. apply elem_of_cons. auto. }
    { reflexivity. }
    { unfold w1. cbn [set_hash set_pgss set_qtext_file pgss extent].
      rewrite length_app, Htlen. lia. }
    { lia. }
    { lia. }
    { exact Hmax. }
    { unfold w1. cbn [set_hash pgss_hash].
      rewrite map_size_insert_None by (apply Hnew; apply elem_of_cons; auto).
      lia. }
    { rewrite length_app, Htlen. lia. }
    exists w', (temp_text r ++ more).
    rewrite app_assoc.
    split; [exact Hrun|]. split; [exact Hf'|]. split; [exact Hext'|].
    split; [rewrite length_app, Htlen; cbn [length];
            rewrite Nat2Z.inj_succ; lia|].
    split; [exact Herr|]. split; [exact Hwarn|]. split; [exact Hcf|].
    split; [exact Hrf|]. split; [exact Hlog|].
    split.
    + intros k Hk. cbn [fmap list_fmap] in Hk.
      apply not_elem_of_cons in Hk as [Hne Hk].
      rewrite (Hout k Hk). unfold w1. cbn [set_hash pgss_hash].
      apply lookup_insert_ne. congruence.
    + intros r' Hr'. apply elem_of_cons in Hr' as [->|Hr'].
      * exists (Z.of_nat (length f)).
        split; [rewrite (Hout _ Hr); unfold w1; cbn [set_hash pgss_hash];
                apply lookup_insert_eq|].
        split; [lia|].
        split; [rewrite !length_app, Htlen; lia|].
        rewrite <- app_assoc.
        apply text_bytes_app_exact. exact Htlen.
      * destruct (Hin r' Hr') as (off & Hlk & Hge & Hlt & Htxt).
        exists off. split; [exact Hlk|].
        split; [rewrite length_app in Hge; lia|].
        split; [exact Hlt | exact Htxt].
Qed.

Lemma update_firewall_rule_file_ok (h : host) (d : dump_io) (w : world)
    (f : list byte) :
  dump_io_ok d ->
  qtext_file w = Some f ->
  Z.of_nat (length f) < Size_max ->
  (forall k e, pgss_hash w !! k = Some e ->
               text_ref_ok f (query_offset e) (query_len e)) ->
  update_firewall_rule_file h d w
  = set_rule_file w
      (Some (mkStatFile PGSS_FILE_HEADER (PGSS_PG_MAJOR_VERSION h)
                        (to_int (Z.of_nat (size (pgss_hash w))))
                        (dump_record f <$> hash_seq (pgss_hash w)))).
Proof.
  intros (Hopen & Hhead & Hload & Hfw & Hclose & Hren) Hf Hsize Hok.
  unfold update_firewall_rule_file, qtext_load_file.
  rewrite Hopen, Hhead, Hload, Hf. cbn [negb].
  rewrite (dump_loop_ok d f _ 0 Hfw Hsize).
  - rewrite Hclose, Hren. reflexivity.
  - intros k e Hke. apply elem_of_map_to_list in Hke. apply (Hok k e Hke).
Qed.

Lemma temp_key_dump_record (f : list byte)
    (l : list (pgssHashKey * pgssEntry)) :
  temp_key <$> (dump_record f <$> l) = l.*1.
Proof.
  rewrite <- list_fmap_compose. apply list_fmap_ext. intros i [k e] _.
  reflexivity.
Qed.

(** The state after an orderly shutdown and the next startup. *)
Lemma restart_state (h : host) (cfg : config) (d : dump_io)
    (sio : startup_io) (w : world) :
  loaded cfg = true ->
  texts_valid w ->
  Z.of_nat (size (pgss_hash w)) <= pgss_max cfg ->
  pgss_max cfg <= INT_MAX ->
  (forall k e, pgss_hash w !! k = Some e ->
               PG_VALID_BE_ENCODING h (encoding e) = true) ->
  dump_io_ok d ->
  startup_io_ok sio ->
  let r := pgss_shmem_startup h cfg sio
             (pgss_shmem_shutdown h cfg 0 d true true w) in
  let w' := snd r in
  fst r = startup_returns
  /\ texts_valid w'
  /\ texts_of w' = texts_of w
  /\ (forall k,
        pgss_hash w' !! k
        = (fun e => mkEntry (counters e)
                            (default 0 (query_offset <$> pgss_hash w' !! k))
                            (query_len e) (encoding e) (s_uninit sio))
          <$> pgss_hash w !! k)
  /\ error_count (pgss w') = error_count (pgss w)
  /\ warning_count (pgss w') = warning_count (pgss w)
  /\ counter_file w' = None
  /\ (exists f', qtext_file w' = Some f'
                 /\ extent (pgss w') = Z.of_nat (length f')).
Proof.
  intros Hloaded Hv Hsz Hmax Henc Hd
         (Hfound & Hqopen & Hfopen & Hfw & Hcopen & Hcscan).
  destruct Hv as (f & Hf & Hflen & Hext & Hents).
  cbv zeta.
  set (file := mkStatFile PGSS_FILE_HEADER (PGSS_PG_MAJOR_VERSION h)
                 (to_int (Z.of_nat (size (pgss_hash w))))
                 (dump_record f <$> hash_seq (pgss_hash w))).
  assert (Hws : pgss_shmem_shutdown h cfg 0 d true true w
                = ereport_log
                    (set_qtext_file
                       (set_counter_file
                          (set_rule_file w (Some file))
                          (Some (warning_count (pgss w), error_count (pgss w))))
                       None)
                    LOG_stat_file_updated).
  { unfold pgss_shmem_shutdown. rewrite Hloaded.
    change (negb (0 =? 0)) with false. cbn [negb pgss_save].
    rewrite (update_firewall_rule_file_ok h d w f Hd Hf Hflen)
      by (intros k e He; apply (Hents k e He)).
    reflexivity. }
  rewrite Hws. clear Hws.
  set (ws := ereport_log _ _).
  set (w2 := set_qtext_file
               (set_qtext_file
                  (set_hash (set_pgss ws (mkShared ASSUMED_LENGTH_INIT 0 0 0 0 0))
                            ∅)
                  None)
               (Some [])).
  set (l := hash_seq (pgss_hash w)).
  assert (Hlen_l : length l = size (pgss_hash w))
    by apply length_map_to_list.
  unfold INT_MAX in Hmax.
  destruct (startup_loop_texts h cfg sio Hfw (dump_record f <$> l) 0
              (to_int (Z.of_nat (size (pgss_hash w)))) 2048 w2 [])
    as (w3 & more & Hrun & Hf3 & Hext3 & Hmore & Herr & Hwarn & Hcf & _ & _
        & Hout & Hin).
  { rewrite temp_key_dump_record. apply NoDup_fst_map_to_list. }
  { intros r _. apply lookup_empty. }
  { intros r Hr. apply list_elem_of_fmap in Hr as ([k e] & -> & Hke).
    apply elem_of_map_to_list in Hke.
    destruct (Hents k e Hke) as [(Hoff & Hlen & Hin & Hnul) _].
    cbn [dump_record temp temp_text fst snd].
    split; [apply (Henc k e Hke)|]. split; [exact Hlen|].
    split; [apply text_bytes_length; lia|].
    unfold entry_text. rewrite text_bytes_lookup by lia.
    rewrite <- Hnul. f_equal. lia. }
  { reflexivity. }
  { reflexivity. }
  { lia. }
  { rewrite length_fmap, Hlen_l.
    rewrite to_int_small by (unfold INT_MAX; lia). lia. }
  { rewrite to_int_small by (unfold INT_MAX; lia). unfold INT_MAX. lia. }
  { rewrite length_fmap, Hlen_l.
    change (pgss_hash w2) with (∅ : gmap pgssHashKey pgssEntry).
    rewrite map_size_empty. lia. }
  { rewrite length_fmap, Hlen_l. cbn [length]. unfold Size_max. lia. }
  assert (Hw' : pgss_shmem_startup h cfg sio ws
                = (startup_returns,
                   set_counter_file
                     (set_pgss w3
                        (mkShared (mean_query_len (pgss w3)) (extent (pgss w3))
                                  (n_writers (pgss w3)) (gc_count (pgss w3))
                                  (error_count (pgss w))
                                  (warning_count (pgss w))))
                     None)).
  { unfold pgss_shmem_startup.
    rewrite Hfound, Hqopen. cbn [negb pgss_save].
    change (rule_file (set_qtext_file
                         (set_qtext_file
                            (set_hash
                               (set_pgss ws
                                  (mkShared ASSUMED_LENGTH_INIT 0 0 0 0 0)) ∅)
                            None) (Some [])))
      with (Some file).
    rewrite Hfopen. cbn [negb header pgver num records file].
    rewrite !Z.eqb_refl. cbn [negb orb].
    fold l. fold w2. rewrite Hrun, Hcf.
    change (counter_file w2)
      with (Some (warning_count (pgss w), error_count (pgss w))).
    rewrite Hcopen, Hcscan. reflexivity. }
  rewrite Hw'. clear Hw'. cbn [fst snd].
  cbn [app] in *.
  rewrite length_fmap, Hlen_l in Hmore.
  assert (Hkey : forall k e,
             pgss_hash w !! k = Some e ->
             exists off,
               pgss_hash w3 !! k
               = Some (mkEntry (counters e) off (query_len e) (encoding e)
                               (s_uninit sio))
               /\ 0 <= off
               /\ off + query_len e < Z.of_nat (length more)
               /\ text_bytes more off (query_len e) = entry_text f e).
  { intros k e He.
    destruct (Hin (dump_record f (k, e))) as (off & Hlk & Hge & Hlt & Htxt).
    { apply list_elem_of_fmap_2. apply elem_of_map_to_list. exact He. }
    exists off. cbn [dump_record temp temp_key temp_text fst snd] in *.
    split; [exact Hlk|]. split; [cbn [length] in Hge; lia|].
    split; [exact Hlt | exact Htxt]. }
  assert (Hnokey : forall k, pgss_hash w !! k = None ->
                             pgss_hash w3 !! k = None).
  { intros k He. rewrite Hout; [apply lookup_empty|].
    rewrite temp_key_dump_record.
    intros Hk. apply list_elem_of_fmap in Hk as ([k' e0] & -> & Hk).
    apply elem_of_map_to_list in Hk. cbn [fst] in He. congruence. }
  split; [reflexivity|].
  split; [|split; [|split; [|split; [|split; [|split]]]]].
  - exists more.
    cbn [set_counter_file set_pgss qtext_file pgss pgss_hash extent].
    split; [exact Hf3|].
    split; [unfold Size_max; lia|].
    split; [rewrite Hext3; lia|].
    intros k e' He'.
    destruct (pgss_hash w !! k) as [e|] eqn:He.
    + destruct (Hkey k e He) as (off & Hlk & Hoff & Hlt & Htxt).
      rewrite Hlk in He'. injection He' as <-.
      cbn [query_offset query_len]. split; [|rewrite Hext3; lia].
      apply (text_ref_ok_same_text f _ (query_offset e)); try assumption.
      apply (Hents k e He).
    + rewrite (Hnokey k He) in He'. discriminate.
  - unfold texts_of.
    cbn [set_counter_file set_pgss qtext_file pgss_hash].
    rewrite Hf3, Hf. cbn [default].
    apply map_eq. intros k. rewrite !lookup_fmap.
    destruct (pgss_hash w !! k) as [e|] eqn:He.
    + destruct (Hkey k e He) as (off & Hlk & Hoff & Hlt & Htxt).
      rewrite Hlk. cbn [fmap option_fmap option_map]. f_equal. exact Htxt.
    + rewrite (Hnokey k He). reflexivity.
  - intros k. cbn [set_counter_file set_pgss pgss_hash].
    destruct (pgss_hash w !! k) as [e|] eqn:He.
    + destruct (Hkey k e He) as (off & Hlk & _).
      rewrite Hlk. reflexivity.
    + rewrite (Hnokey k He). reflexivity.
  - reflexivity.
  - reflexivity.
  - reflexivity.
  - exists more. split; [exact Hf3 | exact Hext3].
Qed.

(** ** Parsing the lines of an exported rule file *)

Lemma strlen_no_nul (s : list byte) :
  Forall (fun c => c <> x00) s -> strlen s = Z.of_nat (length s).
Proof.
  induction 1 as [|c s Hc _ IH]; [reflexivity|].
  cbn [strlen length]. apply byte_eqb_neq in Hc. rewrite Hc, IH. lia.
Qed.

(** A field without comma and newline that is being read ends at the
    separator after it. *)
Lemma csv_loop_non_quoted (n : Z) (fld : list byte) (sep : byte)
    (rest : list byte) :
  Forall (fun c => c <> ","%byte /\ c <> x0a) fld ->
  sep = ","%byte \/ sep = x0a ->
  forall (i : Z) (b : list byte) (off : Z) (flds : list (list byte)),
    0 <= i -> i + Z.of_nat (length fld) < INT_MAX ->
    Z.of_nat (length flds) < n ->
    exists off',
      csv_loop n (fld ++ sep :: rest) i (mkCsv CSV_NON_QUOTED b off flds)
      = csv_loop n rest (i + Z.of_nat (length fld) + 1)
                 (mkCsv CSV_SEPARATOR [] off' (flds ++ [b ++ fld])).
Proof.
  intros Hfld Hsep.
  induction Hfld as [|c fld [Hc1 Hc2] _ IH]; intros i b off flds Hi Hmax Hn.
  - cbn [app csv_loop length]. rewrite app_nil_r.
    assert (Hq : Byte.eqb sep x22 = false)
      by (destruct Hsep; subst sep; reflexivity).
    assert (Hs : Byte.eqb sep x0a || Byte.eqb sep ","%byte = true)
      by (destruct Hsep; subst sep; reflexivity).
    rewrite Hq, Hs. cbn [csv_mode_of].
    unfold csv_field_end. cbn [csv_fields csv_buf2].
    destruct (Z.ltb_spec (Z.of_nat (length flds)) n); [|lia].
    rewrite to_int_small by (unfold INT_MAX in *; lia).
    eexists. f_equal. lia.
  - cbn [length] in Hmax. rewrite Nat2Z.inj_succ in Hmax.
    cbn [app csv_loop].
    apply byte_eqb_neq in Hc1, Hc2. rewrite Hc1, Hc2. cbn [orb csv_mode_of].
    rewrite to_int_small by (unfold INT_MAX in *; lia).
    destruct (Byte.eqb c x22);
      cbn [csv_buf2 csv_off csv_fields csv_mode_of];
      (destruct (IH (i + 1) (b ++ [c]) off flds) as (off' & Heq);
       [lia | lia | exact Hn|]);
      exists off'; rewrite Heq, <- app_assoc; cbn [length app];
      rewrite Nat2Z.inj_succ; f_equal; lia.
Qed.

(** A plain field at the start of the line or after a field. *)
Lemma csv_loop_plain (n : Z) (fld : list byte) (sep : byte)
    (rest : list byte) (m : csv_mode) :
  csv_plain fld ->
  sep = ","%byte \/ sep = x0a ->
  m = CSV_DEFAULT \/ m = CSV_SEPARATOR ->
  forall (i off : Z) (flds : list (list byte)),
    0 <= i -> i + Z.of_nat (length fld) < INT_MAX ->
    Z.of_nat (length flds) < n ->
    exists off',
      csv_loop n (fld ++ sep :: rest) i (mkCsv m [] off flds)
      = csv_loop n rest (i + Z.of_nat (length fld) + 1)
                 (mkCsv CSV_SEPARATOR [] off' (flds ++ [fld])).
Proof.
  intros [Hne Hall] Hsep Hm i off flds Hi Hmax Hn.
  destruct fld as [|c fld]; [contradiction|].
  apply Forall_cons in Hall as [(Hq & Hc & Hnl & _) Hall].
  cbn [length] in Hmax. rewrite Nat2Z.inj_succ in Hmax.
  cbn [app csv_loop].
  apply byte_eqb_neq in Hq, Hc, Hnl. rewrite Hq, Hc, Hnl. cbn [orb csv_mode_of].
  rewrite to_int_small by (unfold INT_MAX in *; lia).
  assert (Hall' : Forall (fun c => c <> ","%byte /\ c <> x0a) fld).
  { eapply Forall_impl; [exact Hall|]. intros x (_ & ? & ? & _). auto. }
  destruct (csv_loop_non_quoted n fld sep rest Hall' Hsep (i + 1) ([] ++ [c])
              i flds) as (off' & Heq); [lia | lia | exact Hn|].
  exists off'.
  destruct Hm; subst m; cbn [csv_buf2 csv_fields]; rewrite Heq;
    cbn [app length]; rewrite Nat2Z.inj_succ; f_equal; lia.
Qed.

(** A quoted field that is being read: doubled quotes are one quote of the
    field, and the field ends at the quote that is not doubled. *)
Lemma csv_loop_quoted (n : Z) (q : list byte) (c : byte) (rest : list byte) :
  c <> x22 ->
  forall (i : Z) (b : list byte) (off : Z) (flds : list (list byte)),
    0 <= i -> i + Z.of_nat (length (csv_escape q)) + 1 < INT_MAX ->
    Z.of_nat (length flds) < n ->
    exists off',
      csv_loop n (csv_escape q ++ x22 :: c :: rest) i
               (mkCsv CSV_QUOTED b off flds)
      = csv_loop n (c :: rest) (i + Z.of_nat (length (csv_escape q)) + 1)
                 (mkCsv CSV_DEFAULT [] off' (flds ++ [b ++ q])).
Proof.
  intros Hc. apply byte_eqb_neq in Hc.
  induction q as [|x q IH]; intros i b off flds Hi Hmax Hn.
  - cbn [csv_escape flat_map app length] in *.
    assert (Hstep : csv_loop n (x22 :: c :: rest) i
                             (mkCsv CSV_QUOTED b off flds)
                    = match csv_field_end n i (mkCsv CSV_QUOTED b off flds)
                                          CSV_DEFAULT with
                      | Return st' => csv_loop n (c :: rest) (to_int (i + 1)) st'
                      | r => r
                      end).
    { cbn [csv_loop csv_mode_of]. rewrite Hc. reflexivity. }
    rewrite Hstep. unfold csv_field_end. cbn [csv_fields csv_buf2].
    destruct (Z.ltb_spec (Z.of_nat (length flds)) n); [|lia].
    rewrite to_int_small by (unfold INT_MAX in *; lia).
    rewrite app_nil_r. eexists. f_equal. lia.
  - unfold csv_escape in *. cbn [flat_map] in *. fold (csv_escape q) in *.
    set (tl := c :: rest) in *.
    destruct (decide (x = x22)) as [->|Hx].
    + cbn [app length] in *. rewrite !Nat2Z.inj_succ in Hmax.
      cbn [csv_loop csv_mode_of].
      change (Byte.eqb x22 x22) with true. cbv iota.
      rewrite (to_int_small (i + 1)) by (unfold INT_MAX in *; lia).
      rewrite (to_int_small (i + 1 + 1)) by (unfold INT_MAX in *; lia).
      cbn [csv_buf2 csv_off csv_fields].
      destruct (IH (i + 1 + 1) (b ++ [x22]) off flds) as (off' & Heq);
        [lia | lia | exact Hn|].
      exists off'. rewrite Heq, <- app_assoc. cbn [app].
      rewrite !Nat2Z.inj_succ. f_equal. lia.
    + cbn [app length] in *. rewrite Nat2Z.inj_succ in Hmax.
      cbn [csv_loop csv_mode_of].
      apply byte_eqb_neq in Hx. rewrite Hx.
      rewrite (to_int_small (i + 1)) by (unfold INT_MAX in *; lia).
      assert (Hstep :
                (if Byte.eqb x x0a || Byte.eqb x ","%byte
                 then csv_loop n (csv_escape q ++ x22 :: tl) (i + 1)
                        (mkCsv CSV_QUOTED
                               (csv_buf2 (mkCsv CSV_QUOTED b off flds) ++ [x])
                               (csv_off (mkCsv CSV_QUOTED b off flds))
                               (csv_fields (mkCsv CSV_QUOTED b off flds)))
                 else csv_loop n (csv_escape q ++ x22 :: tl) (i + 1)
                        (mkCsv CSV_QUOTED
                               (csv_buf2 (mkCsv CSV_QUOTED b off flds) ++ [x])
                               (csv_off (mkCsv CSV_QUOTED b off flds))
                               (csv_fields (mkCsv CSV_QUOTED b off flds))))
                = csv_loop n (csv_escape q ++ x22 :: tl) (i + 1)
                    (mkCsv CSV_QUOTED (b ++ [x]) off flds))
        by (destruct (Byte.eqb x x0a || Byte.eqb x ","%byte); reflexivity).
      rewrite Hstep.
      destruct (IH (i + 1) (b ++ [x]) off flds) as (off' & Heq);
        [lia | lia | exact Hn|].
      exists off'. rewrite Heq, <- app_assoc. cbn [app].
      rewrite Nat2Z.inj_succ. f_equal. lia.
Qed.

(** An empty field between two separators. *)
Lemma csv_loop_empty (n : Z) (sep : byte) (rest : list byte) (i off : Z)
    (flds : list (list byte)) :
  sep = ","%byte \/ sep = x0a ->
  0 <= i -> i < INT_MAX ->
  Z.of_nat (length flds) < n ->
  exists off',
    csv_loop n (sep :: rest) i (mkCsv CSV_SEPARATOR [] off flds)
    = csv_loop n rest (i + 1) (mkCsv CSV_SEPARATOR [] off' (flds ++ [[]])).
Proof.
  intros Hsep Hi Hmax Hn. cbn [csv_loop csv_mode_of].
  assert (Hq : Byte.eqb sep x22 = false)
    by (destruct Hsep; subst sep; reflexivity).
  assert (Hs : Byte.eqb sep x0a || Byte.eqb sep ","%byte = true)
    by (destruct Hsep; subst sep; reflexivity).
  rewrite Hq, Hs. unfold csv_field_end. cbn [csv_fields csv_buf2].
  destruct (Z.ltb_spec (Z.of_nat (length flds)) n); [|lia].
  rewrite to_int_small by (unfold INT_MAX in *; lia).
  eexists. reflexivity.
Qed.

(** A text without the four special characters is written as it is. *)
Lemma csv_escape_plain (q : list byte) :
  x22 ∉ q -> csv_escape q = q.
Proof.
  induction q as [|x q IH]; intros Hq; [reflexivity|].
  apply not_elem_of_cons in Hq as [Hx Hq].
  unfold csv_escape in *. cbn [flat_map].
  destruct (decide (x = x22)); [congruence|].
  rewrite IH by exact Hq. reflexivity.
Qed.

Lemma csv_quote_cases (q : list byte) :
  (csv_quote q = q
   /\ Forall (fun c => c <> x22 /\ c <> ","%byte /\ c <> x0a) q)
  \/ csv_quote q = x22 :: csv_escape q ++ [x22].
Proof.
  unfold csv_quote, strchr. fold (csv_escape q).
  destruct (bool_decide (x0a ∈ q)) eqn:Hnl; [right; reflexivity|].
  destruct (bool_decide (x0d ∈ q)) eqn:Hcr; [right; reflexivity|].
  destruct (bool_decide (","%byte ∈ q)) eqn:Hco; [right; reflexivity|].
  destruct (bool_decide (x22 ∈ q)) eqn:Hqu; [right; reflexivity|].
  left. apply bool_decide_eq_false in Hnl, Hco, Hqu.
  cbn [orb app]. rewrite app_nil_r.
  split; [apply csv_escape_plain; exact Hqu|].
  apply Forall_forall. intros c Hc.
  repeat split; intros ->; contradiction.
Qed.

(** The last three fields of a line. *)
Lemma csv_loop_tail (f3 f4 f5 : list byte) (m : csv_mode) (i off : Z)
    (flds : list (list byte)) :
  csv_plain f3 -> csv_plain f4 -> csv_plain f5 ->
  m = CSV_DEFAULT \/ m = CSV_SEPARATOR ->
  0 <= i ->
  i + Z.of_nat (length f3) + 1 + Z.of_nat (length f4) + 1
  + Z.of_nat (length f5) + 1 < INT_MAX ->
  length flds = 3%nat ->
  exists off',
    csv_loop SQL_FIREWALL_CSV_COLS
             (f3 ++ ","%byte :: f4 ++ ","%byte :: f5 ++ [x0a]) i
             (mkCsv m [] off flds)
    = Return (mkCsv CSV_SEPARATOR [] off' (flds ++ [f3; f4; f5])).
Proof.
  intros H3 H4 H5 Hm Hi Hmax Hn. unfold SQL_FIREWALL_CSV_COLS.
  destruct (csv_loop_plain 6 f3 ","%byte (f4 ++ ","%byte :: f5 ++ [x0a]) m
              H3 (or_introl eq_refl) Hm i off flds) as (off3 & E3);
    [lia | lia | lia|].
  rewrite E3.
  destruct (csv_loop_plain 6 f4 ","%byte (f5 ++ [x0a]) CSV_SEPARATOR
              H4 (or_introl eq_refl) (or_intror eq_refl)
              (i + Z.of_nat (length f3) + 1) off3 (flds ++ [f3]))
    as (off4 & E4); [lia | lia | rewrite length_app; simpl; lia|].
  rewrite E4.
  destruct (csv_loop_plain 6 f5 x0a [] CSV_SEPARATOR
              H5 (or_intror eq_refl) (or_intror eq_refl)
              (i + Z.of_nat (length f3) + 1 + Z.of_nat (length f4) + 1) off4
              ((flds ++ [f3]) ++ [f4]))
    as (off5 & E5); [lia | lia | rewrite !length_app; simpl; lia|].
  rewrite E5. cbn [csv_loop]. rewrite <- !app_assoc. cbn [app].
  exists off5. reflexivity.
Qed.

Lemma csv_escape_no_nul (q : list byte) :
  Forall (fun c => c <> x00) q -> Forall (fun c => c <> x00) (csv_escape q).
Proof.
  induction 1 as [|x q Hx _ IH]; [constructor|].
  unfold csv_escape in *. cbn [flat_map].
  destruct (decide (x = x22)); cbn [app];
    repeat (constructor; [first [exact Hx | discriminate]|]); exact IH.
Qed.

Lemma csv_quote_no_nul (q : list byte) :
  Forall (fun c => c <> x00) q -> Forall (fun c => c <> x00) (csv_quote q).
Proof.
  intros Hq. destruct (csv_quote_cases q) as [[-> _]| ->]; [exact Hq|].
  constructor; [discriminate|]. apply Forall_app. split.
  - apply csv_escape_no_nul. exact Hq.
  - constructor; [discriminate | constructor].
Qed.

Lemma csv_plain_no_nul (s : list byte) :
  csv_plain s -> Forall (fun c => c <> x00) s.
Proof.
  intros [_ H]. eapply Forall_impl; [exact H|]. intros c (_ & _ & _ & ?).
  assumption.
Qed.

(** The scanning loop on a line as [sql_firewall_export_rule] writes it. *)
Lemma csv_loop_line (userid queryid query calls banned rule_type : list byte) :
  csv_plain userid -> csv_plain queryid -> csv_plain calls ->
  csv_plain banned -> csv_plain rule_type ->
  Forall (fun c => c <> x00) query ->
  Z.of_nat (length (csv_line userid queryid query calls banned rule_type))
  < INT_MAX ->
  exists off,
    csv_loop SQL_FIREWALL_CSV_COLS
             (csv_line userid queryid query calls banned rule_type) 0
             (mkCsv CSV_DEFAULT [] 0 [])
    = Return (mkCsv CSV_SEPARATOR [] off
                    [userid; queryid; query; calls; banned; rule_type]).
Proof.
  intros Hu Hq Hc Hb Ht Hnul Hlen. unfold csv_line in *.
  rewrite !length_app in Hlen. cbn [length] in Hlen. cbn [app].
  set (tail := calls ++ ","%byte :: banned ++ ","%byte :: rule_type ++ [x0a]).
  destruct (csv_loop_plain SQL_FIREWALL_CSV_COLS userid ","%byte
              (queryid ++ ","%byte :: csv_quote query ++ ","%byte :: tail)
              CSV_DEFAULT Hu (or_introl eq_refl) (or_introl eq_refl) 0 0 [])
    as (off0 & E0); [lia | lia | unfold SQL_FIREWALL_CSV_COLS; simpl; lia|].
  rewrite E0. clear E0.
  destruct (csv_loop_plain SQL_FIREWALL_CSV_COLS queryid ","%byte
              (csv_quote query ++ ","%byte :: tail)
              CSV_SEPARATOR Hq (or_introl eq_refl) (or_intror eq_refl)
              (0 + Z.of_nat (length userid) + 1) off0 ([] ++ [userid]))
    as (off1 & E1); [lia | lia | unfold SQL_FIREWALL_CSV_COLS; simpl; lia|].
  rewrite E1. clear E1. cbn [app].
  set (i2 := 0 + Z.of_nat (length userid) + 1
             + Z.of_nat (length queryid) + 1).
  destruct (csv_quote_cases query) as [[Eq Hplain]|Eq]; rewrite Eq in *.
  - (* written as it is *)
    destruct query as [|x query].
    + cbn [app].
      destruct (csv_loop_empty SQL_FIREWALL_CSV_COLS ","%byte tail i2 off1
                  [userid; queryid] (or_introl eq_refl))
        as (off2 & E2);
        [unfold i2; lia | unfold i2; lia
         | unfold SQL_FIREWALL_CSV_COLS; simpl; lia|].
      rewrite E2. clear E2.
      destruct (csv_loop_tail calls banned rule_type CSV_SEPARATOR (i2 + 1)
                  off2 ([userid; queryid] ++ [[]]) Hc Hb Ht
                  (or_intror eq_refl))
        as (off3 & E3);
        [unfold i2; lia | unfold i2; cbn [length] in Hlen; lia | reflexivity|].
      exists off3. exact E3.
    + assert (Hpl : csv_plain (x :: query)).
      { split; [discriminate|].
        apply Forall_forall. intros c Hin.
        pose proof (proj1 (Forall_forall _ _) Hplain c Hin) as (? & ? & ?).
        pose proof (proj1 (Forall_forall _ _) Hnul c Hin). auto. }
      destruct (csv_loop_plain SQL_FIREWALL_CSV_COLS (x :: query) ","%byte
                  tail CSV_SEPARATOR Hpl (or_introl eq_refl)
                  (or_intror eq_refl) i2 off1 [userid; queryid])
        as (off2 & E2);
        [unfold i2; lia | unfold i2; lia
         | unfold SQL_FIREWALL_CSV_COLS; simpl; lia|].
      rewrite E2. clear E2.
      destruct (csv_loop_tail calls banned rule_type CSV_SEPARATOR
                  (i2 + Z.of_nat (length (x :: query)) + 1)
                  off2 ([userid; queryid] ++ [x :: query]) Hc Hb Ht
                  (or_intror eq_refl))
        as (off3 & E3);
        [unfold i2; lia | unfold i2; lia | reflexivity|].
      exists off3. exact E3.
  - (* written between quotes *)
    cbn [app length] in *. rewrite length_app in Hlen. cbn [length] in Hlen.
    rewrite <- app_assoc. cbn [app].
    assert (Hopen : csv_loop SQL_FIREWALL_CSV_COLS
                      (x22 :: csv_escape query ++ x22 :: ","%byte :: tail) i2
                      (mkCsv CSV_SEPARATOR [] off1 [userid; queryid])
                    = csv_loop SQL_FIREWALL_CSV_COLS
                        (csv_escape query ++ x22 :: ","%byte :: tail)
                        (to_int (i2 + 1))
                        (mkCsv CSV_QUOTED [] (to_int (off1 + 1))
                               [userid; queryid]))
      by reflexivity.
    rewrite Hopen. clear Hopen.
    rewrite to_int_small by (unfold INT_MAX, i2 in *; lia).
    destruct (csv_loop_quoted SQL_FIREWALL_CSV_COLS query ","%byte tail)
      with (i := i2 + 1) (b := @nil byte) (off := to_int (off1 + 1))
           (flds := [userid; queryid]) as (off2 & E2);
      [discriminate | unfold i2; lia | unfold i2; lia
       | unfold SQL_FIREWALL_CSV_COLS; simpl; lia|].
    rewrite E2. clear E2.
    assert (Hskip : forall i st,
               csv_mode_of st = CSV_DEFAULT ->
               csv_loop SQL_FIREWALL_CSV_COLS (","%byte :: tail) i st
               = csv_loop SQL_FIREWALL_CSV_COLS tail (to_int (i + 1)) st).
    { intros i st Hst. cbn [csv_loop]. rewrite Hst. reflexivity. }
    rewrite Hskip by reflexivity.
    rewrite to_int_small by (unfold INT_MAX, i2 in *; lia).
    destruct (csv_loop_tail calls banned rule_type CSV_DEFAULT
                (i2 + 1 + Z.of_nat (length (csv_escape query)) + 1 + 1)
                off2 ([userid; queryid] ++ [[] ++ query]) Hc Hb Ht
                (or_introl eq_refl))
      as (off3 & E3);
      [unfold i2; lia | unfold i2; lia | reflexivity|].
    exists off3. exact E3.
Qed.

(** A field that ends when the array [values] is full. *)
Lemma csv_loop_non_quoted_full (n : Z) (fld : list byte) (sep : byte)
    (rest : list byte) :
  Forall (fun c => c <> ","%byte /\ c <> x0a) fld ->
  sep = ","%byte \/ sep = x0a ->
  forall (i : Z) (b : list byte) (off : Z) (flds : list (list byte)),
    n <= Z.of_nat (length flds) ->
    csv_loop n (fld ++ sep :: rest) i (mkCsv CSV_NON_QUOTED b off flds)
    = OutOfBounds.
Proof.
  intros Hfld Hsep.
  induction Hfld as [|c fld [Hc1 Hc2] _ IH]; intros i b off flds Hn.
  - cbn [app csv_loop].
    assert (Hq : Byte.eqb sep x22 = false)
      by (destruct Hsep; subst sep; reflexivity).
    assert (Hs : Byte.eqb sep x0a || Byte.eqb sep ","%byte = true)
      by (destruct Hsep; subst sep; reflexivity).
    rewrite Hq, Hs. cbn [csv_mode_of].
    unfold csv_field_end. cbn [csv_fields].
    destruct (Z.ltb_spec (Z.of_nat (length flds)) n); [lia | reflexivity].
  - cbn [app csv_loop].
    apply byte_eqb_neq in Hc1, Hc2. rewrite Hc1, Hc2. cbn [orb csv_mode_of].
    destruct (Byte.eqb c x22); apply IH; exact Hn.
Qed.

Lemma csv_loop_plain_full (n : Z) (fld : list byte) (sep : byte)
    (rest : list byte) (m : csv_mode) (i off : Z) (flds : list (list byte)) :
  csv_plain fld ->
  sep = ","%byte \/ sep = x0a ->
  m = CSV_DEFAULT \/ m = CSV_SEPARATOR ->
  n <= Z.of_nat (length flds) ->
  csv_loop n (fld ++ sep :: rest) i (mkCsv m [] off flds) = OutOfBounds.
Proof.
  intros [Hne Hall] Hsep Hm Hn.
  destruct fld as [|c fld]; [contradiction|].
  apply Forall_cons in Hall as [(Hq & Hc & Hnl & _) Hall].
  cbn [app csv_loop].
  apply byte_eqb_neq in Hq, Hc, Hnl. rewrite Hq, Hc, Hnl. cbn [orb csv_mode_of].
  assert (Hall' : Forall (fun c => c <> ","%byte /\ c <> x0a) fld).
  { eapply Forall_impl; [exact Hall|]. intros x (_ & ? & ? & _). auto. }
  destruct Hm; subst m; cbn [csv_buf2 csv_fields];
    apply csv_loop_non_quoted_full; assumption.
Qed.

(** The scanning loop on a line of fields that need no quoting. *)
Lemma csv_loop_fields (n : Z) (fs : list (list byte * byte)) :
  Forall (fun fs => csv_plain (fst fs)
                    /\ (snd fs = ","%byte \/ snd fs = x0a)) fs ->
  forall (m : csv_mode) (i off : Z) (flds : list (list byte)),
    m = CSV_DEFAULT \/ m = CSV_SEPARATOR ->
    0 <= i ->
    i + Z.of_nat (length (csv_fields_line fs)) < INT_MAX ->
    Z.of_nat (length flds) <= n ->
    (Z.of_nat (length flds) + Z.of_nat (length fs) <= n ->
     exists m' off',
       csv_loop n (csv_fields_line fs) i (mkCsv m [] off flds)
       = Return (mkCsv m' [] off' (flds ++ (fst <$> fs))))
    /\ (n < Z.of_nat (length flds) + Z.of_nat (length fs) ->
        csv_loop n (csv_fields_line fs) i (mkCsv m [] off flds)
        = OutOfBounds).
Proof.
  induction 1 as [|[f s] fs [Hf Hs] _ IH];
    intros m i off flds Hm Hi Hmax Hflds.
  - cbn [csv_fields_line flat_map csv_loop length fmap list_fmap].
    rewrite app_nil_r. split; [eauto | lia].
  - unfold csv_fields_line in *. cbn [flat_map fst snd] in *.
    rewrite <- app_assoc in *. cbn [app] in *.
    rewrite length_app in Hmax. cbn [length] in Hmax.
    cbn [length fmap list_fmap fst]. rewrite Nat2Z.inj_succ.
    destruct (Z.lt_ge_cases (Z.of_nat (length flds)) n) as [Hroom|Hfull].
    + destruct (csv_loop_plain n f s (flat_map (fun fs => fst fs ++ [snd fs]) fs)
                  m Hf Hs Hm i off flds) as (off1 & E1); [lia | lia | lia|].
      rewrite E1.
      destruct (IH CSV_SEPARATOR (i + Z.of_nat (length f) + 1) off1
                   (flds ++ [f])) as [IHok IHfull];
        [right; reflexivity | lia | lia | rewrite length_app; simpl; lia|].
      rewrite length_app in IHok, IHfull. cbn [length] in IHok, IHfull.
      rewrite <- app_assoc in IHok. cbn [app] in IHok.
      split; intros Hcount; [apply IHok | apply IHfull]; lia.
    + split; [lia|]. intros _.
      apply csv_loop_plain_full; assumption.
Qed.

(** ** The view [sql_firewall_statements] *)

Lemma view_loop_privacy (h : host) (cfg : config) (showtext : bool)
    (qbuffer : option (list byte)) (size : Z)
    (l : list (pgssHashKey * pgssEntry)) (rows : list view_row) :
  superuser cfg = false ->
  view_loop h cfg showtext qbuffer size l = ViewRows rows ->
  Forall (fun r => v_userid r <> GetUserId cfg ->
                   v_queryid r = None
                   /\ v_query r = if showtext then Some insufficient_privilege
                                  else None) rows.
Proof.
  intros Hsu. revert rows. induction l as [|[k e] l IH]; intros rows Hrun.
  - injection Hrun as <-. constructor.
  - cbn [view_loop] in Hrun. rewrite Hsu in Hrun. cbn [orb] in Hrun.
    destruct (view_text h showtext qbuffer size k e
                        (userid k =? GetUserId cfg))
      as [qid text| |] eqn:Hcols; try discriminate.
    destruct (view_loop h cfg showtext qbuffer size l) as [rows'| | | | | |];
      try discriminate.
    specialize (IH rows' eq_refl). injection Hrun as <-.
    constructor; [|exact IH]. cbn [v_userid v_queryid v_query].
    intros Hother. apply Z.eqb_neq in Hother. rewrite Hother in Hcols.
    unfold view_text in Hcols. injection Hcols as <- <-.
    split; reflexivity.
Qed.

Lemma view_loop_no_buffer (h : host) (cfg : config) (showtext : bool)
    (size : Z) (l : list (pgssHashKey * pgssEntry)) :
  view_loop h cfg showtext None size l
  = ViewRows (view_row_without_text cfg showtext <$> l).
Proof.
  induction l as [|[k e] l IH]; [reflexivity|].
  cbn [view_loop fmap list_fmap view_row_without_text]. rewrite IH.
  unfold view_text. cbn [qtext_fetch].
  destruct (superuser cfg || (userid k =? GetUserId cfg)), showtext;
    reflexivity.
Qed.

(** ** The number of entries *)











(** ** Import: what a failing record leaves *)

Lemma gc_qtexts_rule_file (cfg : config) (g : gc_io) (w : world) :
  rule_file (gc_qtexts cfg g w) = rule_file w.
Proof.
  unfold gc_qtexts.
  destruct (need_gc_qtexts cfg w); cbn [negb]; [|reflexivity].
  assert (Hl : rule_file (snd (qtext_load_file (gc_load g) w)) = rule_file w).
  { unfold qtext_load_file.
    destruct (qtext_file w); [destruct (gc_load g) as [|[ev|]]|]; reflexivity. }
  destruct (qtext_load_file (gc_load g) w) as [[qbuffer|] w1]; cbn [snd] in Hl;
    [|exact Hl].
  destruct (gc_open_ok g); cbn [negb]; [|exact Hl].
  destruct (gc_loop g qbuffer (mkGc (pgss_hash w1) 0 0 [])
                    (hash_seq (pgss_hash w1))) as [st [|]]; [|exact Hl].
  cbv zeta.
  destruct (gc_close_ok g), (gc_ftruncate_ok g); exact Hl.
Qed.

Lemma pgss_restore_rule_file (cfg : config) (io : store_io)
    (userid queryid : Z) (query : list byte) (calls banned rule_type : Z)
    (w : world) :
  rule_file (snd (pgss_restore cfg io userid queryid query calls banned
                               rule_type w))
  = rule_file w.
Proof.
  unfold pgss_restore.
  destruct (pgss_hash w !! mkKey userid queryid (to_char rule_type));
    [reflexivity|].
  cbv zeta.
  assert (Hq : rule_file (snd (qtext_store query
                                 (to_int (Z.of_nat (length query)))
                                 (io_write1 io) w))
               = rule_file w)
    by (unfold qtext_store; destruct (io_write1 io); reflexivity).
  destruct (qtext_store query (to_int (Z.of_nat (length query)))
                        (io_write1 io) w) as [[[stored off] gcc] w1].
  cbn [snd] in Hq.
  destruct stored; cbn [negb]; [|exact Hq].
  assert (Ha : forall k o l e s,
             rule_file (snd (entry_alloc cfg (io_uninit io) k o l e s w1))
             = rule_file w).
  { intros k o l e s. unfold entry_alloc.
    destruct (pgss_max cfg <=? Z.of_nat (size (pgss_hash w1))); [exact Hq|].
    destruct (pgss_hash w1 !! k); exact Hq. }
  match goal with
  | |- context [entry_alloc cfg ?u ?k ?o ?l ?e ?s w1] =>
      specialize (Ha k o l e s);
      destruct (entry_alloc cfg u k o l e s w1) as [[entry|] w2]
  end; cbn [snd] in *; [|exact Ha].
  match goal with
  | |- context [if ?b then _ else _] => destruct b
  end; [rewrite gc_qtexts_rule_file|]; exact Ha.
Qed.

Lemma import_record_rule_file (h : host) (cfg : config) (io : store_io)
    (v : csv_values) (w : world) :
  rule_file (snd (import_record h cfg io v w)) = rule_file w.
Proof.
  unfold import_record. cbv zeta.
  destruct (if match values1 v with
               | Some s => strlen s =? 0
               | None => true
               end
            then sql_firewall_queryid h (values2 v) true
            else Return (to_uint32 (atol h (default [] (values1 v))), None))
    as [[queryid normalized_query]| | |]; cbn [bind snd]; try reflexivity.
  apply pgss_restore_rule_file.
Qed.

Lemma import_loop_rule_file (h : host) (cfg : config)
    (l : list (csv_values * store_io)) :
  forall (ret : bool) (w : world),
    rule_file (snd (import_loop h cfg l ret w)) = rule_file w.
Proof.
  induction l as [|[v io] l IH]; intros ret w; [reflexivity|].
  cbn [import_loop].
  pose proof (import_record_rule_file h cfg io v w) as Hr.
  destruct (import_record h cfg io v w) as [[ret'| | |] w1];
    cbn [bind snd] in *; try exact Hr.
  rewrite IH. exact Hr.
Qed.

(** A record that raises leaves the table as it found it. *)
Lemma pgss_restore_failure_hash (cfg : config) (io : store_io)
    (userid queryid : Z) (query : list byte) (calls banned rule_type : Z)
    (w : world) (e : pg_error) :
  fst (pgss_restore cfg io userid queryid query calls banned rule_type w)
  = Ereport e ->
  pgss_hash (snd (pgss_restore cfg io userid queryid query calls banned
                               rule_type w))
  = pgss_hash w.
Proof.
  unfold pgss_restore.
  destruct (pgss_hash w !! mkKey userid queryid (to_char rule_type));
    [reflexivity|].
  cbv zeta.
  pose proof (qtext_store_frame query (to_int (Z.of_nat (length query)))
                (io_write1 io) w) as F.
  destruct (qtext_store query (to_int (Z.of_nat (length query)))
                        (io_write1 io) w) as [[[stored off] gcc] w1].
  cbv zeta in F. cbn [fst snd] in F. destruct F as (_ & _ & Hh1 & _).
  destruct stored; cbn [negb]; [|intros _; exact Hh1].
  unfold entry_alloc.
  destruct (pgss_max cfg <=? Z.of_nat (size (pgss_hash w1)));
    [intros _; exact Hh1|].
  destruct (pgss_hash w1 !! _); cbn [fst]; discriminate.
Qed.

Lemma import_record_failure_hash (h : host) (cfg : config) (io : store_io)
    (v : csv_values) (w : world) (e : pg_error) :
  fst (import_record h cfg io v w) = Ereport e ->
  pgss_hash (snd (import_record h cfg io v w)) = pgss_hash w.
Proof.
  unfold import_record. cbv zeta.
  destruct (if match values1 v with
               | Some s => strlen s =? 0
               | None => true
               end
            then sql_firewall_queryid h (values2 v) true
            else Return (to_uint32 (atol h (default [] (values1 v))), None))
    as [[queryid normalized_query]| | |]; cbn [bind snd]; try reflexivity.
  apply pgss_restore_failure_hash.
Qed.

Lemma import_loop_app (h : host) (cfg : config)
    (l1 l2 : list (csv_values * store_io)) :
  forall (ret : bool) (w : world) (r : bool) (w1 : world),
    import_loop h cfg l1 ret w = (Return r, w1) ->
    import_loop h cfg (l1 ++ l2) ret w = import_loop h cfg l2 r w1.
Proof.
  induction l1 as [|[v io] l1 IH]; intros ret w r w1 Hrun.
  - cbn in Hrun. injection Hrun as -> ->. reflexivity.
  - cbn [import_loop app] in *.
    destruct (import_record h cfg io v w) as [[ret'| | |] w'];
      cbn [bind] in *; try discriminate.
    apply (IH _ _ _ _ Hrun).
Qed.

(** ** Adding a rule, failing to add it, deleting it *)

Lemma texts_valid_empty_world : texts_valid empty_world.
Proof.
  exists []. split; [reflexivity|].
  split; [unfold Size_max; simpl; lia|].
  split; [simpl; lia|].
  intros k e He. cbn in He. rewrite lookup_empty in He. discriminate.
Qed.

(** X3: a rule that is not in the table, added by [pgss_restore] below
    capacity with successful system calls.  The call returns true; the
    table gains the rule with the counters and the type given and the
    encoding of the database; its text is the query with its terminator;
    the older rules keep counters, type and text, whether a garbage
    collection follows or not; every text reference is valid afterwards;
    and the rule is the one that applies to its user and query. *)
Theorem pgss_restore_adds_rule (cfg : config) (io : store_io)
    (userid queryid : Z) (query : list byte) (calls banned rule_type : Z)
    (w : world) :
  pgss_hash w !! mkKey userid queryid (to_char rule_type) = None ->
  texts_valid w ->
  io_write1 io = WriteOk ->
  gc_io_ok (io_gc io) ->
  Z.of_nat (size (pgss_hash w)) < pgss_max cfg ->
  pgss_max cfg <= INT_MAX ->
  Z.of_nat (length query) < INT_MAX ->
  extent (pgss w) + Z.of_nat (length query) + 1 < Size_max ->
  exists w',
    pgss_restore cfg io userid queryid query calls banned rule_type w
    = (Return true, w')
    /\ texts_valid w'
    /\ texts_of w'
       = <[mkKey userid queryid (to_char rule_type) := query ++ [x00]]>
           (texts_of w)
    /\ rules_of w'
       = <[mkKey userid queryid (to_char rule_type)
           := (mkCounters calls banned, GetDatabaseEncoding cfg, rule_type)]>
           (rules_of w)
    /\ size (pgss_hash w') = S (size (pgss_hash w))
    /\ rule_for (pgss_hash w') userid queryid (to_char rule_type)
       = Some (mkKey userid queryid (to_char rule_type)).
Proof.
  intros Hnone Hv Hwr Hgc Hroom Hmax Hlen Hwrap.
  destruct (pgss_restore_texts cfg io userid queryid query calls banned
              rule_type w Hnone Hv Hwr Hgc Hroom Hmax Hlen Hwrap)
    as (w' & Hrun & Hv' & Ht & Hr).
  exists w'. split; [exact Hrun|]. split; [exact Hv'|].
  split; [exact Ht|]. split; [exact Hr|].
  assert (Hsome : is_Some (pgss_hash w'
                           !! mkKey userid queryid (to_char rule_type))).
  { apply (f_equal (fun m => m !! mkKey userid queryid (to_char rule_type)))
      in Hr.
    unfold rules_of in Hr. rewrite lookup_fmap, lookup_insert_eq in Hr.
    destruct (pgss_hash w' !! _); [eauto | discriminate]. }
  split.
  - rewrite <- (map_size_fmap rule_view (pgss_hash w')).
    fold (rules_of w'). rewrite Hr.
    rewrite map_size_insert_None
      by (unfold rules_of; rewrite lookup_fmap, Hnone; reflexivity).
    unfold rules_of. rewrite map_size_fmap. reflexivity.
  - unfold rule_for. destruct Hsome as [e ->]. reflexivity.
Qed.

Lemma pgss_restore_adds_rule_witness :
  exists w',
    pgss_restore (example_config PGFW_MODE_DISABLED PGFW_ENGINE_HYBRID 100)
                 all_ok_io 10 42 select_text 3 1 PGFW_BLACKLIST_ENTRY
                 empty_world
    = (Return true, w')
    /\ texts_of w' = {[ mkKey 10 42 PGFW_BLACKLIST_ENTRY
                        := select_text ++ [x00] ]}
    /\ rules_of w' = {[ mkKey 10 42 PGFW_BLACKLIST_ENTRY
                        := (mkCounters 3 1, 6, PGFW_BLACKLIST_ENTRY) ]}.
Proof.
  destruct (pgss_restore_adds_rule
              (example_config PGFW_MODE_DISABLED PGFW_ENGINE_HYBRID 100)
              all_ok_io 10 42 select_text 3 1 PGFW_BLACKLIST_ENTRY empty_world)
    as (w' & Hrun & _ & Ht & Hr & _).
  - reflexivity.
  - exact texts_valid_empty_world.
  - reflexivity.
  - repeat split.
  - vm_compute. reflexivity.
  - vm_compute. discriminate.
  - vm_compute. reflexivity.
  - vm_compute. reflexivity.
  - exists w'. split; [exact Hrun|]. split; [exact Ht | exact Hr].
Defined.

(** X4: how [pgss_restore] fails for a rule that is not in the table.
    When the text cannot be written it leaves with the error "could not
    store query text", the table as it was and the failure in the log.
    When the table is full it leaves with the error "could not allocate
    an entry" after the capacity warning, the table as it was; the text
    has been written by then and [extent] has moved on, so the text stays
    in the file without a rule. *)
Theorem pgss_restore_failures (cfg : config) (io : store_io)
    (userid queryid : Z) (query : list byte) (calls banned rule_type : Z)
    (w : world) :
  pgss_hash w !! mkKey userid queryid (to_char rule_type) = None ->
  (forall left_behind,
      io_write1 io = WriteFails left_behind ->
      exists w',
        pgss_restore cfg io userid queryid query calls banned rule_type w
        = (Ereport ERR_could_not_store_query_text, w')
        /\ pgss_hash w' = pgss_hash w
        /\ qtext_file w' = left_behind
        /\ server_log w' = server_log w ++ [LOG_could_not_write_qtexts])
  /\ (io_write1 io = WriteOk ->
      pgss_max cfg <= Z.of_nat (size (pgss_hash w)) ->
      exists w',
        pgss_restore cfg io userid queryid query calls banned rule_type w
        = (Ereport ERR_could_not_allocate_entry, w')
        /\ pgss_hash w' = pgss_hash w
        /\ server_log w' = server_log w ++ [WARNING_max_exceeded]
        /\ qtext_file w'
           = Some (pwrite (default [] (qtext_file w)) (extent (pgss w))
                          (take (Z.to_nat (to_int (Z.of_nat (length query)) + 1))
                                (query ++ [x00])))
        /\ extent (pgss w')
           = to_Size (extent (pgss w)
                      + to_int (to_int (Z.of_nat (length query)) + 1))).
Proof.
  intros Hnone.
  pose proof (pgss_restore_new cfg io userid queryid query calls banned
                rule_type w Hnone) as Hrun.
  cbv zeta in Hrun. split.
  - intros lb Hwr. rewrite Hwr in Hrun. unfold qtext_store in Hrun.
    cbn [negb] in Hrun. eexists. split; [exact Hrun|].
    cbn. auto.
  - intros Hwr Hfull. rewrite Hwr in Hrun. unfold qtext_store in Hrun.
    cbn [negb] in Hrun.
    destruct (Z.leb_spec (pgss_max cfg) (Z.of_nat (size (pgss_hash w))));
      [|lia].
    eexists. split; [exact Hrun|].
    cbn. destruct (qtext_file w); auto.
Qed.

Lemma pgss_restore_failures_witness :
  fst (pgss_restore (example_config PGFW_MODE_DISABLED PGFW_ENGINE_HYBRID 100)
                    all_ok_io 10 100 select_text 0 0 PGFW_WHITELIST_ENTRY
                    full_world)
  = Ereport ERR_could_not_allocate_entry
  /\ fst (pgss_restore
            (example_config PGFW_MODE_DISABLED PGFW_ENGINE_HYBRID 100)
            (mkStoreIo (WriteFails (Some [])) WriteOk all_ok_gc 0)
            10 42 select_text 0 0 PGFW_WHITELIST_ENTRY empty_world)
     = Ereport ERR_could_not_store_query_text.
Proof.
  split.
  - destruct (pgss_restore_failures
                (example_config PGFW_MODE_DISABLED PGFW_ENGINE_HYBRID 100)
                all_ok_io 10 100 select_text 0 0 PGFW_WHITELIST_ENTRY
                full_world) as [_ Hfull].
    + vm_compute. reflexivity.
    + destruct Hfull as (w' & Hrun & _).
      * reflexivity.
      * vm_compute. discriminate.
      * rewrite Hrun. reflexivity.
  - destruct (pgss_restore_failures
                (example_config PGFW_MODE_DISABLED PGFW_ENGINE_HYBRID 100)
                (mkStoreIo (WriteFails (Some [])) WriteOk all_ok_gc 0)
                10 42 select_text 0 0 PGFW_WHITELIST_ENTRY empty_world)
      as [Hwrite _].
    + reflexivity.
    + destruct (Hwrite (Some [])) as (w' & Hrun & _).
      * reflexivity.
      * rewrite Hrun. reflexivity.
Defined.

Lemma pgss_restore_rules (cfg : config) (io : store_io)
    (userid queryid : Z) (query : list byte) (calls banned rule_type : Z)
    (w w' : world) (r : bool) :
  pgss_restore cfg io userid queryid query calls banned rule_type w
  = (Return r, w') ->
  delete (mkKey userid queryid (to_char rule_type)) (rules_of w')
  = delete (mkKey userid queryid (to_char rule_type)) (rules_of w)
  /\ is_Some (pgss_hash w' !! mkKey userid queryid (to_char rule_type)).
Proof.
  intros Hrun.
  destruct (pgss_hash w !! mkKey userid queryid (to_char rule_type))
    as [e|] eqn:He.
  - unfold pgss_restore in Hrun. rewrite He in Hrun.
    injection Hrun as _ <-. split; [reflexivity | eauto].
  - pose proof (pgss_restore_new cfg io userid queryid query calls banned
                  rule_type w He) as Hnew.
    cbv zeta in Hnew.
    destruct (qtext_store query (to_int (Z.of_nat (length query)))
                          (io_write1 io) w) as [[[stored off] gcc] w1].
    rewrite Hnew in Hrun. clear Hnew.
    destruct stored; cbn [negb] in Hrun; [|discriminate].
    destruct (pgss_max cfg <=? Z.of_nat (size (pgss_hash w)));
      [discriminate|].
    injection Hrun as _ <-.
    set (w3 := set_hash w1 _).
    assert (Hr3 : rules_of w3
                  = <[mkKey userid queryid (to_char rule_type)
                      := (mkCounters calls banned, GetDatabaseEncoding cfg,
                          rule_type)]> (rules_of w)).
    { unfold rules_of, w3. cbn [set_hash pgss_hash].
      rewrite fmap_insert. reflexivity. }
    assert (Hr : rules_of (if need_gc_qtexts cfg w3
                           then gc_qtexts cfg (io_gc io) w3 else w3)
                 = rules_of w3)
      by (destruct (need_gc_qtexts cfg w3);
          [apply gc_qtexts_rules | reflexivity]).
    split.
    + rewrite Hr, Hr3. apply delete_insert_eq.
    + assert (Hlk : rules_of (if need_gc_qtexts cfg w3
                              then gc_qtexts cfg (io_gc io) w3 else w3)
                    !! mkKey userid queryid (to_char rule_type)
                    = Some (mkCounters calls banned, GetDatabaseEncoding cfg,
                            rule_type))
        by (rewrite Hr, Hr3; apply lookup_insert_eq).
      unfold rules_of in Hlk. rewrite lookup_fmap in Hlk.
      destruct (pgss_hash (if need_gc_qtexts cfg w3
                           then gc_qtexts cfg (io_gc io) w3 else w3)
                !! mkKey userid queryid (to_char rule_type)) as [e'|];
        [eauto | discriminate Hlk].
Qed.

(** X5: deleting a rule after adding it.  When [add_rule] returns for a
    user, a query and a rule type, the rule is in the table; [del_rule]
    with the same arguments then returns 0 and removes exactly that rule:
    the other rules are those from before the two calls, with their
    counters and types.  The text that was stored for the rule stays in
    the query-text file. *)
Theorem del_rule_after_add_rule (h : host) (cfg : config) (io : store_io)
    (user query_string : list byte) (rule_type : Z) (w w1 : world)
    (r : Z) :
  add_rule h cfg io user query_string rule_type w = (Return r, w1) ->
  exists queryid w2,
    del_rule h user query_string rule_type w1 = (Return 0, w2)
    /\ is_Some (pgss_hash w1
                !! mkKey (get_role_oid h user) queryid (to_char rule_type))
    /\ pgss_hash w2
       = delete (mkKey (get_role_oid h user) queryid (to_char rule_type))
                (pgss_hash w1)
    /\ rules_of w2
       = delete (mkKey (get_role_oid h user) queryid (to_char rule_type))
                (rules_of w)
    /\ qtext_file w2 = qtext_file w1
    /\ pgss w2 = pgss w1.
Proof.
  unfold add_rule, del_rule, sql_firewall_queryid. intros Hadd.
  destruct (parse_analyze_jumble h query_string) as [[hash cl]| | |];
    try discriminate.
  set (queryid := if hash =? 0 then 1 else hash) in *.
  destruct (generate_normalized_query h cl query_string
              (to_int (Z.of_nat (length query_string)))) as [[norm len]|];
    [|discriminate].
  cbn [bind] in Hadd. unfold __add_rule in Hadd.
  destruct (pgss_restore cfg io (get_role_oid h user) queryid norm 0 0
                         rule_type w) as [[ret| | |] w1'] eqn:Hrun;
    cbn [bind] in Hadd; try discriminate.
  injection Hadd as _ <-.
  destruct (pgss_restore_rules _ _ _ _ _ _ _ _ _ _ _ Hrun) as [Hdel Hsome].
  exists queryid. eexists. cbn [bind __del_rule entry_delete].
  split; [reflexivity|]. split; [exact Hsome|].
  split; [reflexivity|].
  split; [|split; reflexivity].
  unfold rules_of at 1, entry_delete. cbn [set_hash pgss_hash].
  rewrite fmap_delete. exact Hdel.
Qed.

Lemma del_rule_after_add_rule_witness :
  exists w2,
    del_rule example_host [] select_text PGFW_WHITELIST_ENTRY
      (snd (add_rule example_host
              (example_config PGFW_MODE_DISABLED PGFW_ENGINE_HYBRID 100)
              all_ok_io [] select_text PGFW_WHITELIST_ENTRY empty_world))
    = (Return 0, w2)
    /\ rules_of w2 = ∅.
Proof.
  destruct (del_rule_after_add_rule example_host
              (example_config PGFW_MODE_DISABLED PGFW_ENGINE_HYBRID 100)
              all_ok_io [] select_text PGFW_WHITELIST_ENTRY empty_world
              (snd (add_rule example_host
                      (example_config PGFW_MODE_DISABLED PGFW_ENGINE_HYBRID 100)
                      all_ok_io [] select_text PGFW_WHITELIST_ENTRY
                      empty_world)) 0)
    as (queryid & w2 & Hdel & _ & _ & Hrules & _).
  - vm_compute. reflexivity.
  - exists w2. split; [exact Hdel|]. rewrite Hrules.
    unfold rules_of, empty_world. cbn [pgss_hash].
    rewrite fmap_empty. apply delete_empty.
Defined.

(** ** Garbage collection: what it keeps and what a failure costs *)

Lemma gc_qtexts_unreadable (cfg : config) (g : gc_io) (w : world) :
  gc_load g = LoadFails None -> gc_qtexts cfg g w = w.
Proof.
  intros Hload. unfold gc_qtexts, qtext_load_file. rewrite Hload.
  destruct (need_gc_qtexts cfg w), (qtext_file w); reflexivity.
Qed.

Lemma texts_valid_world_needing_gc : texts_valid world_needing_gc.
Proof.
  destruct (pgss_restore_texts_pre
              (example_config PGFW_MODE_DISABLED PGFW_ENGINE_HYBRID 100)
              (mkStoreIo WriteOk WriteOk
                         (mkGcIo (LoadFails None) true None true true None) 0)
              10 42 long_text 0 0 PGFW_WHITELIST_ENTRY empty_world)
    as (w3 & Hrun & Hv3 & _).
  - reflexivity.
  - exact texts_valid_empty_world.
  - reflexivity.
  - vm_compute. reflexivity.
  - vm_compute. reflexivity.
  - vm_compute. reflexivity.
  - unfold world_needing_gc. rewrite Hrun. cbn [snd io_gc].
    rewrite gc_qtexts_unreadable by reflexivity.
    destruct (need_gc_qtexts _ w3); exact Hv3.
Qed.

(** X6: a garbage collection whose system calls succeed, on a table
    whose text references are all valid.  Every rule keeps its counters,
    encoding and type and the same text; every text reference is valid in
    the rewritten file; and when the collection was needed, the file holds
    the texts of the rules and nothing else up to [extent], and the
    collection is counted. *)
Theorem gc_qtexts_keeps_texts (cfg : config) (g : gc_io) (w : world) :
  texts_valid w ->
  Z.of_nat (size (pgss_hash w)) <= INT_MAX ->
  gc_io_ok g ->
  texts_valid (gc_qtexts cfg g w)
  /\ texts_of (gc_qtexts cfg g w) = texts_of w
  /\ rules_of (gc_qtexts cfg g w) = rules_of w
  /\ (need_gc_qtexts cfg w = true ->
      exists f',
        qtext_file (gc_qtexts cfg g w) = Some f'
        /\ extent (pgss (gc_qtexts cfg g w)) = Z.of_nat (length f')
        /\ gc_count (pgss (gc_qtexts cfg g w))
           = to_int (gc_count (pgss w) + 1)).
Proof.
  intros Hv Hsz Hg.
  destruct (gc_qtexts_texts cfg g w Hv Hsz Hg) as (H1 & H2 & H3).
  split; [exact H1|]. split; [exact H2|].
  split; [apply gc_qtexts_rules | exact H3].
Qed.

Lemma gc_qtexts_keeps_texts_witness :
  need_gc_qtexts (example_config PGFW_MODE_DISABLED PGFW_ENGINE_HYBRID 100)
                 world_needing_gc = true
  /\ texts_of (gc_qtexts
                 (example_config PGFW_MODE_DISABLED PGFW_ENGINE_HYBRID 100)
                 all_ok_gc world_needing_gc)
     = texts_of world_needing_gc.
Proof.
  split; [vm_compute; reflexivity|].
  destruct (gc_qtexts_keeps_texts
              (example_config PGFW_MODE_DISABLED PGFW_ENGINE_HYBRID 100)
              all_ok_gc world_needing_gc) as (_ & Htexts & _).
  - exact texts_valid_world_needing_gc.
  - vm_compute. discriminate.
  - repeat split.
  - exact Htexts.
Defined.

Lemma drop_texts_rules (h1 h2 : gmap pgssHashKey pgssEntry) :
  rule_view <$> h1 = rule_view <$> h2 ->
  (fun e => set_text e 0 (-1)) <$> h1 = (fun e => set_text e 0 (-1)) <$> h2.
Proof.
  intros Heq. apply map_eq. intros k.
  apply (f_equal (fun m => m !! k)) in Heq.
  rewrite !lookup_fmap in *.
  destruct (h1 !! k) as [[c1 o1 l1 n1 t1]|], (h2 !! k) as [[c2 o2 l2 n2 t2]|];
    cbn in *; try discriminate; [|reflexivity].
  unfold rule_view in Heq. cbn in Heq. injection Heq as -> -> ->.
  reflexivity.
Qed.

(** X7: a garbage collection that cannot open the file for rewriting, or
    cannot close it after rewriting.  Every rule stays in the table with
    its counters, encoding and type, and loses its text: the reference is
    offset 0 and length -1, which [qtext_fetch] rejects on every buffer.
    The failure is logged and the collection is counted. *)
Theorem gc_qtexts_failure_drops_texts (cfg : config) (g : gc_io) (w : world)
    (f : list byte) :
  need_gc_qtexts cfg w = true ->
  qtext_file w = Some f ->
  gc_load g = LoadOk ->
  gc_open_ok g = false \/ gc_close_ok g = false ->
  pgss_hash (gc_qtexts cfg g w)
  = (fun e => set_text e 0 (-1)) <$> pgss_hash w
  /\ (forall k e buffer buffer_size,
        pgss_hash (gc_qtexts cfg g w) !! k = Some e ->
        qtext_fetch (query_offset e) (query_len e) buffer buffer_size
        = FetchNull)
  /\ gc_count (pgss (gc_qtexts cfg g w)) = to_int (gc_count (pgss w) + 1)
  /\ last (server_log (gc_qtexts cfg g w)) = Some LOG_could_not_write_qtexts.
Proof.
  intros Hneed Hf Hload Hfail.
  assert (Hrun : exists h' file w0,
             gc_qtexts cfg g w
             = gc_fail file h' (ereport_log w0 LOG_could_not_write_qtexts)
             /\ rule_view <$> h' = rule_view <$> pgss_hash w
             /\ pgss w0 = pgss w).
  { unfold gc_qtexts, qtext_load_file. rewrite Hneed, Hf, Hload. cbn [negb].
    destruct (gc_open_ok g) eqn:Hopen; cbn [negb].
    2: { exists (pgss_hash w), (Some f), w. rewrite ?Hf.
         split; [reflexivity|]. split; reflexivity. }
    destruct Hfail as [Hfail|Hclose]; [discriminate|].
    pose proof (gc_loop_rules g f (pgss_hash w) (hash_seq (pgss_hash w))
                  (fun k e H => proj1 (elem_of_map_to_list _ _ _) H)
                  (mkGc (pgss_hash w) 0 0 []) eq_refl) as Hloop.
    destruct (gc_loop g f (mkGc (pgss_hash w) 0 0 [])
                      (hash_seq (pgss_hash w))) as [st [|]];
      cbn [fst] in Hloop.
    - rewrite Hclose. cbn [negb].
      exists (gc_hash st), (gc_left_behind g),
        (if gc_ftruncate_ok g then w
         else ereport_log w LOG_could_not_truncate_qtexts).
      split; [reflexivity|]. split; [exact Hloop|].
      destruct (gc_ftruncate_ok g); reflexivity.
    - exists (gc_hash st), (gc_left_behind g), w. auto. }
  destruct Hrun as (h' & file & w0 & -> & Hview & Hpgss).
  assert (Hh : pgss_hash (gc_fail file h'
                            (ereport_log w0 LOG_could_not_write_qtexts))
               = (fun e => set_text e 0 (-1)) <$> pgss_hash w).
  { unfold gc_fail. cbn [record_gc_qtexts set_pgss set_qtext_file set_hash
                         pgss_hash].
    apply drop_texts_rules. exact Hview. }
  split; [exact Hh|]. split; [|split].
  - intros k e buffer buffer_size He. rewrite Hh, lookup_fmap in He.
    destruct (pgss_hash w !! k) as [e0|]; [|discriminate].
    injection He as <-. cbn [set_text query_offset query_len].
    unfold qtext_fetch. destruct buffer; reflexivity.
  - unfold gc_fail. cbn. rewrite Hpgss. reflexivity.
  - unfold gc_fail. cbn. apply last_snoc.
Qed.

Lemma gc_qtexts_failure_drops_texts_witness :
  pgss_hash (gc_qtexts
               (example_config PGFW_MODE_DISABLED PGFW_ENGINE_HYBRID 100)
               (mkGcIo LoadOk true None true false (Some []))
               world_needing_gc)
  = (fun e => set_text e 0 (-1)) <$> pgss_hash world_needing_gc.
Proof.
  destruct texts_valid_world_needing_gc as (f & Hf & _).
  destruct (gc_qtexts_failure_drops_texts
              (example_config PGFW_MODE_DISABLED PGFW_ENGINE_HYBRID 100)
              (mkGcIo LoadOk true None true false (Some []))
              world_needing_gc f) as [Hh _].
  - vm_compute. reflexivity.
  - exact Hf.
  - reflexivity.
  - right. reflexivity.
  - exact Hh.
Defined.

(** ** Shutdown and startup *)

Lemma texts_valid_world_with_rules : texts_valid world_with_rules.
Proof.
  unfold world_with_rules. cbv zeta.
  destruct (pgss_restore_texts
              (example_config PGFW_MODE_DISABLED PGFW_ENGINE_HYBRID 100)
              all_ok_io 10 42 select_text 0 0 PGFW_WHITELIST_ENTRY empty_world)
    as (w1 & Hrun1 & Hv1 & _);
    [reflexivity | exact texts_valid_empty_world | reflexivity
     | repeat split | vm_compute; reflexivity | vm_compute; discriminate
     | vm_compute; reflexivity | vm_compute; reflexivity |].
  rewrite Hrun1. cbn [snd].
  assert (Hw1 : w1 = snd (pgss_restore
                            (example_config PGFW_MODE_DISABLED
                                            PGFW_ENGINE_HYBRID 100)
                            all_ok_io 10 42 select_text 0 0
                            PGFW_WHITELIST_ENTRY empty_world))
    by (rewrite Hrun1; reflexivity).
  destruct (pgss_restore_texts
              (example_config PGFW_MODE_DISABLED PGFW_ENGINE_HYBRID 100)
              all_ok_io 10 42 select_text 0 0 PGFW_BLACKLIST_ENTRY w1)
    as (w2 & Hrun2 & Hv2 & _);
    [rewrite Hw1; vm_compute; reflexivity | exact Hv1 | reflexivity
     | repeat split | rewrite Hw1; vm_compute; reflexivity
     | vm_compute; discriminate | vm_compute; reflexivity
     | rewrite Hw1; vm_compute; reflexivity |].
  rewrite Hrun2. exact Hv2.
Qed.

Lemma encodings_world_with_rules (k : pgssHashKey) (e : pgssEntry) :
  pgss_hash world_with_rules !! k = Some e ->
  PG_VALID_BE_ENCODING example_host (encoding e) = true.
Proof.
  assert (Hh : pgss_hash world_with_rules
               = <[mkKey 10 42 98 := mkEntry (mkCounters 0 0) 9 8 6 98]>
                   {[ mkKey 10 42 119 := mkEntry (mkCounters 0 0) 0 8 6 119 ]})
    by (vm_compute; reflexivity).
  rewrite Hh. intros He.
  apply lookup_insert_Some in He as [[_ <-]|[_ He]]; [reflexivity|].
  apply lookup_singleton_Some in He as [_ <-]. reflexivity.
Qed.

(** X8: an orderly shutdown and the next startup, when the system calls
    succeed, every text reference is valid, every encoding is one of the
    server and the table is within [sql_firewall.max].  The startup
    returns, and the table after it has the same keys; every rule has
    its counters, the length of its text and its encoding back, and the
    same text, at a new offset in a new query-text file in which every
    reference is valid.  The type field of the entries is not loaded: it
    holds what the new shared-memory element held. *)
Theorem restart_keeps_rules (h : host) (cfg : config) (d : dump_io)
    (sio : startup_io) (w : world) :
  loaded cfg = true ->
  texts_valid w ->
  Z.of_nat (size (pgss_hash w)) <= pgss_max cfg ->
  pgss_max cfg <= INT_MAX ->
  (forall k e, pgss_hash w !! k = Some e ->
               PG_VALID_BE_ENCODING h (encoding e) = true) ->
  dump_io_ok d ->
  startup_io_ok sio ->
  let r := pgss_shmem_startup h cfg sio
             (pgss_shmem_shutdown h cfg 0 d true true w) in
  let w' := snd r in
  fst r = startup_returns
  /\ texts_valid w'
  /\ texts_of w' = texts_of w
  /\ saved_view <$> pgss_hash w' = saved_view <$> pgss_hash w
  /\ (forall k e, pgss_hash w' !! k = Some e -> entry_type e = s_uninit sio)
  /\ exists f', qtext_file w' = Some f'
                /\ extent (pgss w') = Z.of_nat (length f').
Proof.
  intros Hloaded Hv Hsz Hmax Henc Hd Hs.
  destruct (restart_state h cfg d sio w Hloaded Hv Hsz Hmax Henc Hd Hs)
    as (Hr & Hv' & Ht & Hh & _ & _ & _ & Hf).
  cbv zeta. split; [exact Hr|]. split; [exact Hv'|]. split; [exact Ht|].
  split; [|split; [|exact Hf]].
  - apply map_eq. intros k. rewrite !lookup_fmap, Hh.
    destruct (pgss_hash w !! k); reflexivity.
  - intros k e He. rewrite Hh in He.
    destruct (pgss_hash w !! k); [|discriminate].
    injection He as <-. reflexivity.
Qed.

Lemma restart_keeps_rules_witness :
  texts_of world_after_restart = texts_of world_with_rules
  /\ saved_view <$> pgss_hash world_after_restart
     = saved_view <$> pgss_hash world_with_rules.
Proof.
  destruct (restart_keeps_rules example_host
              (example_config PGFW_MODE_DISABLED PGFW_ENGINE_HYBRID 100)
              all_ok_dump all_ok_startup world_with_rules)
    as (_ & _ & Ht & Hs & _).
  - reflexivity.
  - exact texts_valid_world_with_rules.
  - vm_compute. discriminate.
  - vm_compute. discriminate.
  - exact encodings_world_with_rules.
  - repeat split.
  - repeat split.
  - split; [exact Ht | exact Hs].
Defined.

(** X9: the global warning and error counters across an orderly
    shutdown and the next startup, under the same conditions.  The
    startup returns, and the counters that
    [sql_firewall_stat_warning_count] and [sql_firewall_stat_error_count]
    return after it are those from before the shutdown; the counter file
    is removed once read. *)
Theorem restart_keeps_counters (h : host) (cfg : config) (d : dump_io)
    (sio : startup_io) (w : world) :
  loaded cfg = true ->
  texts_valid w ->
  Z.of_nat (size (pgss_hash w)) <= pgss_max cfg ->
  pgss_max cfg <= INT_MAX ->
  (forall k e, pgss_hash w !! k = Some e ->
               PG_VALID_BE_ENCODING h (encoding e) = true) ->
  dump_io_ok d ->
  startup_io_ok sio ->
  let r := pgss_shmem_startup h cfg sio
             (pgss_shmem_shutdown h cfg 0 d true true w) in
  let w' := snd r in
  fst r = startup_returns
  /\ sql_firewall_stat_warning_count cfg w' = Return (warning_count (pgss w))
  /\ sql_firewall_stat_error_count cfg w' = Return (error_count (pgss w))
  /\ counter_file w' = None.
Proof.
  intros Hloaded Hv Hsz Hmax Henc Hd Hs.
  destruct (restart_state h cfg d sio w Hloaded Hv Hsz Hmax Henc Hd Hs)
    as (Hr & _ & _ & _ & Herr & Hwarn & Hcf & _).
  cbv zeta. split; [exact Hr|].
  unfold sql_firewall_stat_warning_count, sql_firewall_stat_error_count.
  rewrite Hloaded, Herr, Hwarn. cbn [negb]. auto.
Qed.

Lemma to_be_prohibited_texts (cfg : config) (userid queryid : Z)
    (w : world) :
  texts_valid w ->
  texts_valid (snd (to_be_prohibited cfg userid queryid w)).
Proof.
  intros (f & Hf & Hlen & Hext & Hents).
  assert (Hcount : forall e,
             query_offset (count_entry e) = query_offset e
             /\ query_len (count_entry e) = query_len e).
  { intros e. unfold count_entry.
    destruct (entry_type e =? PGFW_WHITELIST_ENTRY);
      [|destruct (entry_type e =? PGFW_BLACKLIST_ENTRY)]; auto. }
  assert (Hstat : forall entry,
             texts_valid (collect_entry_statistics entry w)).
  { intros [k|]; [|exists f; auto].
    exists f. cbn [collect_entry_statistics set_hash qtext_file pgss
                   pgss_hash].
    split; [exact Hf|]. split; [exact Hlen|]. split; [exact Hext|].
    intros k' e' He'. destruct (decide (k = k')) as [<-|Hne].
    - rewrite lookup_alter_eq in He'.
      destruct (pgss_hash w !! k) as [e|] eqn:He; [|discriminate].
      injection He' as <-. destruct (Hcount e) as [-> ->].
      apply (Hents k e He).
    - rewrite lookup_alter_ne in He' by exact Hne. apply (Hents k' e' He'). }
  unfold to_be_prohibited, __to_be_prohibited.
  destruct (pgfw_rule_engine cfg); cbn [snd]; try apply Hstat.
  - exists f. auto.
  - repeat match goal with
           | |- context [if ?b then _ else _] => destruct b
           end; first [apply Hstat | exists f; auto].
Qed.

Lemma restart_keeps_counters_witness :
  error_count (pgss world_after_denial) = 1
  /\ sql_firewall_stat_error_count
       (example_config PGFW_MODE_ENFORCING PGFW_ENGINE_HYBRID 100)
       (snd (pgss_shmem_startup example_host
               (example_config PGFW_MODE_ENFORCING PGFW_ENGINE_HYBRID 100)
               all_ok_startup
               (pgss_shmem_shutdown example_host
                  (example_config PGFW_MODE_ENFORCING PGFW_ENGINE_HYBRID 100)
                  0 all_ok_dump true true world_after_denial)))
     = Return 1.
Proof.
  split; [vm_compute; reflexivity|].
  destruct (restart_keeps_counters example_host
              (example_config PGFW_MODE_ENFORCING PGFW_ENGINE_HYBRID 100)
              all_ok_dump all_ok_startup world_after_denial)
    as (_ & _ & Herr & _).
  - reflexivity.
  - unfold world_after_denial, pgss_store. cbn [loaded example_config negb
                                                 pgfw_mode GetUserId].
    pose proof (to_be_prohibited_texts
                  (example_config PGFW_MODE_ENFORCING PGFW_ENGINE_HYBRID 100)
                  10 42 world_with_rules texts_valid_world_with_rules) as Hv.
    destruct (to_be_prohibited _ 10 42 world_with_rules) as [[[|]| | |] w1];
      cbn [bind snd] in *; exact Hv.
  - vm_compute. discriminate.
  - vm_compute. discriminate.
  - intros k e He.
    assert (Hh : pgss_hash world_after_denial
                 = <[mkKey 10 42 98 := mkEntry (mkCounters 0 1) 9 8 6 98]>
                     {[ mkKey 10 42 119
                        := mkEntry (mkCounters 0 0) 0 8 6 119 ]})
      by (vm_compute; reflexivity).
    rewrite Hh in He.
    apply lookup_insert_Some in He as [[_ <-]|[_ He]]; [reflexivity|].
    apply lookup_singleton_Some in He as [_ <-]. reflexivity.
  - repeat split.
  - repeat split.
  - rewrite Herr. vm_compute. reflexivity.
Defined.

(** ** Export and the lines it writes *)

(** X10: exporting a table whose text references are all valid, by a
    superuser in Disabled mode, when the text file can be read and the
    target file opened and closed.  Each text is passed to
    [pg_any_to_server] before its row is written.  When the conversion
    accepts every text, the call returns true and the file holds one row
    for each entry, in the order of the table scan: user, query id, the
    C string of the text quoted as CSV, calls, banned and the type as a
    character.  When the conversion rejects the text of an entry and
    accepted those scanned before it, the call ends with the error of
    the conversion and the file holds the rows of the entries before
    that one.  The shared state is untouched in both cases. *)
Theorem export_valid_table (h : host) (cfg : config) (x : export_io)
    (w : world) :
  loaded cfg = true ->
  superuser cfg = true ->
  pgfw_mode cfg = PGFW_MODE_DISABLED ->
  texts_valid w ->
  x_load x = LoadOk -> x_open_ok x = true -> x_close_ok x = true ->
  exists f,
    qtext_file w = Some f
    /\ ((forall k e, pgss_hash w !! k = Some e -> text_converts h f e) ->
        sql_firewall_export_rule h cfg x w
        = (Return true,
           set_export_file w
             (Some (export_row f <$> hash_seq (pgss_hash w)))))
    /\ (forall l1 k e l2,
          hash_seq (pgss_hash w) = l1 ++ (k, e) :: l2 ->
          (forall k' e', (k', e') ∈ l1 -> text_converts h f e') ->
          ~ text_converts h f e ->
          sql_firewall_export_rule h cfg x w
          = (Ereport ERR_encoding_conversion,
             set_export_file w (Some (export_row f <$> l1)))).
Proof.
  intros Hloaded Hsuper Hmode (f & Hf & Hlen & _ & Hents) Hload Hopen Hclose.
  exists f. split; [exact Hf|].
  assert (Hin : forall k e, (k, e) ∈ hash_seq (pgss_hash w) ->
                            text_ref_ok f (query_offset e) (query_len e)).
  { intros k e Hke. apply elem_of_map_to_list in Hke. apply (Hents k e Hke). }
  split.
  - intros Hconv.
    unfold sql_firewall_export_rule, qtext_load_file.
    rewrite Hloaded, Hsuper, Hmode, Hload, Hopen, Hclose, Hf. cbn [negb].
    rewrite bool_decide_eq_true_2 by reflexivity. cbn [negb].
    rewrite (export_loop_ok h f _ Hlen).
    + reflexivity.
    + intros k e Hke. split; [apply (Hin k e Hke)|].
      apply elem_of_map_to_list in Hke. apply (Hconv k e Hke).
  - intros l1 k e l2 Hseq Hconv Hbad.
    unfold sql_firewall_export_rule, qtext_load_file.
    rewrite Hloaded, Hsuper, Hmode, Hload, Hopen, Hf. cbn [negb].
    rewrite bool_decide_eq_true_2 by reflexivity. cbn [negb].
    rewrite Hseq.
    rewrite (export_loop_conversion_error h f l1 l2 k e Hlen).
    + reflexivity.
    + intros k' e' Hke. split; [|apply (Hconv k' e' Hke)].
      apply (Hin k'). rewrite Hseq. apply elem_of_app. left. exact Hke.
    + apply (Hin k). rewrite Hseq. apply elem_of_app. right.
      apply elem_of_cons. left. reflexivity.
    + exact Hbad.
Qed.

Lemma export_valid_table_witness :
  (fst (sql_firewall_export_rule example_host
          (example_config PGFW_MODE_DISABLED PGFW_ENGINE_HYBRID 100)
          (mkExportIo LoadOk true true) world_with_rules)
   = Return true
   /\ option_map length
        (export_file
           (snd (sql_firewall_export_rule example_host
                   (example_config PGFW_MODE_DISABLED PGFW_ENGINE_HYBRID 100)
                   (mkExportIo LoadOk true true) world_with_rules)))
      = Some 2%nat)
  /\ (fst (sql_firewall_export_rule strict_host
             (example_config PGFW_MODE_DISABLED PGFW_ENGINE_HYBRID 100)
             (mkExportIo LoadOk true true) world_with_rules)
      = Ereport ERR_encoding_conversion
      /\ export_file
           (snd (sql_firewall_export_rule strict_host
                   (example_config PGFW_MODE_DISABLED PGFW_ENGINE_HYBRID 100)
                   (mkExportIo LoadOk true true) world_with_rules))
         = Some []).
Proof.
  split.
  - destruct (export_valid_table example_host
                (example_config PGFW_MODE_DISABLED PGFW_ENGINE_HYBRID 100)
                (mkExportIo LoadOk true true) world_with_rules)
      as (f & Hf & Hrun & _);
      [reflexivity | reflexivity | reflexivity
       | exact texts_valid_world_with_rules
       | reflexivity | reflexivity | reflexivity |].
    rewrite Hrun by (intros k e _; discriminate).
    split; [reflexivity|].
    cbn [snd set_export_file export_file option_map].
    rewrite length_fmap. vm_compute. reflexivity.
  - destruct (export_valid_table strict_host
                (example_config PGFW_MODE_DISABLED PGFW_ENGINE_HYBRID 100)
                (mkExportIo LoadOk true true) world_with_rules)
      as (f & Hf & _ & Hrun);
      [reflexivity | reflexivity | reflexivity
       | exact texts_valid_world_with_rules
       | reflexivity | reflexivity | reflexivity |].
    destruct (hash_seq (pgss_hash world_with_rules)) as [|[k e] l2] eqn:Hseq;
      [vm_compute in Hseq; discriminate|].
    rewrite (Hrun [] k e l2 eq_refl).
    + split; reflexivity.
    + intros k' e' Hin. apply elem_of_nil in Hin. destruct Hin.
    + intros Hc. apply Hc. reflexivity.
Defined.

(** X11: reading back a line of an exported rule file.  For a line made
    of the user, the query id, the query text quoted as the export quotes
    it, calls, banned and the type, each of the five other fields not
    empty and free of quote, comma and newline, and the text free of NUL,
    [parse_csv_values] finds six fields: the five as written and the
    query text as it was before quoting. *)
Theorem parse_exported_line
    (userid queryid query calls banned rule_type : list byte) :
  csv_plain userid -> csv_plain queryid -> csv_plain calls ->
  csv_plain banned -> csv_plain rule_type ->
  Forall (fun c => c <> x00) query ->
  Z.of_nat (length (csv_line userid queryid query calls banned rule_type))
  < INT_MAX ->
  parse_csv_values SQL_FIREWALL_CSV_COLS
                   (csv_line userid queryid query calls banned rule_type)
  = Return [userid; queryid; query; calls; banned; rule_type].
Proof.
  intros Hu Hq Hc Hb Ht Hnul Hlen.
  destruct (csv_loop_line userid queryid query calls banned rule_type
              Hu Hq Hc Hb Ht Hnul Hlen) as (off & Hloop).
  unfold parse_csv_values.
  assert (Hline : Forall (fun c => c <> x00)
                         (csv_line userid queryid query calls banned
                                   rule_type)).
  { unfold csv_line. rewrite !Forall_app, !Forall_singleton.
    repeat split;
      first [apply csv_plain_no_nul; assumption
            | apply csv_quote_no_nul; assumption
            | discriminate]. }
  rewrite (strlen_no_nul _ Hline).
  rewrite to_int_small by (unfold INT_MAX in *; lia).
  rewrite Nat2Z.id, firstn_all, Hloop. reflexivity.
Qed.

Lemma parse_exported_line_witness :
  csv_line example_userid example_queryid example_query example_calls
           example_banned example_type
  = ["1"; "0"; ","; "4"; "2"; ","; x22; "a"; ","; x22; x22; "b"; x0a; "c";
     x22; ","; "0"; ","; "7"; ","; "w"; x0a]%byte
  /\ parse_csv_values SQL_FIREWALL_CSV_COLS
       (csv_line example_userid example_queryid example_query example_calls
                 example_banned example_type)
     = Return [example_userid; example_queryid; example_query; example_calls;
               example_banned; example_type].
Proof.
  split; [vm_compute; reflexivity|].
  apply (parse_exported_line example_userid example_queryid example_query
           example_calls example_banned example_type);
    try (split; [discriminate | repeat constructor; discriminate]).
  - repeat constructor; discriminate.
  - vm_compute. reflexivity.
Defined.

(** X12: [parse_csv_values] on fields that need no quoting, each followed
    by a comma or a newline.  Up to as many fields as the array of the
    caller has elements are stored and returned in order; a newline
    inside the line separates fields like a comma.  With one field more
    the function stores a pointer behind the end of the array: it has no
    check of the field count. *)
Theorem parse_plain_fields (nvalues : Z) (fs : list (list byte * byte)) :
  0 <= nvalues ->
  Forall (fun fs => csv_plain (fst fs)
                    /\ (snd fs = ","%byte \/ snd fs = x0a)) fs ->
  Z.of_nat (length (csv_fields_line fs)) < INT_MAX ->
  (Z.of_nat (length fs) <= nvalues ->
   parse_csv_values nvalues (csv_fields_line fs) = Return (fst <$> fs))
  /\ (nvalues < Z.of_nat (length fs) ->
      parse_csv_values nvalues (csv_fields_line fs) = OutOfBounds).
Proof.
  intros Hn Hfs Hlen.
  assert (Hnul : Forall (fun c => c <> x00) (csv_fields_line fs)).
  { unfold csv_fields_line. clear Hlen.
    induction Hfs as [|[f s] fs [Hf Hs] _ IH]; [constructor|].
    cbn [flat_map fst snd] in *. rewrite !Forall_app, Forall_singleton.
    split; [split|exact IH].
    - apply csv_plain_no_nul. exact Hf.
    - destruct Hs; subst s; discriminate. }
  destruct (csv_loop_fields nvalues fs Hfs CSV_DEFAULT 0 0 [])
    as [Hok Hfull]; [left; reflexivity | lia | lia | simpl; lia|].
  unfold parse_csv_values.
  rewrite (strlen_no_nul _ Hnul).
  rewrite to_int_small by (unfold INT_MAX in *; lia).
  rewrite Nat2Z.id, firstn_all.
  cbn [length app] in Hok, Hfull.
  split; intros Hcount.
  - destruct Hok as (m' & off' & ->); [lia|]. reflexivity.
  - rewrite Hfull by lia. reflexivity.
Qed.

Lemma parse_plain_fields_witness :
  parse_csv_values SQL_FIREWALL_CSV_COLS (csv_fields_line seven_fields)
  = OutOfBounds
  /\ parse_csv_values SQL_FIREWALL_CSV_COLS (csv_fields_line two_short_lines)
     = Return [["1"]; ["2"]; ["3"]; ["4"]; ["5"]; ["6"]]%byte.
Proof.
  assert (Hplain : forall c : byte,
             c <> x22 -> c <> ","%byte -> c <> x0a -> c <> x00 ->
             csv_plain [c]).
  { intros c H1 H2 H3 H4. split; [discriminate|].
    constructor; [auto | constructor]. }
  split.
  - apply (parse_plain_fields SQL_FIREWALL_CSV_COLS seven_fields).
    + discriminate.
    + repeat (constructor;
              [split; [apply Hplain; discriminate | auto]|]).
      constructor.
    + vm_compute. reflexivity.
    + vm_compute. reflexivity.
  - apply (parse_plain_fields SQL_FIREWALL_CSV_COLS two_short_lines).
    + discriminate.
    + repeat (constructor;
              [split; [apply Hplain; discriminate | auto]|]).
      constructor.
    + vm_compute. reflexivity.
    + vm_compute. discriminate.
Defined.

(** ** The view *)

Lemma qtext_load_file_hash (ld : load_io) (w : world) :
  pgss_hash (snd (qtext_load_file ld w)) = pgss_hash w
  /\ pgss (snd (qtext_load_file ld w)) = pgss w
  /\ qtext_file (snd (qtext_load_file ld w)) = qtext_file w.
Proof.
  unfold qtext_load_file.
  destruct (qtext_file w) eqn:Hf; [destruct ld as [|[ev|]]|]; cbn;
    rewrite ?Hf; repeat split; reflexivity.
Qed.

(** X13: what the view shows to a user who is not a superuser.  In every
    row of another user the query id is NULL and the query text is the
    note "<insufficient privilege>" when texts were asked for and NULL
    otherwise; the user id, the counters and the type name of every rule
    are shown.  The call changes neither the table nor the shared
    counters. *)
Theorem view_hides_other_users (h : host) (cfg : config) (ctx : view_call)
    (ld1 ld2 : load_io) (showtext : bool) (w w' : world)
    (rows : list view_row) :
  superuser cfg = false ->
  pg_stat_statements_internal h cfg ctx ld1 ld2 showtext w
  = (ViewRows rows, w') ->
  Forall (fun r => v_userid r <> GetUserId cfg ->
                   v_queryid r = None
                   /\ v_query r = if showtext then Some insufficient_privilege
                                  else None) rows
  /\ pgss_hash w' = pgss_hash w
  /\ pgss w' = pgss w.
Proof.
  intros Hsu Hrun. unfold pg_stat_statements_internal in Hrun.
  destruct (negb (loaded cfg)); [discriminate|].
  destruct (negb (rsinfo_ok ctx)); [discriminate|].
  destruct (negb (materialize_ok ctx)); [discriminate|].
  destruct (negb (row_type_ok ctx)); [discriminate|].
  cbv zeta in Hrun.
  set (r1 := if showtext && (n_writers (pgss w) =? 0)
             then qtext_load_file ld1 w else (None, w)) in Hrun.
  assert (H1 : pgss_hash (snd r1) = pgss_hash w /\ pgss (snd r1) = pgss w).
  { unfold r1. destruct (showtext && (n_writers (pgss w) =? 0)).
    - destruct (qtext_load_file_hash ld1 w) as (? & ? & _). auto.
    - auto. }
  destruct r1 as [qbuffer w1]. cbn [snd] in H1. destruct H1 as [Hh1 Hp1].
  set (r2 := if showtext
                && (bool_decide (qbuffer = None)
                    || negb (extent (pgss w1) =? extent (pgss w))
                    || negb (gc_count (pgss w1) =? gc_count (pgss w)))
             then qtext_load_file ld2 w1 else (qbuffer, w1)) in Hrun.
  assert (H2 : pgss_hash (snd r2) = pgss_hash w /\ pgss (snd r2) = pgss w).
  { unfold r2.
    destruct (showtext && _).
    - destruct (qtext_load_file_hash ld2 w1) as (? & ? & _).
      split; congruence.
    - auto. }
  destruct r2 as [qbuffer2 w2]. cbn [snd] in H2. destruct H2 as [Hh2 Hp2].
  destruct (view_loop h cfg showtext qbuffer2 _ (hash_seq (pgss_hash w2)))
    as [rows'| | | | | |] eqn:Hloop; try discriminate.
  injection Hrun as <- <-.
  split; [|auto].
  eapply view_loop_privacy; [exact Hsu | exact Hloop].
Qed.

Lemma view_hides_other_users_witness :
  Forall (fun r => v_userid r <> 11 ->
                   v_queryid r = None
                   /\ v_query r = Some insufficient_privilege)
         [mkViewRow 10 None (Some insufficient_privilege) 0 0
                    ["w"; "h"; "i"; "t"; "e"; "l"; "i"; "s"; "t"]%byte;
          mkViewRow 10 None (Some insufficient_privilege) 0 0
                    ["b"; "l"; "a"; "c"; "k"; "l"; "i"; "s"; "t"]%byte].
Proof.
  destruct (view_hides_other_users example_host example_user_config
              example_view_call LoadOk LoadOk true world_with_rules
              (snd (pg_stat_statements_internal example_host
                      example_user_config example_view_call LoadOk LoadOk
                      true world_with_rules))
              [mkViewRow 10 None (Some insufficient_privilege) 0 0
                         ["w"; "h"; "i"; "t"; "e"; "l"; "i"; "s"; "t"]%byte;
               mkViewRow 10 None (Some insufficient_privilege) 0 0
                         ["b"; "l"; "a"; "c"; "k"; "l"; "i"; "s"; "t"]%byte])
    as (Hrows & _).
  - reflexivity.
  - vm_compute. reflexivity.
  - exact Hrows.
Defined.

(** X14: the view when the query-text file cannot be read.  The call
    still returns one row for every rule, in the order of the table scan,
    with the user id, the counters and the type name; the query text is
    NULL in the rows the caller may read, and the note
    "<insufficient privilege>" in the others when texts were asked for. *)
Theorem view_without_texts (h : host) (cfg : config) (ctx : view_call)
    (ev1 ev2 : option log_event) (showtext : bool) (w : world) :
  loaded cfg = true ->
  rsinfo_ok ctx = true -> materialize_ok ctx = true ->
  row_type_ok ctx = true ->
  fst (pg_stat_statements_internal h cfg ctx (LoadFails ev1)
         (LoadFails ev2) showtext w)
  = ViewRows (view_row_without_text cfg showtext <$> hash_seq (pgss_hash w)).
Proof.
  intros Hloaded Hrs Hmat Hrow. unfold pg_stat_statements_internal.
  rewrite Hloaded, Hrs, Hmat, Hrow. cbn [negb]. cbv zeta.
  set (r1 := if showtext && (n_writers (pgss w) =? 0)
             then qtext_load_file (LoadFails ev1) w else (None, w)).
  assert (H1 : fst r1 = None /\ pgss_hash (snd r1) = pgss_hash w).
  { unfold r1. destruct (showtext && (n_writers (pgss w) =? 0)); [|auto].
    destruct (qtext_load_file_hash (LoadFails ev1) w) as (Hh & _).
    split; [|exact Hh]. unfold qtext_load_file.
    destruct (qtext_file w); [destruct ev1|]; reflexivity. }
  destruct r1 as [qbuffer w1]. cbn [fst snd] in H1. destruct H1 as [-> Hh1].
  set (r2 := if showtext && _ then qtext_load_file (LoadFails ev2) w1
             else (None, w1)).
  assert (H2 : fst r2 = None /\ pgss_hash (snd r2) = pgss_hash w).
  { unfold r2. destruct (showtext && _); [|auto].
    destruct (qtext_load_file_hash (LoadFails ev2) w1) as (Hh & _).
    split; [|congruence]. unfold qtext_load_file.
    destruct (qtext_file w1); [destruct ev2|]; reflexivity. }
  destruct r2 as [qbuffer2 w2]. cbn [fst snd] in H2. destruct H2 as [-> Hh2].
  rewrite view_loop_no_buffer, Hh2. reflexivity.
Qed.

Lemma view_without_texts_witness :
  fst (pg_stat_statements_internal example_host
         (example_config PGFW_MODE_DISABLED PGFW_ENGINE_HYBRID 100)
         example_view_call
         (LoadFails (Some LOG_out_of_memory))
         (LoadFails (Some LOG_out_of_memory)) true world_with_rules)
  = ViewRows
      [mkViewRow 10 (Some 42) None 0 0
                 ["w"; "h"; "i"; "t"; "e"; "l"; "i"; "s"; "t"]%byte;
       mkViewRow 10 (Some 42) None 0 0
                 ["b"; "l"; "a"; "c"; "k"; "l"; "i"; "s"; "t"]%byte].
Proof.
  rewrite (view_without_texts example_host
             (example_config PGFW_MODE_DISABLED PGFW_ENGINE_HYBRID 100)
             example_view_call (Some LOG_out_of_memory)
             (Some LOG_out_of_memory) true world_with_rules
             eq_refl eq_refl eq_refl eq_refl).
  vm_compute. reflexivity.
Defined.

(** X15: [fill_in_constant_lengths] keeps the recorded constant locations,
    each as often as it was recorded, and returns them in ascending order
    whatever order they were recorded in and whatever the scanner
    delivers. *)
Theorem fill_in_constant_lengths_sorts (h : host)
    (clocations : list pgssLocationLen) (query : list byte) :
  location <$> fill_in_constant_lengths h clocations query
    ≡ₚ location <$> clocations
  /\ ordered Z.le (location <$> fill_in_constant_lengths h clocations query).
Proof.
  unfold fill_in_constant_lengths. cbv zeta.
  rewrite fill_lengths_locations.
  destruct clocations as [|a [|b l]].
  - split; [reflexivity | exact I].
  - split; [reflexivity | cbn; auto].
  - split.
    + apply fmap_Permutation, qsort_locations_perm.
    + apply qsort_locations_sorted.
Qed.

(** X16: the lengths that [fill_in_constant_lengths] gives.  For a text
    without NUL of at most [INT_MAX] bytes, locations recorded by
    [RecordConstLocation] and a scanner that delivers its tokens in the
    order of the text, none empty and all inside the text, every location
    comes back either unresolved (length -1) or with a length of at least
    one byte that ends inside the text; and the resolved locations are
    strictly ascending, so a location recorded twice is resolved once. *)
Theorem fill_in_constant_lengths_spans (h : host) (locations : list Z)
    (query : list byte) :
  Forall (fun c => c <> x00) query ->
  Z.of_nat (length query) <= INT_MAX ->
  tokens_ok (Z.of_nat (length query)) 0 (core_yylex h query) ->
  let locs := fill_in_constant_lengths h
                (foldl RecordConstLocation [] locations) query in
  Forall (fun l => tok_length l = -1
                   \/ (1 <= tok_length l
                       /\ location l + tok_length l
                          <= Z.of_nat (length query))) locs
  /\ Forall (fun x => 0 <= x) (resolved_locations locs)
  /\ ordered Z.lt (resolved_locations locs).
Proof.
  intros Hnul Hmax Htoks locs. subst locs.
  unfold fill_in_constant_lengths. cbv zeta.
  pose proof (RecordConstLocation_fresh locations [] (Forall_nil_2 _))
    as Hfresh.
  set (cl := foldl RecordConstLocation [] locations) in *.
  assert (Hsorted : Forall (fun l => 0 <= location l /\ tok_length l = -1)
                           match cl with
                           | _ :: _ :: _ => qsort_locations cl
                           | _ => cl
                           end).
  { destruct cl as [|a [|b l]]; try exact Hfresh.
    eapply Permutation_Forall; [|exact Hfresh].
    symmetry. apply qsort_locations_perm. }
  destruct (fill_lengths_resolved query Hnul Hmax _ _ 0 (-1) Htoks Hsorted)
    as (H1 & H2 & H3).
  split; [exact H1|]. split; [|exact H3].
  eapply Forall_impl; [exact H2|]. cbn. intros x Hx. lia.
Qed.

Lemma fill_in_constant_lengths_spans_witness :
  fill_in_constant_lengths example_scanner_host
    (foldl RecordConstLocation [] [10; 2; -1; 10]) example_query_text
  = [mkLoc 2 2; mkLoc 10 2; mkLoc 10 (-1)]
  /\ ordered Z.lt
       (resolved_locations
          (fill_in_constant_lengths example_scanner_host
             (foldl RecordConstLocation [] [10; 2; -1; 10])
             example_query_text)).
Proof.
  split; [vm_compute; reflexivity|].
  apply (fill_in_constant_lengths_spans example_scanner_host
           [10; 2; -1; 10] example_query_text).
  - repeat constructor; discriminate.
  - unfold INT_MAX. simpl. lia.
  - simpl. lia.
Defined.

(** ** Learning: the table and the texts *)

(** X17: Learning keeps every stored text readable.  In a state where
    every entry refers to a NUL-terminated text inside the file, a
    Learning-mode evaluation that creates an entry (first write
    successful, garbage collection, if it runs, successful) returns
    normally and leaves such a state again: the text of the new whitelist
    entry is the learned text with its terminator, and every older entry
    has the text it had. *)
Theorem learning_keeps_texts (h : host) (cfg : config) (io : store_io)
    (query : list byte) (queryId : Z)
    (jstate : option (list pgssLocationLen)) (w : world) (text : list byte) :
  let key := mkKey (GetUserId cfg) queryId PGFW_WHITELIST_ENTRY in
  loaded cfg = true ->
  pgfw_mode cfg = PGFW_MODE_LEARNING ->
  lookup_whitelist (GetUserId cfg) queryId w = None ->
  learned_text h query jstate = Some (text, Z.of_nat (length text)) ->
  texts_valid w ->
  io_write1 io = WriteOk ->
  gc_io_ok (io_gc io) ->
  Z.of_nat (size (pgss_hash w)) < pgss_max cfg ->
  pgss_max cfg <= INT_MAX ->
  Z.of_nat (length text) < INT_MAX ->
  extent (pgss w) + Z.of_nat (length text) + 1 < Size_max ->
  exists w',
    pgss_store h cfg io query queryId jstate w = (Return tt, w')
    /\ texts_valid w'
    /\ texts_of w' = <[key := text ++ [x00]]> (texts_of w)
    /\ rules_of w'
       = <[key := (mkCounters 0 0, GetDatabaseEncoding cfg,
                   PGFW_WHITELIST_ENTRY)]> (rules_of w).
Proof.
  cbv zeta. intros Hloaded Hmode Hlookup Hnorm Hv Hwr Hgc Hroom Hmax Hlen Hwrap.
  pose proof (lookup_rule_None _ _ _ _ Hlookup) as Hnone.
  change (to_char PGFW_WHITELIST_ENTRY) with PGFW_WHITELIST_ENTRY in Hnone.
  assert (Hext : 0 <= extent (pgss w))
    by (destruct Hv as (? & ? & ? & ? & ?); assumption).
  pose proof (qtext_store_ok text w Hlen Hext Hwrap) as Hst.
  pose proof (qtext_store_frame text (Z.of_nat (length text)) WriteOk w) as F.
  cbv zeta in Hst, F.
  rewrite (to_int_small (Z.of_nat (length text))) in Hst
    by (unfold INT_MAX in *; lia).
  unfold pgss_store. rewrite Hloaded, Hmode, Hlookup. cbv zeta. cbn [negb].
  change (to_char PGFW_WHITELIST_ENTRY) with PGFW_WHITELIST_ENTRY.
  unfold learned_text in Hnorm. rewrite Hnorm, Hwr.
  destruct (qtext_store text (Z.of_nat (length text)) WriteOk w)
    as [[[stored off] gcc] w1].
  cbn [fst snd] in F. destruct F as (_ & Hgcc & _ & Hgc1 & _).
  destruct Hst as (-> & -> & _ & Hh1 & Hext1 & f1 & Hf1 & -> & Htxt & Hok).
  rewrite Hgc1, Hgcc, Z.eqb_refl. cbn [negb orb].
  unfold entry_alloc. rewrite Hh1.
  destruct (Z.leb_spec (pgss_max cfg) (Z.of_nat (size (pgss_hash w))));
    [lia|].
  rewrite Hnone. cbn [set_hash pgss_hash]. rewrite alter_insert_eq.
  cbn [set_entry_type counters query_offset query_len encoding].
  set (key := mkKey (GetUserId cfg) queryId PGFW_WHITELIST_ENTRY) in *.
  set (e := mkEntry (mkCounters 0 0) (extent (pgss w))
                    (Z.of_nat (length text)) (GetDatabaseEncoding cfg)
                    PGFW_WHITELIST_ENTRY).
  set (w4 := set_hash _ _).
  destruct Hv as (f & Hf & Hv').
  rewrite Hf in Hf1, Htxt, Hok. cbn [default] in Hf1, Htxt, Hok.
  destruct (texts_valid_insert w w4 f text key e) as [Hv4 Ht4];
    try assumption; try reflexivity.
  { exists f. split; assumption. }
  assert (Hr4 : rules_of w4
                = <[key := (mkCounters 0 0, GetDatabaseEncoding cfg,
                            PGFW_WHITELIST_ENTRY)]> (rules_of w)).
  { unfold rules_of, w4. cbn [set_hash pgss_hash].
    rewrite fmap_insert. reflexivity. }
  eexists. split; [reflexivity|].
  destruct (need_gc_qtexts cfg w1).
  - destruct (gc_qtexts_texts cfg (io_gc io) w4 Hv4) as (Hv5 & Ht5 & _).
    { unfold w4. cbn [set_hash pgss_hash].
      rewrite map_size_insert_None by exact Hnone. lia. }
    { exact Hgc. }
    split; [exact Hv5|]. split; [rewrite Ht5; exact Ht4|].
    rewrite gc_qtexts_rules. exact Hr4.
  - split; [exact Hv4|]. split; [exact Ht4 | exact Hr4].
Qed.

Lemma learning_keeps_texts_witness :
  exists w',
    pgss_store example_host
      (example_config PGFW_MODE_LEARNING PGFW_ENGINE_HYBRID 100) all_ok_io
      select_text 43 None world_with_rules = (Return tt, w')
    /\ texts_valid w'
    /\ texts_of w'
       = <[mkKey 10 43 PGFW_WHITELIST_ENTRY := select_text ++ [x00]]>
           (texts_of world_with_rules).
Proof.
  destruct (learning_keeps_texts example_host
              (example_config PGFW_MODE_LEARNING PGFW_ENGINE_HYBRID 100)
              all_ok_io select_text 43 None world_with_rules select_text)
    as (w' & Hrun & Hv & Ht & _).
  - reflexivity.
  - reflexivity.
  - vm_compute. reflexivity.
  - vm_compute. reflexivity.
  - exact texts_valid_world_with_rules.
  - reflexivity.
  - repeat split; reflexivity.
  - vm_compute. reflexivity.
  - vm_compute. discriminate.
  - vm_compute. reflexivity.
  - vm_compute. reflexivity.
  - exists w'. split; [exact Hrun|]. split; [exact Hv | exact Ht].
Defined.

Lemma dump_loop_no_texts (d : dump_io) (qbuffer : list byte)
    (l : list (pgssHashKey * pgssEntry)) :
  forall written,
    Forall (fun ke => query_len ke.2 < 0) l ->
    dump_loop d qbuffer written l = Some [].
Proof.
  induction l as [|[k e] l IH]; intros written Hl; [reflexivity|].
  apply Forall_cons in Hl as [He Hl]. cbn [snd] in He.
  cbn [dump_loop]. unfold qtext_fetch.
  destruct (Z.ltb_spec (query_len e) 0); [|lia]. cbn [orb].
  apply IH. exact Hl.
Qed.

(** X18: a restart when no entry has a text, as after a failed garbage
    collection.  The shutdown writes a rule file whose header counts every
    entry and which holds no record, as entries without a text are skipped
    after the count was written.  The next startup fails to read the first
    record: it returns with the table empty and the failure logged, and
    the warning and error counters start at 0 with the counter file left
    in place. *)
Theorem restart_without_texts_loses_rules (h : host) (cfg : config)
    (d : dump_io) (sio : startup_io) (w : world) (f : list byte) :
  loaded cfg = true ->
  qtext_file w = Some f ->
  (forall k e, pgss_hash w !! k = Some e -> query_len e < 0) ->
  (0 < size (pgss_hash w))%nat ->
  Z.of_nat (size (pgss_hash w)) <= INT_MAX ->
  dump_io_ok d ->
  startup_io_ok sio ->
  let r := pgss_shmem_startup h cfg sio
             (pgss_shmem_shutdown h cfg 0 d true true w) in
  let w' := snd r in
  fst r = startup_returns
  /\ rule_file w'
  = Some (mkStatFile PGSS_FILE_HEADER (PGSS_PG_MAJOR_VERSION h)
                     (Z.of_nat (size (pgss_hash w))) [])
  /\ pgss_hash w' = ∅
  /\ last (server_log w') = Some LOG_could_not_read_stat_file
  /\ error_count (pgss w') = 0
  /\ warning_count (pgss w') = 0
  /\ counter_file w'
     = Some (warning_count (pgss w), error_count (pgss w)).
Proof.
  intros Hloaded Hf Hlen Hne Hmax
         (Hopen & Hhead & Hload & Hfw & Hclose & Hren)
         (Hfound & Hqopen & Hfopen & _ & _ & _).
  cbv zeta.
  set (file := mkStatFile PGSS_FILE_HEADER (PGSS_PG_MAJOR_VERSION h)
                 (Z.of_nat (size (pgss_hash w))) []).
  assert (Hws : pgss_shmem_shutdown h cfg 0 d true true w
                = ereport_log
                    (set_qtext_file
                       (set_counter_file
                          (set_rule_file w (Some file))
                          (Some (warning_count (pgss w), error_count (pgss w))))
                       None)
                    LOG_stat_file_updated).
  { unfold pgss_shmem_shutdown. rewrite Hloaded.
    change (negb (0 =? 0)) with false. cbn [negb pgss_save].
    unfold update_firewall_rule_file, qtext_load_file.
    rewrite Hopen, Hhead, Hload, Hf. cbn [negb].
    rewrite dump_loop_no_texts.
    - rewrite Hclose, Hren. cbn [negb].
      rewrite to_int_small by (unfold INT_MAX in *; lia). reflexivity.
    - apply Forall_forall. intros [k e] Hke.
      apply elem_of_map_to_list in Hke. apply (Hlen k e Hke). }
  rewrite Hws. clear Hws.
  unfold pgss_shmem_startup. rewrite Hfound, Hqopen. cbn [negb pgss_save].
  cbn [rule_file set_qtext_file set_hash set_pgss ereport_log set_counter_file
       set_rule_file].
  rewrite Hfopen. cbn [negb header pgver num records file].
  rewrite !Z.eqb_refl. cbn [negb orb startup_loop].
  destruct (Z.ltb_spec 0 (Z.of_nat (size (pgss_hash w)))); [|lia].
  cbn [fst snd startup_fail ereport_log rule_file pgss_hash server_log pgss
       counter_file error_count warning_count].
  rewrite last_snoc. repeat split; reflexivity.
Qed.

Lemma restart_without_texts_loses_rules_witness :
  pgss_hash world_after_failed_gc
  = {[ mkKey 10 42 119 := mkEntry (mkCounters 0 0) 0 (-1) 6 119 ]}
  /\ pgss_hash
       (snd (pgss_shmem_startup example_host
               (example_config PGFW_MODE_ENFORCING PGFW_ENGINE_HYBRID 100)
               all_ok_startup
               (pgss_shmem_shutdown example_host
                  (example_config PGFW_MODE_ENFORCING PGFW_ENGINE_HYBRID 100)
                  0 all_ok_dump true true world_after_failed_gc)))
     = ∅.
Proof.
  assert (Hh : pgss_hash world_after_failed_gc
               = {[ mkKey 10 42 119
                    := mkEntry (mkCounters 0 0) 0 (-1) 6 119 ]})
    by (vm_compute; reflexivity).
  split; [exact Hh|].
  destruct (restart_without_texts_loses_rules example_host
              (example_config PGFW_MODE_ENFORCING PGFW_ENGINE_HYBRID 100)
              all_ok_dump all_ok_startup world_after_failed_gc [])
    as (_ & _ & Hempty & _).
  - reflexivity.
  - vm_compute. reflexivity.
  - intros k e He. rewrite Hh in He.
    apply lookup_singleton_Some in He as [_ <-]. cbn. lia.
  - rewrite Hh, map_size_singleton. lia.
  - rewrite Hh, map_size_singleton. unfold INT_MAX. lia.
  - repeat split; reflexivity.
  - repeat split; reflexivity.
  - exact Hempty.
Defined.


Lemma rule_typeid_char (rule_type_name : list byte) :
  to_char (rule_typeid rule_type_name) = rule_typeid rule_type_name.
Proof.
  unfold rule_typeid, rule_type_options. cbn [rule_typeid_from].
  repeat match goal with
         | |- context [decide ?P] => destruct (decide P)
         end; reflexivity.
Qed.

(** X20: the type field of every entry stays equal to the rule type of its
    key.  From a table where it is so, the evaluation of a statement in
    any mode, [sql_firewall_add_rule], [sql_firewall_del_rule] and a
    garbage collection of the query texts, successful or not, leave a
    table where it is so. *)
Theorem entry_types_kept (h : host) (cfg : config) (w : world) :
  entry_types_match (pgss_hash w) ->
  (forall io query queryId jstate,
      entry_types_match
        (pgss_hash (snd (pgss_store h cfg io query queryId jstate w))))
  /\ (forall io username query_string rule_type_name,
         entry_types_match
           (pgss_hash (snd (sql_firewall_add_rule h cfg io username
                              query_string rule_type_name w))))
  /\ (forall username query_string rule_type_name,
         entry_types_match
           (pgss_hash (snd (sql_firewall_del_rule h cfg username
                              query_string rule_type_name w))))
  /\ (forall g, entry_types_match (pgss_hash (gc_qtexts cfg g w))).
Proof.
  intros Hm. split; [|split; [|split]].
  - intros io query queryId jstate. apply pgss_store_keeps_types. exact Hm.
  - intros io username query_string rule_type_name.
    unfold sql_firewall_add_rule. cbv zeta.
    destruct (loaded cfg); cbn [negb]; [|exact Hm].
    destruct (superuser cfg); cbn [negb]; [|exact Hm].
    destruct (bool_decide (pgfw_mode cfg = PGFW_MODE_DISABLED)); cbn [negb];
      [|exact Hm].
    destruct (rule_typeid rule_type_name =? PGFW_DUMMY_ENTRY); [exact Hm|].
    unfold add_rule. cbv zeta.
    destruct (sql_firewall_queryid h query_string true)
      as [[queryid normalized_query]| | |]; cbn [bind snd]; try exact Hm.
    unfold __add_rule.
    match goal with
    | |- context [pgss_restore cfg io ?u ?q ?t 0 0 ?ty w] =>
        pose proof (pgss_restore_keeps_types cfg io u q t 0 0 ty w
                      (rule_typeid_char rule_type_name) Hm) as Hr;
        destruct (pgss_restore cfg io u q t 0 0 ty w) as [[ret| | |] w1]
    end; cbn [bind snd] in *; exact Hr.
  - intros username query_string rule_type_name.
    unfold sql_firewall_del_rule. cbv zeta.
    destruct (loaded cfg); cbn [negb]; [|exact Hm].
    destruct (superuser cfg); cbn [negb]; [|exact Hm].
    destruct (bool_decide (pgfw_mode cfg = PGFW_MODE_DISABLED)); cbn [negb];
      [|exact Hm].
    unfold del_rule. cbv zeta.
    destruct (sql_firewall_queryid h query_string false)
      as [[queryid normalized_query]| | |]; cbn [bind snd]; try exact Hm.
    unfold __del_rule, entry_delete. cbn [bind snd set_hash pgss_hash].
    intros k e He. apply lookup_delete_Some in He as [_ He].
    apply (Hm k e He).
  - intros g. apply gc_qtexts_types. exact Hm.
Qed.

Lemma entry_types_kept_witness :
  entry_types_match
    (pgss_hash
       (snd (pgss_store example_host
               (example_config PGFW_MODE_ENFORCING PGFW_ENGINE_HYBRID 100)
               all_ok_io select_text 42 None world_with_rules))).
Proof.
  destruct (entry_types_kept example_host
              (example_config PGFW_MODE_ENFORCING PGFW_ENGINE_HYBRID 100)
              world_with_rules types_match_before_restart) as (Hstore & _).
  apply Hstore.
Defined.

(** X21: [sql_firewall_reset] by a superuser in Disabled mode, when the
    query-text file can be re-created and the rule file written.  The call
    returns; the table and the query-text file are empty and the extent is
    0; the rule file is rewritten with a count of 0 and no record; the
    reset counts as a garbage collection; the warning and error counters
    keep their values. *)
Theorem sql_firewall_reset_clears_rules (h : host) (cfg : config)
    (truncate_ok : bool) (d : dump_io) (w : world) :
  superuser cfg = true ->
  pgfw_mode cfg = PGFW_MODE_DISABLED ->
  loaded cfg = true ->
  dump_io_ok d ->
  let r := sql_firewall_reset h cfg true truncate_ok d w in
  fst r = Return tt
  /\ pgss_hash (snd r) = ∅
  /\ qtext_file (snd r) = Some []
  /\ extent (pgss (snd r)) = 0
  /\ rule_file (snd r)
     = Some (mkStatFile PGSS_FILE_HEADER (PGSS_PG_MAJOR_VERSION h) 0 [])
  /\ gc_count (pgss (snd r)) = to_int (gc_count (pgss w) + 1)
  /\ error_count (pgss (snd r)) = error_count (pgss w)
  /\ warning_count (pgss (snd r)) = warning_count (pgss w).
Proof.
  intros Hsuper Hmode Hloaded (Hopen & Hhead & Hload & Hfw & Hclose & Hren).
  cbv zeta. unfold sql_firewall_reset.
  rewrite Hsuper, Hmode, Hloaded.
  rewrite bool_decide_eq_true_2 by reflexivity. cbn [negb fst snd].
  unfold update_firewall_rule_file, qtext_load_file.
  rewrite Hopen, Hhead, Hload, Hclose, Hren. cbn [negb].
  unfold entry_reset. cbv zeta.
  destruct truncate_ok;
    cbn [record_gc_qtexts set_pgss set_qtext_file set_hash ereport_log
         qtext_file pgss_hash pgss];
    unfold hash_seq; rewrite map_to_list_empty; cbn [dump_loop];
    cbn [set_rule_file rule_file pgss_hash qtext_file pgss extent gc_count
         error_count warning_count];
    rewrite map_size_empty; repeat split; reflexivity.
Qed.

Lemma sql_firewall_reset_clears_rules_witness :
  pgss_hash
    (snd (sql_firewall_reset example_host
            (example_config PGFW_MODE_DISABLED PGFW_ENGINE_HYBRID 100)
            true true all_ok_dump world_with_rules))
  = ∅.
Proof.
  destruct (sql_firewall_reset_clears_rules example_host
              (example_config PGFW_MODE_DISABLED PGFW_ENGINE_HYBRID 100)
              true all_ok_dump world_with_rules)
    as (_ & Hempty & _).
  - reflexivity.
  - reflexivity.
  - reflexivity.
  - repeat split; reflexivity.
  - exact Hempty.
Defined.

(** X22: [sql_firewall_reset] when the rule file cannot be opened for
    writing.  The call still returns normally and the table is emptied,
    but the rule file keeps the rules it held; the failure shows in the
    server log only. *)
Theorem sql_firewall_reset_unwritten (h : host) (cfg : config)
    (open_ok truncate_ok : bool) (d : dump_io) (w : world) :
  superuser cfg = true ->
  pgfw_mode cfg = PGFW_MODE_DISABLED ->
  loaded cfg = true ->
  d_open_ok d = false ->
  let r := sql_firewall_reset h cfg open_ok truncate_ok d w in
  fst r = Return tt
  /\ pgss_hash (snd r) = ∅
  /\ rule_file (snd r) = rule_file w
  /\ last (server_log (snd r)) = Some LOG_could_not_write_stat_file.
Proof.
  intros Hsuper Hmode Hloaded Hopen.
  cbv zeta. unfold sql_firewall_reset.
  rewrite Hsuper, Hmode, Hloaded.
  rewrite bool_decide_eq_true_2 by reflexivity. cbn [negb fst snd].
  unfold update_firewall_rule_file. rewrite Hopen. cbn [negb].
  unfold entry_reset. cbv zeta.
  destruct open_ok, truncate_ok;
    cbn [record_gc_qtexts set_pgss set_qtext_file set_hash ereport_log
         qtext_file pgss_hash pgss rule_file server_log];
    rewrite last_snoc; repeat split; reflexivity.
Qed.

Lemma sql_firewall_reset_unwritten_witness :
  pgss_hash
    (snd (sql_firewall_reset example_host
            (example_config PGFW_MODE_DISABLED PGFW_ENGINE_HYBRID 100)
            true true (mkDumpIo false true LoadOk None true true)
            world_after_restart))
  = ∅
  /\ rule_file
       (snd (sql_firewall_reset example_host
               (example_config PGFW_MODE_DISABLED PGFW_ENGINE_HYBRID 100)
               true true (mkDumpIo false true LoadOk None true true)
               world_after_restart))
     = rule_file world_after_restart.
Proof.
  destruct (sql_firewall_reset_unwritten example_host
              (example_config PGFW_MODE_DISABLED PGFW_ENGINE_HYBRID 100)
              true true (mkDumpIo false true LoadOk None true true)
              world_after_restart)
    as (_ & Hempty & Hfile & _); try reflexivity.
  split; [exact Hempty | exact Hfile].
Defined.

(** X23: [sql_firewall_stat_reset] and the counters after it.  For any
    caller and in any mode, once the module is loaded, the call returns,
    sets the warning and the error counter to 0 and leaves the rules as
    they are.  A statement that Enforcing mode then denies makes
    [sql_firewall_stat_error_count] return 1 and
    [sql_firewall_stat_warning_count] return 0. *)
Theorem stat_reset_counts_from_zero (h : host) (cfg : config)
    (io : store_io) (query : list byte) (queryId : Z)
    (jstate : option (list pgssLocationLen)) (w : world) :
  loaded cfg = true ->
  let r := sql_firewall_stat_reset cfg w in
  fst r = Return tt
  /\ pgss_hash (snd r) = pgss_hash w
  /\ sql_firewall_stat_error_count cfg (snd r) = Return 0
  /\ sql_firewall_stat_warning_count cfg (snd r) = Return 0
  /\ (pgfw_mode cfg = PGFW_MODE_ENFORCING ->
      fst (pgss_store h cfg io query queryId jstate (snd r))
      = Ereport (ERR_prohibited_sql_statement query) ->
      sql_firewall_stat_error_count cfg
        (snd (pgss_store h cfg io query queryId jstate (snd r)))
      = Return 1
      /\ sql_firewall_stat_warning_count cfg
           (snd (pgss_store h cfg io query queryId jstate (snd r)))
         = Return 0).
Proof.
  intros Hloaded. cbv zeta.
  unfold sql_firewall_stat_reset, sql_firewall_stat_error_count,
    sql_firewall_stat_warning_count.
  rewrite Hloaded. cbn [negb fst snd].
  set (w0 := set_pgss w _).
  split; [reflexivity|]. split; [reflexivity|].
  split; [reflexivity|]. split; [reflexivity|].
  intros Hmode. unfold pgss_store. rewrite Hloaded, Hmode. cbn [negb].
  cbv zeta.
  destruct (to_be_prohibited cfg (GetUserId cfg) queryId w0)
    as [[[|]|e| |] w1] eqn:Hp; cbn [bind fst snd]; try discriminate.
  - intros _.
    destruct (to_be_prohibited_frame _ _ _ _ _ _ Hp) as (h' & -> & _).
    split; reflexivity.
  - intros He. exfalso.
    unfold to_be_prohibited, __to_be_prohibited in Hp.
    destruct (pgfw_rule_engine cfg); try discriminate Hp.
    injection Hp as <- _. discriminate He.
Qed.

Lemma stat_reset_counts_from_zero_witness :
  sql_firewall_stat_error_count example_user_config
    (snd (pgss_store example_host example_user_config all_ok_io
            select_text 43 None
            (snd (sql_firewall_stat_reset example_user_config
                    world_after_denial))))
  = Return 1.
Proof.
  destruct (stat_reset_counts_from_zero example_host example_user_config
              all_ok_io select_text 43 None world_after_denial eq_refl)
    as (_ & _ & _ & _ & Hdeny).
  destruct Hdeny as [Herr _].
  - reflexivity.
  - vm_compute. reflexivity.
  - exact Herr.
Defined.

(** X24: an import that fails at a record.  When the records before it
    were imported and the record raises an error, the import raises that
    error: the later records are not read, the table holds what the
    earlier records left in it, and the rule file is not rewritten, so it
    still has the rules from before the import. *)
Theorem import_stops_at_failing_record (h : host) (cfg : config)
    (i : import_io) (l1 l2 : list (csv_values * store_io))
    (v : csv_values) (io : store_io) (w w1 : world) (r : bool)
    (e : pg_error) :
  loaded cfg = true ->
  superuser cfg = true ->
  pgfw_mode cfg = PGFW_MODE_DISABLED ->
  i_stat_ok i = true -> i_is_regular i = true -> i_open_ok i = true ->
  import_loop h cfg l1 false w = (Return r, w1) ->
  fst (import_record h cfg io v w1) = Ereport e ->
  exists w2,
    sql_firewall_import_rule h cfg i (l1 ++ (v, io) :: l2) w
    = (Ereport e, w2)
    /\ pgss_hash w2 = pgss_hash w1
    /\ rule_file w2 = rule_file w.
Proof.
  intros Hloaded Hsuper Hmode Hstat Hreg Hopen Hrun Hfail.
  unfold sql_firewall_import_rule.
  rewrite Hloaded, Hsuper, Hmode, Hstat, Hreg, Hopen.
  rewrite bool_decide_eq_true_2 by reflexivity. cbn [negb].
  rewrite (import_loop_app h cfg l1 ((v, io) :: l2) false w r w1 Hrun).
  cbn [import_loop].
  pose proof (import_record_failure_hash h cfg io v w1 e Hfail) as Hh.
  pose proof (import_record_rule_file h cfg io v w1) as Hf.
  pose proof (import_loop_rule_file h cfg l1 false w) as Hf1.
  rewrite Hrun in Hf1. cbn [snd] in Hf1.
  destruct (import_record h cfg io v w1) as [[ret| | |] w2];
    cbn [fst snd] in *; try discriminate.
  injection Hfail as ->. cbn [bind].
  exists w2. split; [reflexivity|]. split; [exact Hh | congruence].
Qed.

Lemma import_stops_at_failing_record_witness :
  exists w2,
    sql_firewall_import_rule example_host
      (example_config PGFW_MODE_DISABLED PGFW_ENGINE_HYBRID 100)
      all_ok_import
      ([(record_with_queryid, all_ok_io)]
       ++ (record_without_queryid, failing_write_io)
          :: [(record_with_queryid, all_ok_io)])
      empty_world
    = (Ereport ERR_could_not_store_query_text, w2)
    /\ size (pgss_hash w2) = 1%nat
    /\ rule_file w2 = None.
Proof.
  destruct (import_stops_at_failing_record example_host
              (example_config PGFW_MODE_DISABLED PGFW_ENGINE_HYBRID 100)
              all_ok_import [(record_with_queryid, all_ok_io)]
              [(record_with_queryid, all_ok_io)]
              record_without_queryid failing_write_io empty_world
              (snd (import_loop example_host
                      (example_config PGFW_MODE_DISABLED PGFW_ENGINE_HYBRID
                                      100)
                      [(record_with_queryid, all_ok_io)] false empty_world))
              true ERR_could_not_store_query_text)
    as (w2 & Hrun & Hh & Hf); try reflexivity.
  exists w2. split; [exact Hrun|]. split; [|exact Hf].
  rewrite Hh. vm_compute. reflexivity.
Defined.

(** X25: a blacklist rule for all users.  When [add_rule] returns for a
    user name that [get_role_oid] maps to [InvalidOid] (the call passes
    [missing_ok], so no name is rejected), the query is prohibited for
    every user under the Blacklist and the Hybrid engine, whatever other
    rules the table holds. *)
Theorem wildcard_blacklist_rule_bans_everyone (h : host)
    (cfg cfg' : config) (io : store_io) (user query_string : list byte)
    (w w1 : world) (r hash : Z) (clocations : list pgssLocationLen) :
  add_rule h cfg io user query_string PGFW_BLACKLIST_ENTRY w
  = (Return r, w1) ->
  get_role_oid h user = InvalidOid ->
  parse_analyze_jumble h query_string = Return (hash, clocations) ->
  pgfw_rule_engine cfg' = PGFW_ENGINE_BLACKLIST
  \/ pgfw_rule_engine cfg' = PGFW_ENGINE_HYBRID ->
  forall userid,
    fst (to_be_prohibited cfg' userid (if hash =? 0 then 1 else hash) w1)
    = Return true.
Proof.
  intros Hadd Hoid Hparse Heng userid.
  unfold add_rule, sql_firewall_queryid in Hadd. rewrite Hparse, Hoid in Hadd.
  set (queryid := if hash =? 0 then 1 else hash) in *.
  destruct (generate_normalized_query h clocations query_string
              (to_int (Z.of_nat (length query_string)))) as [[norm len]|];
    [|discriminate].
  cbn [bind] in Hadd. unfold __add_rule in Hadd.
  destruct (pgss_restore cfg io InvalidOid queryid norm 0 0
                         PGFW_BLACKLIST_ENTRY w) as [[ret| | |] w1'] eqn:Hrun;
    cbn [bind] in Hadd; try discriminate.
  injection Hadd as _ <-.
  destruct (pgss_restore_rules _ _ _ _ _ _ _ _ _ _ _ Hrun) as [_ [e He]].
  change (to_char PGFW_BLACKLIST_ENTRY) with PGFW_BLACKLIST_ENTRY in He.
  assert (Hb : exists b, lookup_blacklist userid queryid w1' = Some b).
  { unfold lookup_blacklist. rewrite lookup_rule_rule_for.
    change (to_char PGFW_BLACKLIST_ENTRY) with PGFW_BLACKLIST_ENTRY.
    unfold rule_for. rewrite He.
    destruct (pgss_hash w1' !! mkKey userid queryid PGFW_BLACKLIST_ENTRY);
      eauto. }
  destruct Hb as [b Hb].
  unfold to_be_prohibited, __to_be_prohibited.
  destruct Heng as [-> | ->]; rewrite Hb; reflexivity.
Qed.

Lemma wildcard_blacklist_rule_bans_everyone_witness :
  fst (to_be_prohibited
         (example_config PGFW_MODE_ENFORCING PGFW_ENGINE_HYBRID 100) 77 42
         (snd (add_rule wildcard_host
                 (example_config PGFW_MODE_DISABLED PGFW_ENGINE_HYBRID 100)
                 all_ok_io [] select_text PGFW_BLACKLIST_ENTRY
                 world_with_rules)))
  = Return true.
Proof.
  apply (wildcard_blacklist_rule_bans_everyone wildcard_host
           (example_config PGFW_MODE_DISABLED PGFW_ENGINE_HYBRID 100)
           (example_config PGFW_MODE_ENFORCING PGFW_ENGINE_HYBRID 100)
           all_ok_io [] select_text world_with_rules
           (snd (add_rule wildcard_host
                   (example_config PGFW_MODE_DISABLED PGFW_ENGINE_HYBRID 100)
                   all_ok_io [] select_text PGFW_BLACKLIST_ENTRY
                   world_with_rules))
           0 42 []).
  - vm_compute. reflexivity.
  - reflexivity.
  - reflexivity.
  - right. reflexivity.
Defined.

(** X26: [sql_firewall_del_rule] for a rule that is not in the table.  By
    a superuser in Disabled mode, for a query that the host can parse, the
    call returns true and leaves the state as it is; a rule type name that
    is neither "whitelist" nor "blacklist" is not rejected and has this
    outcome when the table holds no rule of the dummy type for the
    query. *)
Theorem sql_firewall_del_rule_missing (h : host) (cfg : config)
    (username query_string rule_type_name : list byte) (w : world)
    (hash : Z) (clocations : list pgssLocationLen) :
  loaded cfg = true ->
  superuser cfg = true ->
  pgfw_mode cfg = PGFW_MODE_DISABLED ->
  parse_analyze_jumble h query_string = Return (hash, clocations) ->
  pgss_hash w !! mkKey (get_role_oid h username)
                       (if hash =? 0 then 1 else hash)
                       (rule_typeid rule_type_name) = None ->
  sql_firewall_del_rule h cfg username query_string rule_type_name w
  = (Return true, w).
Proof.
  intros Hloaded Hsuper Hmode Hparse Hnone.
  unfold sql_firewall_del_rule. cbv zeta.
  rewrite Hloaded, Hsuper, Hmode.
  rewrite bool_decide_eq_true_2 by reflexivity. cbn [negb].
  unfold del_rule, sql_firewall_queryid. rewrite Hparse.
  cbn [bind __del_rule]. unfold entry_delete.
  rewrite rule_typeid_char, delete_id by exact Hnone.
  rewrite set_hash_same. reflexivity.
Qed.

Lemma sql_firewall_del_rule_missing_witness :
  sql_firewall_del_rule example_host
    (example_config PGFW_MODE_DISABLED PGFW_ENGINE_HYBRID 100)
    [] select_text ["g"; "r"; "e"; "y"]%byte world_with_rules
  = (Return true, world_with_rules).
Proof.
  apply (sql_firewall_del_rule_missing example_host
           (example_config PGFW_MODE_DISABLED PGFW_ENGINE_HYBRID 100)
           [] select_text ["g"; "r"; "e"; "y"]%byte world_with_rules 42 []).
  - reflexivity.
  - reflexivity.
  - reflexivity.
  - reflexivity.
  - vm_compute. reflexivity.
Defined.
